(** * reactor_core_ts: schedulers and disposables

    A shallow embedding of [src/schedulers.ts] and of the disposable module
    ([CallbackDisposable], [Disposables.REJECTED]) over an explicit model of
    the host's timers.

    The program is stateful JavaScript: objects are mutable and shared
    between the closures handed to the host and the handles returned to the
    caller.  The embedding therefore threads one [World] through every
    operation: the host's clock and armed timers, the heap of library
    objects, the workers, and two observation logs (executions of the
    caller's closures, and errors that reached the host's dispatch loop).

    What is assumed of the environment:
    - the host ([setTimeout], [setInterval], [clearTimeout],
      [clearInterval]) keeps one table of armed timers, hands out fresh
      integer identifiers counting from 1, fires a timer only when it is
      due, drops a one-shot timer before it calls its function and re-arms
      a repeating one at a fixed rate;
    - a delay or period is one the host takes as it is, at most 2^31 - 1;
      what a host does with a larger one (clamp, wrap around) is not
      modelled;
    - the host calls the function it was given with a receiver of its own;
    - a task does what a closure can do to this library: it makes library
      calls (it may schedule, dispose, shut a worker down), takes some
      time, and returns or raises. *)

From stdpp Require Import gmap list.

Local Open Scope Z_scope.

(** * The program *)

(** ** Values of [types.d.ts] *)

(** [ScheduleOptions]: both members are optional. *)
Record ScheduleOptions := mkOptions {
  initialDelay : option Z;
  period : option Z
}.

(** A closure of the caller that does not call back into the library: what
    the caller wraps in a [CallbackDisposable] of its own.  It is identified
    by a name, consumes [p_cost] units of virtual time when it runs, and
    [p_throws k] tells whether the call made after [k] earlier calls of the
    same closure raises. *)
Record Plain := mkPlain {
  p_name : nat;
  p_cost : Z;
  p_throws : nat → bool
}.

(** [Runnable = () => void], as handed to the scheduling methods.  A task is
    opaque to the library; what it can do to the library is call it.  Its
    body is the sequence of library calls it makes before it returns, or
    raises when [r_throws] says so.  Handles and workers are named by their
    allocation index. *)
Inductive Runnable : Type :=
  | mkRunnable (name : nat) (cost : Z) (throws : nat → bool) (body : list Action)
with Action : Type :=
  | Schedule (task : Runnable) (delay : option Z)
  | SchedulePeriodically (task : Runnable) (options : ScheduleOptions)
  | CreateWorker
  | WorkerSchedule (wr : nat) (task : Runnable) (delay : option Z)
  | WorkerSchedulePeriodically (wr : nat) (task : Runnable) (options : ScheduleOptions)
  | WorkerShutdown (wr : nat)
  | Dispose (o : nat)
  | NewCallbackDisposable (c : Plain).

Definition r_name (r : Runnable) : nat := let '(mkRunnable n _ _ _) := r in n.
Definition r_cost (r : Runnable) : Z := let '(mkRunnable _ c _ _) := r in c.
Definition r_throws (r : Runnable) : nat → bool := let '(mkRunnable _ _ t _) := r in t.
Definition r_body (r : Runnable) : list Action := let '(mkRunnable _ _ _ b) := r in b.

(** What a call can end with. [TypeError] is the engine's own error (a
    missing private member, calling [undefined]); [UserError n] is whatever
    the closure named [n] raised. *)
Inductive Error := TypeError | UserError (name : nat).
Inductive Outcome := Normal | Throw (e : Error).

(** The receiver ([this]) of a method call.  A method written [o.m()] runs
    with [Instance o].  A method handed over as a bare function value
    ([setTimeout(o.run, d)], with neither [bind] nor an arrow function around
    it) has lost [o]: the host invokes it with a receiver of its own (the
    global object in browsers and Deno, the timer object in Node), which is
    not an instance of any class of this library and has none of their
    members. *)
Inductive This := HostObject | Instance (o : nat).

(** ** Function values handed to the host

    One constructor per expression that the source passes to [setTimeout]
    or [setInterval]; arrow functions carry what they capture. *)
Inductive Callback :=
  (** line 17: [task] itself *)
  | CbRunnable (task : Runnable)
  (** lines 27-33: the arrow function of
      [DefaultScheduler.schedulePeriodically]; captures [task],
      [periodicTask] and [options] *)
  | CbSchedulerInitial (task : Runnable) (periodicTask : nat) (opts : ScheduleOptions)
  (** line 30: [periodicTask.run], the method without its receiver *)
  | CbPeriodicTask_run
  (** line 66: [workerTask.run], the method without its receiver *)
  | CbWorkerTask_run
  (** lines 80-88: the arrow function of
      [DefaultWorker.schedulePeriodically]; captures [this] (the worker),
      [task], [workerTask] and [options] *)
  | CbWorkerInitial (worker : nat) (task : Runnable) (workerTask : nat) (opts : ScheduleOptions)
  (** line 83: [workerTask.run], the method without its receiver *)
  | CbWorkerPeriodicTask_run.

(** An armed timer of the host.  [t_repeat] is [Some p] for [setInterval].
    [t_owner] is bookkeeping of the model only: the worker whose method
    armed the timer ([None] for the scheduler). No operation reads it. *)
Record Timer := mkTimer {
  t_due : Z;
  t_repeat : option Z;
  t_cb : Callback;
  t_owner : option nat
}.

(** ** Objects *)

(** The closures that end up in a [CallbackDisposable]: [() => {}] (the
    rejected sentinel), [() => clearTimeout(id)] (line 18), or a closure of
    the caller, the class being exported. *)
Inductive Thunk :=
  | ThunkNoop
  | ThunkClearTimeout (id : Z)
  | ThunkPlain (c : Plain).

(** [#callback?: Runnable] *)
Record CallbackDisposable := mkCallbackDisposable {
  callback : option Thunk
}.

(** [_task], [initialId?], [periodId?] *)
Record PeriodicTask := mkPeriodicTask {
  _task : Runnable;
  initialId : option Z;
  periodId : option Z
}.

(** [id?], [#parent], [#task] *)
Record WorkerTask := mkWorkerTask {
  wt_id : option Z;
  wt_parent : nat;
  wt_task : Runnable
}.

(** [class WorkerPeriodicTask extends PeriodicTask], plus [#parent] *)
Record WorkerPeriodicTask := mkWorkerPeriodicTask {
  wp_super : PeriodicTask;
  wp_parent : nat
}.

Inductive Obj :=
  | ObjCallback (d : CallbackDisposable)
  | ObjPeriodic (p : PeriodicTask)
  | ObjWorkerTask (t : WorkerTask)
  | ObjWorkerPeriodic (t : WorkerPeriodicTask).

(** [#shutdown], [#timeouts], [#intervals] *)
Record DefaultWorker := mkWorker {
  shutdown : bool;
  timeouts : list Z;
  intervals : list Z
}.

(** One execution of a caller's closure: when, which closure, and (model
    bookkeeping) the worker it was scheduled through. *)
Record LogEntry := mkEntry {
  e_at : Z;
  e_who : nat;
  e_via : option nat
}.

Record World := mkWorld {
  now : Z;                    (* the host's clock *)
  next_id : Z;                (* the next timer identifier the host hands out *)
  timers : gmap Z Timer;      (* the armed timers *)
  heap : list Obj;            (* library objects, by allocation order *)
  workers : list DefaultWorker;
  log : list LogEntry;        (* closure executions, oldest first *)
  uncaught : list Error       (* errors that reached the host's dispatch *)
}.

Definition with_now (f : Z → Z) (w : World) : World :=
  mkWorld (f (now w)) (next_id w) (timers w) (heap w) (workers w) (log w) (uncaught w).
Definition with_next_id (f : Z → Z) (w : World) : World :=
  mkWorld (now w) (f (next_id w)) (timers w) (heap w) (workers w) (log w) (uncaught w).
Definition with_timers (f : gmap Z Timer → gmap Z Timer) (w : World) : World :=
  mkWorld (now w) (next_id w) (f (timers w)) (heap w) (workers w) (log w) (uncaught w).
Definition with_heap (f : list Obj → list Obj) (w : World) : World :=
  mkWorld (now w) (next_id w) (timers w) (f (heap w)) (workers w) (log w) (uncaught w).
Definition with_workers (f : list DefaultWorker → list DefaultWorker) (w : World) : World :=
  mkWorld (now w) (next_id w) (timers w) (heap w) (f (workers w)) (log w) (uncaught w).
Definition with_log (f : list LogEntry → list LogEntry) (w : World) : World :=
  mkWorld (now w) (next_id w) (timers w) (heap w) (workers w) (f (log w)) (uncaught w).
Definition with_uncaught (f : list Error → list Error) (w : World) : World :=
  mkWorld (now w) (next_id w) (timers w) (heap w) (workers w) (log w) (f (uncaught w)).

(** ** The host: timers *)

(** [setTimeout]/[setInterval]: a fresh identifier, a due time measured from
    the clock at the moment of the call (negative delays count as 0). *)
Definition arm (delay : Z) (rep : option Z) (cb : Callback) (owner : option nat)
    (w : World) : Z * World :=
  let id := next_id w in
  (id, with_next_id (λ n, n + 1)
         (with_timers (insert id (mkTimer (now w + Z.max 0 delay) rep cb owner)) w)).

Definition setTimeout (cb : Callback) (delay : Z) (owner : option nat) :=
  arm delay None cb owner.
Definition setInterval (cb : Callback) (p : Z) (owner : option nat) :=
  arm p (Some p) cb owner.

(** [clearTimeout(id)]; [undefined] names no timer.  The two clearing
    functions work on the same table of identifiers. *)
Definition clearTimeout (id : option Z) (w : World) : World :=
  match id with
  | Some i => with_timers (delete i) w
  | None => w
  end.
Definition clearInterval := clearTimeout.

(** How often the closure named [n] has run so far. *)
Definition calls (n : nat) (l : list LogEntry) : nat :=
  length (filter (λ e, e_who e = n) l).

(** Calling a plain closure: it is logged, the clock advances by its cost,
    and it returns or raises. *)
Definition call_plain (c : Plain) (w : World) : Outcome * World :=
  let k := calls (p_name c) (log w) in
  (if p_throws c k then Throw (UserError (p_name c)) else Normal,
   with_now (λ t, t + Z.max 0 (p_cost c))
     (with_log (λ l, l ++ [mkEntry (now w) (p_name c) None]) w)).

(** JavaScript truthiness of a [number | undefined]: [if (x)]. *)
Definition truthy (v : option Z) : bool :=
  match v with
  | Some z => negb (z =? 0)
  | None => false
  end.

(** [x != null] *)
Definition not_null (v : option Z) : bool :=
  match v with Some _ => true | None => false end.

(** [Array.prototype.indexOf]: the first index, or -1. *)
Fixpoint indexOf (x : Z) (l : list Z) : Z :=
  match l with
  | [] => -1
  | y :: l' =>
      if x =? y then 0
      else let i := indexOf x l' in if i <? 0 then -1 else i + 1
  end.

(** [l.splice(idx, 1)] for [0 <= idx]. *)
Definition splice1 (idx : Z) (l : list Z) : list Z := delete (Z.to_nat idx) l.

(** [new C(...)]: the object gets the next heap index. *)
Definition alloc (o : Obj) (w : World) : nat * World :=
  (length (heap w), with_heap (λ h, h ++ [o]) w).

(** ** disposable module *)

(** [CallbackDisposable.dispose] (line 16): [this.#callback?.()].  The
    member is read and, when present, called; nothing assigns to it. *)
Definition run_thunk (t : Thunk) (w : World) : Outcome * World :=
  match t with
  | ThunkNoop => (Normal, w)
  | ThunkClearTimeout id => (Normal, clearTimeout (Some id) w)
  | ThunkPlain c => call_plain c w
  end.

Definition CallbackDisposable_dispose (d : CallbackDisposable) (w : World)
    : Outcome * World :=
  match callback d with
  | Some t => run_thunk t w
  | None => (Normal, w)
  end.

(** [Disposables.REJECTED]: created once when the module is loaded, so it
    is the first object of the heap. *)
Definition REJECTED : nat := 0%nat.

(** ** DefaultWorker: the tracking lists *)

Definition on_worker (wr : nat) (f : DefaultWorker → DefaultWorker) (w : World) : World :=
  with_workers (alter f wr) w.

Definition push_timeout (id : Z) (W : DefaultWorker) : DefaultWorker :=
  mkWorker (shutdown W) (timeouts W ++ [id]) (intervals W).
Definition push_interval (id : Z) (W : DefaultWorker) : DefaultWorker :=
  mkWorker (shutdown W) (timeouts W) (intervals W ++ [id]).
Definition splice_timeout (idx : Z) (W : DefaultWorker) : DefaultWorker :=
  mkWorker (shutdown W) (splice1 idx (timeouts W)) (intervals W).
Definition splice_interval (idx : Z) (W : DefaultWorker) : DefaultWorker :=
  mkWorker (shutdown W) (timeouts W) (splice1 idx (intervals W)).

(** [removeTimeout(id?)], lines 113-120 *)
Definition DefaultWorker_removeTimeout (wr : nat) (id : option Z) (w : World) : World :=
  match workers w !! wr, id with
  | Some W, Some i =>
      if truthy id then
        let idx := indexOf i (timeouts W) in
        if 0 <=? idx then on_worker wr (splice_timeout idx) w else w
      else w
  | _, _ => w
  end.

(** [removeInterval(id?)], lines 126-133 *)
Definition DefaultWorker_removeInterval (wr : nat) (id : option Z) (w : World) : World :=
  match workers w !! wr, id with
  | Some W, Some i =>
      if truthy id then
        let idx := indexOf i (intervals W) in
        if 0 <=? idx then on_worker wr (splice_interval idx) w else w
      else w
  | _, _ => w
  end.

(** ** dispose methods *)

(** [PeriodicTask.dispose], lines 153-161 *)
Definition PeriodicTask_dispose (p : PeriodicTask) (w : World) : World :=
  let w1 := if truthy (initialId p) then clearTimeout (initialId p) w else w in
  if truthy (periodId p) then clearInterval (periodId p) w1 else w1.

(** [WorkerTask.dispose], lines 182-186 *)
Definition WorkerTask_dispose (t : WorkerTask) (w : World) : World :=
  DefaultWorker_removeTimeout (wt_parent t) (wt_id t) (clearTimeout (wt_id t) w).

(** [WorkerPeriodicTask.dispose], lines 208-219 *)
Definition WorkerPeriodicTask_dispose (t : WorkerPeriodicTask) (w : World) : World :=
  let w1 :=
    if truthy (initialId (wp_super t)) then
      DefaultWorker_removeTimeout (wp_parent t) (initialId (wp_super t))
        (clearTimeout (initialId (wp_super t)) w)
    else w in
  if not_null (periodId (wp_super t)) then
    DefaultWorker_removeInterval (wp_parent t) (periodId (wp_super t))
      (clearInterval (periodId (wp_super t)) w1)
  else w1.

(** [d.dispose()] on a handle: the method of the object's class.  (A heap
    index that names no object stands for no handle; nothing happens.) *)
Definition Disposable_dispose (o : nat) (w : World) : Outcome * World :=
  match heap w !! o with
  | Some (ObjCallback d) => CallbackDisposable_dispose d w
  | Some (ObjPeriodic p) => (Normal, PeriodicTask_dispose p w)
  | Some (ObjWorkerTask t) => (Normal, WorkerTask_dispose t w)
  | Some (ObjWorkerPeriodic t) => (Normal, WorkerPeriodicTask_dispose t w)
  | None => (Normal, w)
  end.

(** ** Assignments to members *)

(** Assignments to the members of an object on the heap:
    [periodicTask.initialId = id] (line 27), [periodicTask.periodId = id]
    (line 29) and [workerTask.periodId = id] (line 87), [workerTask.id = id]
    (line 68). *)
Definition set_initialId (id : Z) (o : Obj) : Obj :=
  match o with
  | ObjPeriodic p => ObjPeriodic (mkPeriodicTask (_task p) (Some id) (periodId p))
  | _ => o
  end.

Definition set_periodId (id : Z) (o : Obj) : Obj :=
  match o with
  | ObjPeriodic p => ObjPeriodic (mkPeriodicTask (_task p) (initialId p) (Some id))
  | ObjWorkerPeriodic t =>
      ObjWorkerPeriodic
        (mkWorkerPeriodicTask
           (mkPeriodicTask (_task (wp_super t)) (initialId (wp_super t)) (Some id))
           (wp_parent t))
  | _ => o
  end.

Definition set_id (id : Z) (o : Obj) : Obj :=
  match o with
  | ObjWorkerTask t => ObjWorkerTask (mkWorkerTask (Some id) (wt_parent t) (wt_task t))
  | _ => o
  end.

(** ** DefaultScheduler *)

(** [schedule], lines 16-19 *)
Definition DefaultScheduler_schedule (task : Runnable) (delay : option Z) (w : World)
    : nat * World :=
  let '(id, w1) := setTimeout (CbRunnable task) (default 0 delay) None w in
  alloc (ObjCallback (mkCallbackDisposable (Some (ThunkClearTimeout id)))) w1.

(** [schedulePeriodically], lines 21-36 *)
Definition DefaultScheduler_schedulePeriodically (task : Runnable)
    (options : ScheduleOptions) (w : World) : nat * World :=
  let '(periodicTask, w1) := alloc (ObjPeriodic (mkPeriodicTask task None None)) w in
  let '(id, w2) :=
    setTimeout (CbSchedulerInitial task periodicTask options)
      (default 0 (initialDelay options)) None w1 in
  (periodicTask, with_heap (alter (set_initialId id) periodicTask) w2).

(** [now], lines 38-40 *)
Definition DefaultScheduler_now (w : World) : Z := now w.

(** [createWorker], lines 42-44, with the constructor of lines 51-57 *)
Definition DefaultScheduler_createWorker (w : World) : nat * World :=
  (length (workers w), with_workers (λ l, l ++ [mkWorker false [] []]) w).

(** ** DefaultWorker *)

(** [schedule], lines 59-71.  (A method call needs an instance; the last
    branch cannot be reached from the program.) *)
Definition DefaultWorker_schedule (wr : nat) (task : Runnable) (delay : option Z)
    (w : World) : nat * World :=
  match workers w !! wr with
  | Some W =>
      if shutdown W then (REJECTED, w)
      else
        let '(workerTask, w1) := alloc (ObjWorkerTask (mkWorkerTask None wr task)) w in
        let '(id, w2) := setTimeout CbWorkerTask_run (default 0 delay) (Some wr) w1 in
        let w3 := on_worker wr (push_timeout id) w2 in
        (workerTask, with_heap (alter (set_id id) workerTask) w3)
  | None => (REJECTED, w)
  end.

(** [schedulePeriodically], lines 73-93.  The identifier of the initial
    timer goes to the worker's list only: nothing assigns
    [workerTask.initialId]. *)
Definition DefaultWorker_schedulePeriodically (wr : nat) (task : Runnable)
    (options : ScheduleOptions) (w : World) : nat * World :=
  match workers w !! wr with
  | Some W =>
      if shutdown W then (REJECTED, w)
      else
        let '(workerTask, w1) :=
          alloc (ObjWorkerPeriodic (mkWorkerPeriodicTask (mkPeriodicTask task None None) wr)) w in
        let '(initialId, w2) :=
          setTimeout (CbWorkerInitial wr task workerTask options)
            (default 0 (initialDelay options)) (Some wr) w1 in
        (workerTask, on_worker wr (push_timeout initialId) w2)
  | None => (REJECTED, w)
  end.

(** [shutdown], lines 95-107 *)
Definition DefaultWorker_shutdown (wr : nat) (w : World) : World :=
  match workers w !! wr with
  | Some W =>
      let w1 := on_worker wr (λ W, mkWorker true (timeouts W) (intervals W)) w in
      let w2 := foldl (λ w it, clearInterval (Some it) w) w1 (intervals W) in
      let w3 := foldl (λ w it, clearTimeout (Some it) w) w2 (timeouts W) in
      on_worker wr (λ W, mkWorker (shutdown W) [] []) w3
  | None => w
  end.

(** ** Calling a task *)

(** One library call made by the caller's code. *)
Definition exec_action (a : Action) (w : World) : Outcome * World :=
  match a with
  | Schedule task delay => (Normal, (DefaultScheduler_schedule task delay w).2)
  | SchedulePeriodically task options =>
      (Normal, (DefaultScheduler_schedulePeriodically task options w).2)
  | CreateWorker => (Normal, (DefaultScheduler_createWorker w).2)
  | WorkerSchedule wr task delay => (Normal, (DefaultWorker_schedule wr task delay w).2)
  | WorkerSchedulePeriodically wr task options =>
      (Normal, (DefaultWorker_schedulePeriodically wr task options w).2)
  | WorkerShutdown wr => (Normal, DefaultWorker_shutdown wr w)
  | Dispose o => Disposable_dispose o w
  | NewCallbackDisposable c =>
      (Normal, (alloc (ObjCallback (mkCallbackDisposable (Some (ThunkPlain c)))) w).2)
  end.

(** The calls of a body, in order; an error ends the body. *)
Fixpoint run_body (acts : list Action) (w : World) : Outcome * World :=
  match acts with
  | [] => (Normal, w)
  | a :: rest =>
      match exec_action a w with
      | (Normal, w1) => run_body rest w1
      | (Throw e, w1) => (Throw e, w1)
      end
  end.

(** Calling a task: it is logged, makes its library calls, the clock
    advances by its cost, and it returns or raises. *)
Definition call (r : Runnable) (via : option nat) (w : World) : Outcome * World :=
  let k := calls (r_name r) (log w) in
  let '(out, w1) :=
    run_body (r_body r) (with_log (λ l, l ++ [mkEntry (now w) (r_name r) via]) w) in
  (match out with
   | Throw e => Throw e
   | Normal => if r_throws r k then Throw (UserError (r_name r)) else Normal
   end,
   with_now (λ t, t + Z.max 0 (r_cost r)) w1).

(** ** run methods, by receiver *)

(** [PeriodicTask.run], lines 145-151.  With the host's receiver,
    [this._task] is [undefined] and calling it raises inside the [try];
    the handler then calls [this.dispose], [undefined] as well, and that
    error leaves the method. *)
Definition PeriodicTask_run (this : This) (w : World) : Outcome * World :=
  match this with
  | HostObject => (Throw TypeError, w)
  | Instance o =>
      match heap w !! o with
      | Some (ObjPeriodic p) =>
          match call (_task p) None w with
          | (Normal, w1) => (Normal, w1)
          | (Throw _, w1) => Disposable_dispose o w1
          end
      | Some (ObjWorkerPeriodic t) =>
          match call (_task (wp_super t)) (Some (wp_parent t)) w with
          | (Normal, w1) => (Normal, w1)
          | (Throw _, w1) => Disposable_dispose o w1
          end
      | Some _ => Disposable_dispose o w   (* no [_task]: straight to the handler *)
      | None => (Throw TypeError, w)
      end
  end.

(** [WorkerTask.run], lines 174-180.  [#task] and [#parent] are private
    members: reading them from anything but a [WorkerTask] raises, in the
    [try] and again in the [finally]. *)
Definition WorkerTask_run (this : This) (w : World) : Outcome * World :=
  match this with
  | HostObject => (Throw TypeError, w)
  | Instance o =>
      match heap w !! o with
      | Some (ObjWorkerTask t) =>
          let '(out, w1) := call (wt_task t) (Some (wt_parent t)) w in
          match heap w1 !! o with
          | Some (ObjWorkerTask t1) =>
              (out, DefaultWorker_removeTimeout (wt_parent t1) (wt_id t1) w1)
          | _ => (out, w1)
          end
      | _ => (Throw TypeError, w)
      end
  end.

(** [WorkerPeriodicTask.run], lines 196-206.  With the host's receiver the
    call of [this._task] raises inside the [try]; the handler reads
    [this.periodId], finds [undefined], and the method returns. *)
Definition WorkerPeriodicTask_run (this : This) (w : World) : Outcome * World :=
  match this with
  | HostObject => (Normal, w)
  | Instance o =>
      match heap w !! o with
      | Some (ObjWorkerPeriodic t) =>
          match call (_task (wp_super t)) (Some (wp_parent t)) w with
          | (Normal, w1) => (Normal, w1)
          | (Throw _, w1) =>
              match heap w1 !! o with
              | Some (ObjWorkerPeriodic t1) =>
                  if truthy (periodId (wp_super t1)) then
                    (Normal,
                     DefaultWorker_removeInterval (wp_parent t1) (periodId (wp_super t1))
                       (clearInterval (periodId (wp_super t1)) w1))
                  else (Normal, w1)
              | _ => (Normal, w1)
              end
          end
      | Some (ObjPeriodic p) =>
          match call (_task p) None w with
          | (Normal, w1) => (Normal, w1)
          | (Throw _, w1) =>
              match heap w1 !! o with
              | Some (ObjPeriodic p1) =>
                  if truthy (periodId p1) then
                    (* [this.#parent] on a plain PeriodicTask *)
                    (Throw TypeError, clearInterval (periodId p1) w1)
                  else (Normal, w1)
              | _ => (Normal, w1)
              end
          end
      | Some (ObjWorkerTask _) | Some (ObjCallback _) => (Normal, w)
      | None => (Throw TypeError, w)
      end
  end.

(** ** The host dispatching a timer *)

(** What each function value does when the host calls it. *)
Definition run_callback (cb : Callback) (w : World) : Outcome * World :=
  match cb with
  | CbRunnable task => call task None w
  | CbSchedulerInitial task periodicTask options =>
      match call task None w with
      | (Normal, w1) =>
          let '(id, w2) := setInterval CbPeriodicTask_run (default 0 (period options)) None w1 in
          (Normal, with_heap (alter (set_periodId id) periodicTask) w2)
      | (Throw e, w1) => (Throw e, w1)
      end
  | CbPeriodicTask_run => PeriodicTask_run HostObject w
  | CbWorkerTask_run => WorkerTask_run HostObject w
  | CbWorkerInitial wr task workerTask options =>
      match call task (Some wr) w with
      | (Normal, w1) =>
          let '(periodId, w2) :=
            setInterval CbWorkerPeriodicTask_run (default 0 (period options)) (Some wr) w1 in
          let w3 := on_worker wr (push_interval periodId) w2 in
          (Normal, with_heap (alter (set_periodId periodId) workerTask) w3)
      | (Throw e, w1) => (Throw e, w1)
      end
  | CbWorkerPeriodicTask_run => WorkerPeriodicTask_run HostObject w
  end.

(** The host fires timer [id]: only an armed timer that is due.  A one-shot
    timer leaves the table before its function runs; a repeating one is
    re-armed one period after its previous due time. *)
Definition fire (id : Z) (w : World) : Outcome * World :=
  match timers w !! id with
  | Some t =>
      if t_due t <=? now w then
        let w1 :=
          match t_repeat t with
          | None => with_timers (delete id) w
          | Some p =>
              with_timers (insert id (mkTimer (t_due t + Z.max 0 p) (t_repeat t) (t_cb t) (t_owner t))) w
          end in
        run_callback (t_cb t) w1
      else (Normal, w)
  | None => (Normal, w)
  end.

(** ** Runs of the whole system *)

(** What happens between two states: time passes, the host fires a timer,
    or the caller's own code makes a library call. *)
Inductive Op :=
  | Tick (dt : Z)
  | Fire (id : Z)
  | Do (a : Action).

Definition exec (op : Op) (w : World) : World :=
  match op with
  | Tick dt => with_now (λ t, t + Z.max 0 dt) w
  | Fire id =>
      match fire id w with
      | (Normal, w1) => w1
      | (Throw e, w1) => with_uncaught (λ l, l ++ [e]) w1
      end
  | Do a => (exec_action a w).2
  end.

Definition run (ops : list Op) (w : World) : World := foldl (λ w op, exec op w) w ops.

(** The program just loaded: the clock at 0, no timer, and the rejected
    sentinel as the only object. *)
Definition init : World :=
  mkWorld 0 1 ∅ [ObjCallback (mkCallbackDisposable (Some ThunkNoop))] [] [] [].

(** * Vocabulary of the properties *)

(** Cancelling a list of timers, as [shutdown] does with [forEach]. *)
Definition cancel_all (l : list Z) (T : gmap Z Timer) : gmap Z Timer :=
  foldl (λ T it, delete it T) T l.

(** The state [shutdown] leaves a worker in. *)
Definition Shut (wr : nat) (w : World) : Prop :=
  workers w !! wr = Some (mkWorker true [] []).

(** Worker [wr] exists and satisfies [Q]. *)
Definition worker_sat (Q : DefaultWorker → Prop) (wr : nat) (w : World) : Prop :=
  ∃ W, workers w !! wr = Some W ∧ Q W.

(** The worker exists and its flag is set. *)
Definition is_shut (wr : nat) (w : World) : Prop :=
  worker_sat (λ W, shutdown W = true) wr w.

(** The executions that went through worker [wr]. *)
Definition via_worker (wr : nat) (l : list LogEntry) : list LogEntry :=
  filter (λ e, e_via e = Some wr) l.

(** Every timer armed in [w'] is armed in [w]. *)
Definition timers_sub (w' w : World) : Prop :=
  ∀ id t, timers w' !! id = Some t → timers w !! id = Some t.

(** None of the armed timers was armed by worker [wr]. *)
Definition no_timer_of (wr : nat) (w : World) : Prop :=
  ∀ id t, timers w !! id = Some t → t_owner t ≠ Some wr.

(** The worker is as [shutdown] left it and none of its timers is armed. *)
Definition Quiet (wr : nat) (w : World) : Prop := Shut wr w ∧ no_timer_of wr w.

(** What [schedule] and [schedulePeriodically] of worker [wr] return: the
    rejected sentinel, a [WorkerTask] of [wr], or a [WorkerPeriodicTask] of
    [wr]. *)
Definition handle_of (wr : nat) (w : World) (o : nat) : Prop :=
  o = REJECTED ∨
  (∃ t, heap w !! o = Some (ObjWorkerTask t) ∧ wt_parent t = wr) ∨
  (∃ t, heap w !! o = Some (ObjWorkerPeriodic t) ∧ wp_parent t = wr).

(** Tasks for the concrete runs: one that returns, one that raises, neither
    taking any time nor calling the library; and one that shuts a worker
    down from inside. *)
Definition returns (n : nat) : Runnable := mkRunnable n 0 (λ _, false) [].
Definition raises (n : nat) : Runnable := mkRunnable n 0 (λ _, true) [].
Definition shuts_down (n wr : nat) : Runnable :=
  mkRunnable n 0 (λ _, false) [WorkerShutdown wr].

(** The bookkeeping invariant: what the tracking lists guarantee in every
    state the program can reach.  An armed timer that a worker armed is in
    one of that worker's lists; and while the initial timer of a worker's
    periodic task is armed, the worker is not shut down.  (The lists may
    hold more than the armed timers.) *)
Record inv (T : gmap Z Timer) (Ws : list DefaultWorker) : Prop := mkInv {
  inv_tracked : ∀ id t wr,
    T !! id = Some t → t_owner t = Some wr →
    ∃ W, Ws !! wr = Some W ∧ (id ∈ timeouts W ∨ id ∈ intervals W);
  inv_initial : ∀ id t wr task o opts,
    T !! id = Some t → t_cb t = CbWorkerInitial wr task o opts →
    t_owner t = Some wr ∧ ∃ W, Ws !! wr = Some W ∧ shutdown W = false
}.

Definition Inv (w : World) : Prop := inv (timers w) (workers w).

(** Assignments to an object change its timer identifiers only. *)
Definition same_kind (a b : Obj) : Prop :=
  match a, b with
  | ObjCallback d, ObjCallback d' => d = d'
  | ObjPeriodic p, ObjPeriodic p' => _task p = _task p'
  | ObjWorkerTask t, ObjWorkerTask t' =>
      wt_parent t = wt_parent t' ∧ wt_task t = wt_task t'
  | ObjWorkerPeriodic t, ObjWorkerPeriodic t' =>
      wp_parent t = wp_parent t' ∧ _task (wp_super t) = _task (wp_super t')
  | _, _ => False
  end.

Definition heap_le (h h' : list Obj) : Prop :=
  ∀ i a, h !! i = Some a → ∃ b, h' !! i = Some b ∧ same_kind a b.

(** The identifiers a worker tracks, in its two lists. *)
Definition tracked (W : DefaultWorker) : list Z := timeouts W ++ intervals W.

(** Object [o] holds timer identifier [i] in one of its members. *)
Definition obj_holds (o : Obj) (i : Z) : Prop :=
  match o with
  | ObjCallback d => callback d = Some (ThunkClearTimeout i)
  | ObjPeriodic p => initialId p = Some i ∨ periodId p = Some i
  | ObjWorkerTask t => wt_id t = Some i
  | ObjWorkerPeriodic t =>
      initialId (wp_super t) = Some i ∨ periodId (wp_super t) = Some i
  end.

(** Identifiers are used once.  Every identifier that is armed, tracked by
    a worker or held by an object was handed out by the host, hence lies in
    [1, n) for [n] the next identifier; a worker tracks an identifier at most
    once, no two workers track the same one, and a tracked identifier that is
    armed names a timer of that worker. *)
Record fresh (n : Z) (T : gmap Z Timer) (Ws : list DefaultWorker)
    (h : list Obj) : Prop := mkFresh {
  fr_next : 1 ≤ n;
  fr_timers : ∀ id t, T !! id = Some t → 1 ≤ id < n;
  fr_tracked : ∀ wr W id, Ws !! wr = Some W → id ∈ tracked W → 1 ≤ id < n;
  fr_nodup : ∀ wr W, Ws !! wr = Some W → NoDup (tracked W);
  fr_disjoint : ∀ wr wr' W W' id,
    Ws !! wr = Some W → Ws !! wr' = Some W' → wr ≠ wr' →
    id ∈ tracked W → id ∉ tracked W';
  fr_owner : ∀ wr W id t,
    Ws !! wr = Some W → id ∈ tracked W → T !! id = Some t → t_owner t = Some wr;
  fr_heap : ∀ o obj id, h !! o = Some obj → obj_holds obj id → 1 ≤ id < n
}.

Definition Fresh (w : World) : Prop :=
  fresh (next_id w) (timers w) (workers w) (heap w).


(** From [w] to [w'] the host has only handed out new identifiers: a timer
    armed in [w'] was armed in [w] or has an identifier that [w] had not
    handed out yet. *)
Definition grows (w w' : World) : Prop :=
  next_id w ≤ next_id w' ∧
  ∀ id, is_Some (timers w' !! id) → is_Some (timers w !! id) ∨ next_id w ≤ id.

(** What the library's own code leaves in the members of its handles
    between two operations: a [WorkerTask] knows its timer, a scheduler's
    [PeriodicTask] knows its initial timer, and a [WorkerPeriodicTask] does
    not. *)
Definition obj_ok (o : Obj) : Prop :=
  match o with
  | ObjCallback _ => True
  | ObjPeriodic p => is_Some (initialId p)
  | ObjWorkerTask t => is_Some (wt_id t)
  | ObjWorkerPeriodic t => initialId (wp_super t) = None
  end.

(** A worker with identifier [i] off its [timeouts], or off its
    [intervals]; the rest of each list stays, in order. *)
Definition without_timeout (i : Z) (W : DefaultWorker) : DefaultWorker :=
  mkWorker (shutdown W) (filter (λ j, j ≠ i) (timeouts W)) (intervals W).
Definition without_interval (i : Z) (W : DefaultWorker) : DefaultWorker :=
  mkWorker (shutdown W) (timeouts W) (filter (λ j, j ≠ i) (intervals W)).

(** The handles the library itself hands out, as opposed to a
    [CallbackDisposable] made by the caller around a function of its own. *)
Definition library_handle (o : Obj) : Prop :=
  match o with
  | ObjCallback d => ∀ c, callback d ≠ Some (ThunkPlain c)
  | _ => True
  end.
(** * Properties *)

(** ** Arrays *)

Section arrays.
Implicit Types (x y : Z) (l : list Z).

Lemma indexOf_ge_m1 x l : -1 ≤ indexOf x l.
Proof.
  induction l as [|y l IH]; simpl; [lia|].
  destruct (x =? y); [lia|]. destruct (indexOf x l <? 0) eqn:E; lia.
Qed.

Lemma indexOf_absent x l : x ∉ l → indexOf x l = -1.
Proof.
  induction l as [|y l IH]; simpl; [done|].
  intros [Hne Hl]%not_elem_of_cons.
  destruct (Z.eqb_spec x y); [done|].
  rewrite IH by done. done.
Qed.

Lemma indexOf_present x l : x ∈ l → 0 ≤ indexOf x l.
Proof.
  induction l as [|y l IH]; simpl; [by intros ?%elem_of_nil|].
  intros [->|Hl]%elem_of_cons.
  - by rewrite Z.eqb_refl.
  - destruct (x =? y); [lia|]. specialize (IH Hl).
    destruct (Z.ltb_spec (indexOf x l) 0); lia.
Qed.

(** [splice] at the index of [x] drops [x] and nothing else. *)
Lemma splice1_indexOf_keeps x y l :
  0 ≤ indexOf x l → y ∈ l → y ≠ x → y ∈ splice1 (indexOf x l) l.
Proof.
  unfold splice1. induction l as [|z l IH]; simpl; [done|].
  destruct (Z.eqb_spec x z) as [->|Hxz].
  - intros _ [->|Hl]%elem_of_cons Hne; [done|]. done.
  - destruct (Z.ltb_spec (indexOf x l) 0); [lia|]. intros _ Hy Hne.
    replace (Z.to_nat (indexOf x l + 1)) with (S (Z.to_nat (indexOf x l))) by lia.
    simpl. apply elem_of_cons in Hy as [->|Hl]; [left|right; by apply IH].
Qed.

Lemma indexOf_nil x : indexOf x [] = -1.
Proof. done. Qed.
End arrays.

(** ** Cancelling a list of timers *)

Lemma lookup_cancel_all l T i :
  cancel_all l T !! i = if decide (i ∈ l) then None else T !! i.
Proof.
  unfold cancel_all. revert T. induction l as [|x l IH]; intros T; cbn [foldl].
  - by rewrite decide_False by apply not_elem_of_nil.
  - rewrite IH. destruct (decide (i ∈ l)) as [Hin|Hnin].
    + rewrite decide_True; [done|by right].
    + destruct (decide (i = x)) as [->|Hne].
      * rewrite lookup_delete_eq, decide_True; [done|by left].
      * rewrite lookup_delete_ne by done.
        rewrite decide_False; [done|]. by intros [?|?]%elem_of_cons.
Qed.

Lemma timers_foldl_clear l w :
  timers (foldl (λ w it, clearTimeout (Some it) w) w l) = cancel_all l (timers w).
Proof. revert w. induction l as [|x l IH]; intros w; simpl; [done|]. by rewrite IH. Qed.

Lemma frame_foldl_clear l w :
  let w' := foldl (λ w it, clearTimeout (Some it) w) w l in
  now w' = now w ∧ next_id w' = next_id w ∧ heap w' = heap w ∧
  workers w' = workers w ∧ log w' = log w ∧ uncaught w' = uncaught w.
Proof.
  revert w. induction l as [|x l IH]; intros w; simpl; [done|].
  destruct (IH (clearTimeout (Some x) w)) as (?&?&?&?&?&?). simpl in *. done.
Qed.

(** ** What [shutdown] does to each part of the state *)

Section shutdown_frame.
Implicit Types (w : World) (wr : nat).

Lemma timers_shutdown wr W w :
  workers w !! wr = Some W →
  timers (DefaultWorker_shutdown wr w)
  = cancel_all (timeouts W) (cancel_all (intervals W) (timers w)).
Proof.
  intros HW. unfold DefaultWorker_shutdown. rewrite HW. simpl.
  unfold clearInterval. by rewrite !timers_foldl_clear.
Qed.

Lemma frame_shutdown wr w :
  now (DefaultWorker_shutdown wr w) = now w ∧
  heap (DefaultWorker_shutdown wr w) = heap w ∧
  log (DefaultWorker_shutdown wr w) = log w ∧
  uncaught (DefaultWorker_shutdown wr w) = uncaught w.
Proof.
  unfold DefaultWorker_shutdown.
  destruct (workers w !! wr) as [W|]; [|done]. simpl. unfold clearInterval.
  set (w1 := on_worker _ _ w).
  destruct (frame_foldl_clear (intervals W) w1) as (A1&_&A2&_&A3&A4).
  destruct (frame_foldl_clear (timeouts W)
              (foldl (λ w it, clearTimeout (Some it) w) w1 (intervals W)))
    as (B1&_&B2&_&B3&B4).
  simpl in *. by rewrite B1, B2, B3, B4, A1, A2, A3, A4.
Qed.

Lemma workers_shutdown wr W w :
  workers w !! wr = Some W →
  workers (DefaultWorker_shutdown wr w)
  = alter (λ W, mkWorker (shutdown W) [] []) wr
      (alter (λ W, mkWorker true (timeouts W) (intervals W)) wr (workers w)).
Proof.
  intros HW. unfold DefaultWorker_shutdown. rewrite HW. simpl.
  unfold clearInterval.
  set (w1 := on_worker _ _ w).
  destruct (frame_foldl_clear (intervals W) w1) as (_&_&_&E1&_).
  destruct (frame_foldl_clear (timeouts W)
              (foldl (λ w it, clearTimeout (Some it) w) w1 (intervals W)))
    as (_&_&_&E2&_).
  simpl in *. by rewrite E2, E1.
Qed.

Lemma worker_after_shutdown wr W w :
  workers w !! wr = Some W →
  workers (DefaultWorker_shutdown wr w) !! wr = Some (mkWorker true [] []).
Proof.
  intros HW. rewrite (workers_shutdown _ _ _ HW).
  by rewrite !list_lookup_alter_eq, HW.
Qed.

Lemma other_worker_after_shutdown wr wr' w :
  wr' ≠ wr →
  workers (DefaultWorker_shutdown wr w) !! wr' = workers w !! wr'.
Proof.
  intros Hne. destruct (workers w !! wr) as [W|] eqn:HW.
  - rewrite (workers_shutdown _ _ _ HW). by rewrite !list_lookup_alter_ne.
  - unfold DefaultWorker_shutdown. by rewrite HW.
Qed.

Lemma exists_worker wr w :
  (wr < length (workers w))%nat → ∃ W, workers w !! wr = Some W.
Proof. intros H. by apply lookup_lt_is_Some_2. Qed.

Lemma Shut_after_shutdown wr w :
  (wr < length (workers w))%nat → Shut wr (DefaultWorker_shutdown wr w).
Proof. intros [W HW]%exists_worker. by eapply worker_after_shutdown. Qed.

(** On a worker that is shut down with empty lists, [shutdown] changes
    nothing. *)
Lemma shutdown_again wr w : Shut wr w → DefaultWorker_shutdown wr w = w.
Proof.
  unfold Shut, DefaultWorker_shutdown. intros HS. rewrite HS. simpl.
  destruct w as [n i T h Ws l u]. unfold on_worker, with_workers. simpl in *.
  f_equal. apply list_eq. intros j.
  destruct (decide (j = wr)) as [->|Hne].
  - by rewrite !list_lookup_alter_eq, HS.
  - by rewrite !list_lookup_alter_ne.
Qed.
End shutdown_frame.

(** ** The bookkeeping invariant, on tables *)

Section invariant.
Implicit Types (T : gmap Z Timer) (Ws : list DefaultWorker) (W : DefaultWorker).

Lemma inv_init : inv ∅ [].
Proof. split; intros *; by rewrite ?lookup_empty. Qed.

Lemma inv_delete i T Ws : inv T Ws → inv (delete i T) Ws.
Proof.
  intros [H1 H2]. split.
  - intros id t wr [_ Hl]%lookup_delete_Some. by eapply H1.
  - intros id t wr task o opts [_ Hl]%lookup_delete_Some. by eapply H2.
Qed.

Lemma inv_cancel_all l T Ws : inv T Ws → inv (cancel_all l T) Ws.
Proof.
  unfold cancel_all. revert T.
  induction l as [|x l IH]; intros T HI; simpl; [done|].
  by apply IH, inv_delete.
Qed.

(** A timer armed by the scheduler. *)
Lemma inv_insert_unowned i t T Ws :
  t_owner t = None → (∀ wr task o opts, t_cb t ≠ CbWorkerInitial wr task o opts) →
  inv T Ws → inv (<[i:=t]> T) Ws.
Proof.
  intros Ho Hcb [H1 H2]. split.
  - intros id t' wr [[-> ->]|[_ Hl]]%lookup_insert_Some Hown;
      [congruence|by eapply H1].
  - intros id t' wr task o opts [[-> ->]|[_ Hl]]%lookup_insert_Some Hc;
      [by apply Hcb in Hc|by eapply H2].
Qed.

(** A repeating timer put back after it fired. *)
Lemma inv_rearm i t t' T Ws :
  T !! i = Some t → t_cb t' = t_cb t → t_owner t' = t_owner t →
  inv T Ws → inv (<[i:=t']> T) Ws.
Proof.
  intros Hi Hcb Ho [H1 H2]. split.
  - intros id t0 wr [[-> ->]|[_ Hl]]%lookup_insert_Some Hown.
    + rewrite Ho in Hown. by eapply H1.
    + by eapply H1.
  - intros id t0 wr task o opts [[-> ->]|[_ Hl]]%lookup_insert_Some Hc.
    + rewrite Hcb in Hc. rewrite Ho. by eapply H2.
    + by eapply H2.
Qed.

(** A timer armed on behalf of a worker and pushed on one of its lists.  An
    initial timer is armed for a live worker only. *)
Lemma inv_insert_owned (f : DefaultWorker → DefaultWorker) i t wr W T Ws :
  Ws !! wr = Some W →
  t_owner t = Some wr →
  (∀ wr' task o opts, t_cb t = CbWorkerInitial wr' task o opts →
     wr' = wr ∧ shutdown W = false) →
  shutdown (f W) = shutdown W →
  (∀ x, x ∈ timeouts W → x ∈ timeouts (f W)) →
  (∀ x, x ∈ intervals W → x ∈ intervals (f W)) →
  (i ∈ timeouts (f W) ∨ i ∈ intervals (f W)) →
  inv T Ws → inv (<[i:=t]> T) (alter f wr Ws).
Proof.
  intros HW Ho Hcb Hf Ht Hi Hin [H1 H2].
  assert (∀ wr' W', Ws !! wr' = Some W' →
            ∃ W'', alter f wr Ws !! wr' = Some W'' ∧ shutdown W'' = shutdown W' ∧
                   (∀ x, x ∈ timeouts W' → x ∈ timeouts W'') ∧
                   (∀ x, x ∈ intervals W' → x ∈ intervals W'')) as Hkeep.
  { intros wr' W' HW'. destruct (decide (wr' = wr)) as [->|Hne].
    - assert (W' = W) as -> by congruence.
      exists (f W). by rewrite list_lookup_alter_eq, HW.
    - exists W'. by rewrite list_lookup_alter_ne. }
  split.
  - intros id t' wr' [[-> ->]|[_ Hl]]%lookup_insert_Some Hown.
    + assert (wr' = wr) as -> by congruence.
      exists (f W). by rewrite list_lookup_alter_eq, HW.
    + destruct (H1 _ _ _ Hl Hown) as (W' & HW' & Hm).
      destruct (Hkeep _ _ HW') as (W'' & HW'' & _ & Ht' & Hi').
      exists W''. split; [done|]. destruct Hm; [left|right]; auto.
  - intros id t' wr' task o opts [[-> ->]|[_ Hl]]%lookup_insert_Some Hc.
    + destruct (Hcb _ _ _ _ Hc) as [-> Hlive]. split; [done|].
      exists (f W). rewrite list_lookup_alter_eq, HW. split; [done|congruence].
    + destruct (H2 _ _ _ _ _ _ Hl Hc) as (Hown & W' & HW' & Hlive).
      split; [done|].
      destruct (Hkeep _ _ HW') as (W'' & HW'' & Hs & _).
      exists W''. split; [done|congruence].
Qed.

Lemma inv_new_worker T Ws : inv T Ws → inv T (Ws ++ [mkWorker false [] []]).
Proof.
  intros [H1 H2]. split.
  - intros id t wr Hl Hown. destruct (H1 _ _ _ Hl Hown) as (W & HW & ?).
    exists W. split; [|done]. by apply lookup_app_l_Some.
  - intros id t wr task o opts Hl Hc.
    destruct (H2 _ _ _ _ _ _ Hl Hc) as (Hown & W & HW & Hlive).
    split; [done|]. exists W. split; [|done]. by apply lookup_app_l_Some.
Qed.

(** De-registering identifiers that are not armed. *)
Lemma inv_deregister (f : DefaultWorker → DefaultWorker) wr T Ws :
  (∀ W, shutdown (f W) = shutdown W) →
  (∀ W x, Ws !! wr = Some W → is_Some (T !! x) → x ∈ timeouts W → x ∈ timeouts (f W)) →
  (∀ W x, Ws !! wr = Some W → is_Some (T !! x) → x ∈ intervals W → x ∈ intervals (f W)) →
  inv T Ws → inv T (alter f wr Ws).
Proof.
  intros Hs Ht Hi [H1 H2]. split.
  - intros id t wr' Hl Hown.
    destruct (H1 _ _ _ Hl Hown) as (W & HW & Hm).
    destruct (decide (wr' = wr)) as [->|Hne].
    + exists (f W). rewrite list_lookup_alter_eq, HW. split; [done|].
      destruct Hm; [left|right]; eauto.
    + exists W. by rewrite list_lookup_alter_ne.
  - intros id t wr' task o opts Hl Hc.
    destruct (H2 _ _ _ _ _ _ Hl Hc) as (Hown & W & HW & Hlive).
    split; [done|]. destruct (decide (wr' = wr)) as [->|Hne].
    + exists (f W). rewrite list_lookup_alter_eq, HW. split; [done|].
      by rewrite Hs.
    + exists W. by rewrite list_lookup_alter_ne.
Qed.
End invariant.

(** ** Every library call keeps the invariant *)

Section preservation.
Implicit Types (w : World) (wr o : nat).

Lemma Inv_clearTimeout id w : Inv w → Inv (clearTimeout id w).
Proof. destruct id; [apply inv_delete|done]. Qed.

Lemma timers_removeTimeout wr id w :
  timers (DefaultWorker_removeTimeout wr id w) = timers w.
Proof.
  unfold DefaultWorker_removeTimeout.
  destruct (workers w !! wr), id; try done.
  destruct (truthy _); [|done]. by destruct (0 <=? _).
Qed.

Lemma timers_removeInterval wr id w :
  timers (DefaultWorker_removeInterval wr id w) = timers w.
Proof.
  unfold DefaultWorker_removeInterval.
  destruct (workers w !! wr), id; try done.
  destruct (truthy _); [|done]. by destruct (0 <=? _).
Qed.

Lemma Inv_removeTimeout wr id w :
  (∀ i, id = Some i → timers w !! i = None) →
  Inv w → Inv (DefaultWorker_removeTimeout wr id w).
Proof.
  intros Hgone HI. unfold DefaultWorker_removeTimeout.
  destruct (workers w !! wr) as [W|] eqn:HW; [|done].
  destruct id as [i|]; [|done].
  destruct (truthy _); [|done].
  destruct (Z.leb_spec 0 (indexOf i (timeouts W))) as [Hidx|]; [|done].
  unfold Inv; simpl. apply inv_deregister; try done.
  intros W' x HW' [t Hx] Hin. simpl.
  assert (W' = W) as -> by congruence.
  apply splice1_indexOf_keeps; [done..|].
  intros ->. rewrite (Hgone i) in Hx; done.
Qed.

Lemma Inv_removeInterval wr id w :
  (∀ i, id = Some i → timers w !! i = None) →
  Inv w → Inv (DefaultWorker_removeInterval wr id w).
Proof.
  intros Hgone HI. unfold DefaultWorker_removeInterval.
  destruct (workers w !! wr) as [W|] eqn:HW; [|done].
  destruct id as [i|]; [|done].
  destruct (truthy _); [|done].
  destruct (Z.leb_spec 0 (indexOf i (intervals W))) as [Hidx|]; [|done].
  unfold Inv; simpl. apply inv_deregister; try done.
  intros W' x HW' [t Hx] Hin. simpl.
  assert (W' = W) as -> by congruence.
  apply splice1_indexOf_keeps; [done..|].
  intros ->. rewrite (Hgone i) in Hx; done.
Qed.

Lemma cleared_gone id w i : id = Some i → timers (clearTimeout id w) !! i = None.
Proof. intros ->. simpl. apply lookup_delete_eq. Qed.

Lemma Inv_PeriodicTask_dispose p w : Inv w → Inv (PeriodicTask_dispose p w).
Proof.
  intros HI. unfold PeriodicTask_dispose.
  repeat destruct (truthy _); unfold clearInterval;
    repeat apply Inv_clearTimeout; done.
Qed.

Lemma Inv_WorkerTask_dispose t w : Inv w → Inv (WorkerTask_dispose t w).
Proof.
  intros HI. unfold WorkerTask_dispose.
  apply Inv_removeTimeout; [apply cleared_gone|by apply Inv_clearTimeout].
Qed.

Lemma Inv_WorkerPeriodicTask_dispose t w :
  Inv w → Inv (WorkerPeriodicTask_dispose t w).
Proof.
  intros HI. unfold WorkerPeriodicTask_dispose.
  set (w1 := if truthy _ then _ else w).
  assert (Inv w1) as HI1.
  { subst w1. destruct (truthy _); [|done].
    apply Inv_removeTimeout; [apply cleared_gone|by apply Inv_clearTimeout]. }
  destruct (not_null _); [|done].
  apply Inv_removeInterval; [apply cleared_gone|by apply Inv_clearTimeout].
Qed.

Lemma Inv_Disposable_dispose o w : Inv w → Inv (Disposable_dispose o w).2.
Proof.
  intros HI. unfold Disposable_dispose.
  destruct (heap w !! o) as [[d|p|t|t]|]; simpl; [| | | |done].
  - unfold CallbackDisposable_dispose.
    destruct (callback d) as [[|i|r]|]; simpl; try done.
    by apply inv_delete.
  - by apply Inv_PeriodicTask_dispose.
  - by apply Inv_WorkerTask_dispose.
  - by apply Inv_WorkerPeriodicTask_dispose.
Qed.

Lemma Inv_DefaultWorker_schedule wr task delay w :
  Inv w → Inv (DefaultWorker_schedule wr task delay w).2.
Proof.
  intros HI. unfold DefaultWorker_schedule.
  destruct (workers w !! wr) as [W|] eqn:HW; [|done].
  destruct (shutdown W) eqn:Hs; [done|].
  unfold Inv; simpl.
  eapply inv_insert_owned; try done; simpl.
  - intros x Hx. apply elem_of_app. by left.
  - left. apply elem_of_app. right. by left.
Qed.

Lemma Inv_DefaultWorker_schedulePeriodically wr task options w :
  Inv w → Inv (DefaultWorker_schedulePeriodically wr task options w).2.
Proof.
  intros HI. unfold DefaultWorker_schedulePeriodically.
  destruct (workers w !! wr) as [W|] eqn:HW; [|done].
  destruct (shutdown W) eqn:Hs; [done|].
  unfold Inv; simpl.
  eapply inv_insert_owned; try done; simpl.
  - by intros wr' task' o opts [= -> _ _ _].
  - intros x Hx. apply elem_of_app. by left.
  - left. apply elem_of_app. right. by left.
Qed.

(** [shutdown] cancels every armed timer of the worker, the initial timers
    of its periodic tasks among them. *)
Lemma Inv_shutdown wr w : Inv w → Inv (DefaultWorker_shutdown wr w).
Proof.
  intros HI. destruct (workers w !! wr) as [W|] eqn:HW;
    [|unfold DefaultWorker_shutdown; by rewrite HW].
  destruct HI as [H1 H2].
  assert (∀ id t wr', timers (DefaultWorker_shutdown wr w) !! id = Some t →
            t_owner t = Some wr' → timers w !! id = Some t ∧ wr' ≠ wr) as Hleft.
  { intros id t wr' Hl Hown.
    rewrite (timers_shutdown _ _ _ HW), !lookup_cancel_all in Hl.
    destruct (decide (id ∈ timeouts W)) as [|Hnt]; [done|].
    destruct (decide (id ∈ intervals W)) as [|Hni]; [done|].
    split; [done|]. intros ->.
    destruct (H1 _ _ _ Hl Hown) as (W' & HW' & Hm).
    assert (W' = W) as -> by congruence. tauto. }
  split.
  - intros id t wr' Hl Hown.
    destruct (Hleft _ _ _ Hl Hown) as [Hl' Hne].
    destruct (H1 _ _ _ Hl' Hown) as (W' & HW' & Hm).
    exists W'. by rewrite other_worker_after_shutdown.
  - intros id t wr' task o opts Hl Hc.
    assert (timers w !! id = Some t) as Hl'.
    { rewrite (timers_shutdown _ _ _ HW), !lookup_cancel_all in Hl.
      by repeat destruct (decide _). }
    destruct (H2 _ _ _ _ _ _ Hl' Hc) as (Hown & W' & HW' & Hlive).
    split; [done|]. destruct (Hleft _ _ _ Hl Hown) as [_ Hne].
    exists W'. by rewrite other_worker_after_shutdown.
Qed.

Lemma Inv_exec_action a w : Inv w → Inv (exec_action a w).2.
Proof.
  intros HI. destruct a; simpl.
  - unfold Inv; simpl. by apply inv_insert_unowned.
  - unfold Inv; simpl. by apply inv_insert_unowned.
  - unfold Inv; simpl. by apply inv_new_worker.
  - by apply Inv_DefaultWorker_schedule.
  - by apply Inv_DefaultWorker_schedulePeriodically.
  - by apply Inv_shutdown.
  - by apply Inv_Disposable_dispose.
  - done.
Qed.
End preservation.

(** ** Through a task's own library calls *)

(** A property of the state that the clock does not affect and that every
    library call keeps is kept by a task's call. *)
Section through_call.
Variable P : World → Prop.
Hypothesis P_now : ∀ f w, P w → P (with_now f w).
Hypothesis P_action : ∀ a w, P w → P (exec_action a w).2.

Lemma run_body_preserves acts w : P w → P (run_body acts w).2.
Proof.
  revert w. induction acts as [|a acts IH]; intros w HP; simpl; [done|].
  pose proof (P_action a w HP) as HP1.
  destruct (exec_action a w) as [[|e] w1]; simpl in *; [by apply IH|done].
Qed.

Lemma call_preserves r via w :
  P (with_log (λ l, l ++ [mkEntry (now w) (r_name r) via]) w) →
  P (call r via w).2.
Proof.
  intros HP. unfold call.
  pose proof (run_body_preserves (r_body r) _ HP) as HP1.
  destruct (run_body _ _) as [out w1]. simpl in *. by apply P_now.
Qed.
End through_call.

Lemma Inv_call r via w : Inv w → Inv (call r via w).2.
Proof. intros HI. apply call_preserves; try done. apply Inv_exec_action. Qed.

(** ** Properties of one worker that no operation undoes *)

Section worker_property.
Variable Q : DefaultWorker → Prop.
Hypothesis Q_lists : ∀ W t i, Q W → Q (mkWorker (shutdown W) t i).
Hypothesis Q_shut : ∀ W t i, Q W → Q (mkWorker true t i).
Implicit Types (w : World) (wr o : nat).

Lemma sat_on_worker (f : DefaultWorker → DefaultWorker) wr wr' w :
  (∀ W, Q W → Q (f W)) → worker_sat Q wr w → worker_sat Q wr (on_worker wr' f w).
Proof.
  intros Hf (W & HW & HQ). unfold worker_sat; simpl.
  destruct (decide (wr = wr')) as [->|Hne].
  - exists (f W). rewrite list_lookup_alter_eq, HW. split; [done|auto].
  - exists W. by rewrite list_lookup_alter_ne.
Qed.

Lemma sat_same_workers wr w w' :
  workers w' = workers w → worker_sat Q wr w → worker_sat Q wr w'.
Proof. unfold worker_sat. by intros ->. Qed.

Lemma sat_removeTimeout wr wr' id w :
  worker_sat Q wr w → worker_sat Q wr (DefaultWorker_removeTimeout wr' id w).
Proof.
  intros HS. unfold DefaultWorker_removeTimeout.
  destruct (workers w !! wr') as [W|]; [|done].
  destruct id as [i|]; [|done]. destruct (truthy _); [|done].
  destruct (0 <=? _); [|done]. apply sat_on_worker; [|done].
  intros W' HQ. by apply Q_lists.
Qed.

Lemma sat_removeInterval wr wr' id w :
  worker_sat Q wr w → worker_sat Q wr (DefaultWorker_removeInterval wr' id w).
Proof.
  intros HS. unfold DefaultWorker_removeInterval.
  destruct (workers w !! wr') as [W|]; [|done].
  destruct id as [i|]; [|done]. destruct (truthy _); [|done].
  destruct (0 <=? _); [|done]. apply sat_on_worker; [|done].
  intros W' HQ. by apply Q_lists.
Qed.

Lemma sat_clearTimeout wr id w :
  worker_sat Q wr w → worker_sat Q wr (clearTimeout id w).
Proof. by destruct id. Qed.

Lemma sat_Disposable_dispose wr o w :
  worker_sat Q wr w → worker_sat Q wr (Disposable_dispose o w).2.
Proof.
  intros HS. unfold Disposable_dispose.
  destruct (heap w !! o) as [[d|p|t|t]|]; simpl; [| | | |done].
  - unfold CallbackDisposable_dispose.
    by destruct (callback d) as [[|i|r]|].
  - unfold PeriodicTask_dispose, clearInterval.
    repeat destruct (truthy _); repeat apply sat_clearTimeout; done.
  - by apply sat_removeTimeout, sat_clearTimeout.
  - unfold WorkerPeriodicTask_dispose, clearInterval.
    destruct (truthy _), (not_null _);
      repeat first [apply sat_removeInterval | apply sat_removeTimeout
                   | apply sat_clearTimeout]; done.
Qed.

Lemma sat_shutdown wr wr' w :
  worker_sat Q wr w → worker_sat Q wr (DefaultWorker_shutdown wr' w).
Proof.
  intros (W & HW & HQ). unfold worker_sat.
  destruct (decide (wr = wr')) as [->|Hne].
  - rewrite (worker_after_shutdown _ _ _ HW). eexists. split; [done|].
    by apply (Q_shut W).
  - rewrite other_worker_after_shutdown by done. by exists W.
Qed.

Lemma sat_exec_action wr a w :
  worker_sat Q wr w → worker_sat Q wr (exec_action a w).2.
Proof.
  intros HS. destruct a; simpl; try done.
  - destruct HS as (W & HW & HQ). exists W. split; [|done].
    simpl. by apply lookup_app_l_Some.
  - unfold DefaultWorker_schedule.
    destruct (workers w !! wr0) as [W|]; [|done]. destruct (shutdown W); [done|].
    simpl. apply (sat_on_worker (push_timeout _) wr wr0); [|done].
    intros W' HQ. by apply Q_lists.
  - unfold DefaultWorker_schedulePeriodically.
    destruct (workers w !! wr0) as [W|]; [|done]. destruct (shutdown W); [done|].
    simpl. apply (sat_on_worker (push_timeout _) wr wr0); [|done].
    intros W' HQ. by apply Q_lists.
  - by apply sat_shutdown.
  - by apply sat_Disposable_dispose.
Qed.

Lemma sat_call wr r via w : worker_sat Q wr w → worker_sat Q wr (call r via w).2.
Proof.
  intros HS. apply (call_preserves (worker_sat Q wr)); try done.
  intros a w'. apply sat_exec_action.
Qed.

Lemma sat_fire wr id w : worker_sat Q wr w → worker_sat Q wr (fire id w).2.
Proof.
  intros HS. unfold fire.
  destruct (timers w !! id) as [t|]; [|done].
  destruct (t_due t <=? now w); [|done].
  set (w1 := match t_repeat t with None => _ | Some _ => _ end).
  assert (worker_sat Q wr w1) as HS1 by (subst w1; by destruct (t_repeat t)).
  clearbody w1.
  destruct (t_cb t) as [task|task p opts| | |wr' task o opts|]; simpl; try done.
  - by apply sat_call.
  - pose proof (sat_call wr task None w1 HS1) as HC.
    by destruct (call task None w1) as [[|e] w2].
  - pose proof (sat_call wr task (Some wr') w1 HS1) as HC.
    destruct (call task (Some wr') w1) as [[|e] w2]; simpl in *; [|done].
    apply (sat_on_worker (push_interval _) wr wr'); [|done].
    intros W' HQ. by apply Q_lists.
Qed.

Lemma sat_exec wr op w : worker_sat Q wr w → worker_sat Q wr (exec op w).
Proof.
  intros HS. destruct op; simpl; [done| |by apply sat_exec_action].
  pose proof (sat_fire wr id w HS). by destruct (fire id w) as [[|e] w1].
Qed.

Lemma sat_run wr ops w : worker_sat Q wr w → worker_sat Q wr (run ops w).
Proof.
  revert w. induction ops as [|op ops IH]; intros w HS; [done|].
  apply IH. by apply sat_exec.
Qed.
End worker_property.

(** Once set, the flag of a worker stays set. *)
Lemma is_shut_run wr ops w : is_shut wr w → is_shut wr (run ops w).
Proof. apply sat_run; by intros. Qed.

Lemma is_shut_exec_action wr a w : is_shut wr w → is_shut wr (exec_action a w).2.
Proof. apply sat_exec_action; by intros. Qed.

(** Workers do not go away. *)
Lemma has_worker_call wr r via w :
  is_Some (workers w !! wr) → is_Some (workers (call r via w).2 !! wr).
Proof.
  intros [W HW].
  destruct (sat_call (λ _, True) (λ _ _ _ _, I) (λ _ _ _ _, I) wr r via w) as (W' & HW' & _);
    [by exists W|by exists W'].
Qed.

(** A worker whose flag is set rejects. *)
Lemma is_shut_rejects wr task delay options w :
  is_shut wr w →
  DefaultWorker_schedule wr task delay w = (REJECTED, w) ∧
  DefaultWorker_schedulePeriodically wr task options w = (REJECTED, w).
Proof.
  intros (W & HW & Hs).
  unfold DefaultWorker_schedule, DefaultWorker_schedulePeriodically.
  by rewrite HW, Hs.
Qed.

(** ** The host keeps the invariant *)

Section preservation_host.
Implicit Types (w : World) (wr : nat).

Lemma Inv_run_callback t id w :
  timers w !! id = Some t → Inv w →
  ∀ w1, timers w1 = delete id (timers w)
        ∨ (∃ t', timers w1 = <[id:=t']> (timers w) ∧ t_cb t' = t_cb t ∧ t_owner t' = t_owner t) →
        workers w1 = workers w →
        Inv (run_callback (t_cb t) w1).2.
Proof.
  intros Ht HI w1 HT HWs.
  assert (Inv w1) as HI1.
  { unfold Inv. rewrite HWs. destruct HT as [->|(t' & -> & ? & ?)].
    - by apply inv_delete.
    - by eapply inv_rearm. }
  destruct (t_cb t) as [task|task p opts| | |wr task o opts|] eqn:Hcb; simpl; try done.
  - by apply Inv_call.
  - pose proof (Inv_call task None w1 HI1) as HC.
    destruct (call task None w1) as [[|e] w2]; simpl in *; [|done].
    unfold Inv; simpl. by apply inv_insert_unowned.
  - pose proof (Inv_call task (Some wr) w1 HI1) as HC.
    destruct (inv_initial _ _ HI _ _ _ _ _ _ Ht Hcb) as (_ & W & HW & _).
    assert (is_Some (workers (call task (Some wr) w1).2 !! wr)) as [W2 HW2].
    { apply has_worker_call. rewrite HWs. by exists W. }
    destruct (call task (Some wr) w1) as [[|e] w2]; simpl in *; [|done].
    unfold Inv; simpl.
    eapply inv_insert_owned; try done; simpl.
    + intros x Hx. apply elem_of_app. by left.
    + right. apply elem_of_app. right. by left.
Qed.

Lemma Inv_fire id w : Inv w → Inv (fire id w).2.
Proof.
  intros HI. unfold fire.
  destruct (timers w !! id) as [t|] eqn:Ht; [|done].
  destruct (t_due t <=? now w); [|done].
  apply (Inv_run_callback t id w Ht HI).
  - destruct (t_repeat t); simpl; [right; by eexists|by left].
  - by destruct (t_repeat t).
Qed.

Lemma Inv_exec op w : Inv w → Inv (exec op w).
Proof.
  intros HI. destruct op; simpl; [done| |by apply Inv_exec_action].
  pose proof (Inv_fire id w HI) as HF.
  by destruct (fire id w) as [[|e] w1].
Qed.

Lemma run_app ops1 ops2 w : run (ops1 ++ ops2) w = run ops2 (run ops1 w).
Proof. apply foldl_app. Qed.

Lemma Inv_run ops w : Inv w → Inv (run ops w).
Proof.
  revert w. induction ops as [|op ops IH]; intros w HI; [done|].
  apply IH. by apply Inv_exec.
Qed.

(** The invariant holds in every state reachable from the initial one. *)
Lemma Inv_reachable ops : Inv (run ops init).
Proof. apply Inv_run. apply inv_init. Qed.
End preservation_host.

(** ** What runs on behalf of a worker *)

Section executions.
Implicit Types (w : World) (wr o : nat).

Lemma log_clearTimeout id w : log (clearTimeout id w) = log w.
Proof. by destruct id. Qed.

Lemma log_removeTimeout wr id w : log (DefaultWorker_removeTimeout wr id w) = log w.
Proof.
  unfold DefaultWorker_removeTimeout.
  destruct (workers w !! wr), id; try done.
  destruct (truthy _); [|done]. by destruct (0 <=? _).
Qed.

Lemma log_removeInterval wr id w : log (DefaultWorker_removeInterval wr id w) = log w.
Proof.
  unfold DefaultWorker_removeInterval.
  destruct (workers w !! wr), id; try done.
  destruct (truthy _); [|done]. by destruct (0 <=? _).
Qed.

Lemma via_worker_snoc_other wr l e :
  e_via e ≠ Some wr → via_worker wr (l ++ [e]) = via_worker wr l.
Proof.
  intros Hne. unfold via_worker. rewrite filter_app.
  rewrite (filter_cons_False _ e []) by done. by rewrite filter_nil, app_nil_r.
Qed.

Lemma via_Disposable_dispose wr o w :
  via_worker wr (log (Disposable_dispose o w).2) = via_worker wr (log w).
Proof.
  unfold Disposable_dispose.
  destruct (heap w !! o) as [[d|p|t|t]|]; simpl; [| | | |done].
  - unfold CallbackDisposable_dispose.
    destruct (callback d) as [[|i|r]|]; simpl; [done|done| |done].
    by apply via_worker_snoc_other.
  - unfold PeriodicTask_dispose, clearInterval.
    repeat destruct (truthy _); by rewrite ?log_clearTimeout.
  - unfold WorkerTask_dispose. by rewrite log_removeTimeout, log_clearTimeout.
  - unfold WorkerPeriodicTask_dispose, clearInterval.
    destruct (truthy _), (not_null _);
      by rewrite ?log_removeInterval, ?log_clearTimeout, ?log_removeTimeout,
           ?log_clearTimeout.
Qed.

(** No library call runs a task. *)
Lemma via_exec_action wr a w :
  via_worker wr (log (exec_action a w).2) = via_worker wr (log w).
Proof.
  destruct a; simpl; try done.
  - unfold DefaultWorker_schedule.
    destruct (workers w !! wr0) as [W|]; [|done]. by destruct (shutdown W).
  - unfold DefaultWorker_schedulePeriodically.
    destruct (workers w !! wr0) as [W|]; [|done]. by destruct (shutdown W).
  - by destruct (frame_shutdown wr0 w) as (_ & _ & -> & _).
  - apply via_Disposable_dispose.
Qed.

Lemma via_call_other wr r via w :
  via ≠ Some wr → via_worker wr (log (call r via w).2) = via_worker wr (log w).
Proof.
  intros Hne.
  apply (call_preserves (λ w', via_worker wr (log w') = via_worker wr (log w))).
  - done.
  - intros a w' <-. apply via_exec_action.
  - simpl. by apply via_worker_snoc_other.
Qed.

(** Once the flag of a worker is set, no timer that fires runs a task on
    its behalf. *)
Lemma via_fire wr id w :
  Inv w → is_shut wr w →
  via_worker wr (log (fire id w).2) = via_worker wr (log w).
Proof.
  intros HI (W & HW & Hs). unfold fire.
  destruct (timers w !! id) as [t|] eqn:Ht; [|done].
  destruct (t_due t <=? now w); [|done].
  set (w1 := match t_repeat t with None => _ | Some _ => _ end).
  assert (log w1 = log w) as <- by (subst w1; by destruct (t_repeat t)).
  clearbody w1.
  destruct (t_cb t) as [task|task p opts| | |wr' task o opts|] eqn:Hcb; simpl;
    try done.
  - by apply via_call_other.
  - pose proof (via_call_other wr task None w1) as HC.
    destruct (call task None w1) as [[|e] w2]; simpl in *; by apply HC.
  - destruct (inv_initial _ _ HI _ _ _ _ _ _ Ht Hcb) as (_ & W' & HW' & Hlive).
    assert (Some wr' ≠ Some wr) as Hne by (intros [= ->]; congruence).
    pose proof (via_call_other wr task (Some wr') w1 Hne) as HC.
    by destruct (call task (Some wr') w1) as [[|e] w2].
Qed.

Lemma via_exec wr op w :
  Inv w → is_shut wr w →
  via_worker wr (log (exec op w)) = via_worker wr (log w).
Proof.
  intros HI HS. destruct op; simpl; [done| |apply via_exec_action].
  pose proof (via_fire wr id w HI HS). by destruct (fire id w) as [[|e] w1].
Qed.

Lemma via_run wr ops w :
  Inv w → is_shut wr w →
  via_worker wr (log (run ops w)) = via_worker wr (log w).
Proof.
  revert w. induction ops as [|op ops IH]; intros w HI HS; [done|].
  simpl. rewrite IH.
  - by apply via_exec.
  - by apply Inv_exec.
  - by apply (is_shut_run wr [op]).
Qed.
End executions.

(** ** After [shutdown] called between two host events *)

Section shut.
Implicit Types (w : World) (wr o : nat).

Lemma Shut_removeTimeout wr wr' id w :
  Shut wr w → DefaultWorker_removeTimeout wr' id w = w ∨
              (wr' ≠ wr ∧ Shut wr (DefaultWorker_removeTimeout wr' id w)).
Proof.
  unfold Shut, DefaultWorker_removeTimeout. intros HS.
  destruct (workers w !! wr') as [W|] eqn:HW; [|by left].
  destruct id as [i|]; [|by left]. destruct (truthy _); [|by left].
  destruct (decide (wr' = wr)) as [->|Hne].
  - assert (W = mkWorker true [] []) as -> by congruence. by left.
  - destruct (0 <=? _); [|by left]. right. simpl.
    by rewrite list_lookup_alter_ne.
Qed.

Lemma Shut_removeTimeout' wr wr' id w :
  Shut wr w → Shut wr (DefaultWorker_removeTimeout wr' id w).
Proof.
  intros HS. by destruct (Shut_removeTimeout wr wr' id w HS) as [->|[_ ?]].
Qed.

Lemma Shut_removeInterval' wr wr' id w :
  Shut wr w → Shut wr (DefaultWorker_removeInterval wr' id w).
Proof.
  unfold Shut, DefaultWorker_removeInterval. intros HS.
  destruct (workers w !! wr') as [W|] eqn:HW; [|done].
  destruct id as [i|]; [|done]. destruct (truthy _); [|done].
  destruct (decide (wr' = wr)) as [->|Hne].
  - assert (W = mkWorker true [] []) as -> by congruence. done.
  - destruct (0 <=? _); [|done]. simpl. by rewrite list_lookup_alter_ne.
Qed.

Lemma Shut_clearTimeout wr id w : Shut wr w → Shut wr (clearTimeout id w).
Proof. by destruct id. Qed.

(** Disposing any handle leaves a shut-down worker as it is. *)
Lemma Shut_Disposable_dispose wr o w :
  Shut wr w → Shut wr (Disposable_dispose o w).2.
Proof.
  intros HS. unfold Disposable_dispose.
  destruct (heap w !! o) as [[d|p|t|t]|]; simpl; [| | | |done].
  - unfold CallbackDisposable_dispose.
    destruct (callback d) as [[|i|r]|]; simpl; [done|done|exact HS|done].
  - unfold PeriodicTask_dispose, clearInterval.
    repeat destruct (truthy _); repeat apply Shut_clearTimeout; exact HS.
  - unfold WorkerTask_dispose.
    by apply Shut_removeTimeout', Shut_clearTimeout.
  - unfold WorkerPeriodicTask_dispose, clearInterval.
    destruct (truthy _), (not_null _);
      repeat first [apply Shut_removeInterval' | apply Shut_removeTimeout'
                   | apply Shut_clearTimeout]; exact HS.
Qed.

Lemma Shut_is_shut wr w : Shut wr w → is_shut wr w.
Proof. intros HS. by eexists. Qed.

(** Disposing never arms a timer. *)
Lemma timers_sub_trans w1 w2 w3 :
  timers_sub w1 w2 → timers_sub w2 w3 → timers_sub w1 w3.
Proof. intros H12 H23 id t Hl. by apply H23, H12. Qed.

Lemma timers_sub_same w' w : timers w' = timers w → timers_sub w' w.
Proof. intros E id t. by rewrite E. Qed.

Lemma timers_sub_clearTimeout id w : timers_sub (clearTimeout id w) w.
Proof.
  destruct id as [i|]; [|by intros ??]. intros id t. simpl.
  by intros [_ ?]%lookup_delete_Some.
Qed.

Lemma timers_sub_removeTimeout wr id w w0 :
  timers_sub w w0 → timers_sub (DefaultWorker_removeTimeout wr id w) w0.
Proof.
  apply timers_sub_trans, timers_sub_same, timers_removeTimeout.
Qed.

Lemma timers_sub_removeInterval wr id w w0 :
  timers_sub w w0 → timers_sub (DefaultWorker_removeInterval wr id w) w0.
Proof.
  apply timers_sub_trans, timers_sub_same, timers_removeInterval.
Qed.

Lemma timers_sub_clear id w w0 :
  timers_sub w w0 → timers_sub (clearTimeout id w) w0.
Proof. apply timers_sub_trans, timers_sub_clearTimeout. Qed.

Lemma timers_sub_refl w : timers_sub w w.
Proof. by intros ??. Qed.

Lemma timers_Disposable_dispose o w : timers_sub (Disposable_dispose o w).2 w.
Proof.
  unfold Disposable_dispose.
  destruct (heap w !! o) as [[d|p|t'|t']|]; simpl; [| | | |apply timers_sub_refl].
  - unfold CallbackDisposable_dispose.
    destruct (callback d) as [[|i|r]|]; simpl;
      [apply timers_sub_refl|apply (timers_sub_clearTimeout (Some i))
      |by apply timers_sub_same|apply timers_sub_refl].
  - unfold PeriodicTask_dispose, clearInterval.
    repeat destruct (truthy _); repeat apply timers_sub_clear;
      apply timers_sub_refl.
  - unfold WorkerTask_dispose.
    apply timers_sub_removeTimeout, timers_sub_clearTimeout.
  - unfold WorkerPeriodicTask_dispose, clearInterval.
    destruct (truthy _), (not_null _);
      repeat first [apply timers_sub_removeInterval | apply timers_sub_removeTimeout
                   | apply timers_sub_clear]; apply timers_sub_refl.
Qed.

Lemma timers_shutdown_sub wr w id t :
  timers (DefaultWorker_shutdown wr w) !! id = Some t → timers w !! id = Some t.
Proof.
  destruct (workers w !! wr) as [W|] eqn:HW;
    [|unfold DefaultWorker_shutdown; by rewrite HW].
  rewrite (timers_shutdown _ _ _ HW), !lookup_cancel_all.
  by repeat destruct (decide _).
Qed.

Lemma no_timer_of_insert wr w w' i t :
  timers w' = <[i:=t]> (timers w) → t_owner t ≠ Some wr →
  no_timer_of wr w → no_timer_of wr w'.
Proof.
  intros E Hne HN id t'. rewrite E.
  intros [[_ <-]|[_ Hl]]%lookup_insert_Some; [done|by eapply HN].
Qed.

Lemma no_timer_of_sub wr w w' :
  timers_sub w' w → no_timer_of wr w → no_timer_of wr w'.
Proof. intros Hsub HN id t Hl%Hsub. by eapply HN. Qed.

Lemma Quiet_exec_action wr a w : Quiet wr w → Quiet wr (exec_action a w).2.
Proof.
  intros [HS HN]. destruct a; simpl.
  - split; [done|]. by eapply no_timer_of_insert.
  - split; [done|]. by eapply no_timer_of_insert.
  - split; [|done]. unfold Shut; simpl. by apply lookup_app_l_Some.
  - destruct (decide (wr0 = wr)) as [->|Hne].
    + by rewrite (proj1 (is_shut_rejects wr task delay (mkOptions None None) w
                          (Shut_is_shut _ _ HS))).
    + unfold DefaultWorker_schedule.
      destruct (workers w !! wr0) as [W|]; [|done]. destruct (shutdown W); [done|].
      split; [unfold Shut; simpl; by rewrite list_lookup_alter_ne|].
      eapply no_timer_of_insert; [done| |done]. simpl. congruence.
  - destruct (decide (wr0 = wr)) as [->|Hne].
    + by rewrite (proj2 (is_shut_rejects wr task None options w
                          (Shut_is_shut _ _ HS))).
    + unfold DefaultWorker_schedulePeriodically.
      destruct (workers w !! wr0) as [W|]; [|done]. destruct (shutdown W); [done|].
      split; [unfold Shut; simpl; by rewrite list_lookup_alter_ne|].
      eapply no_timer_of_insert; [done| |done]. simpl. congruence.
  - split.
    + unfold Shut. destruct (decide (wr0 = wr)) as [->|Hne].
      * by erewrite worker_after_shutdown.
      * by rewrite other_worker_after_shutdown.
    + eapply no_timer_of_sub; [|done]. intros id t. apply timers_shutdown_sub.
  - split; [by apply Shut_Disposable_dispose|].
    eapply no_timer_of_sub; [apply timers_Disposable_dispose|done].
  - done.
Qed.

Lemma Quiet_call wr r via w : Quiet wr w → Quiet wr (call r via w).2.
Proof.
  intros HQ. apply (call_preserves (Quiet wr)); try done.
  intros a w'. apply Quiet_exec_action.
Qed.

Lemma Quiet_fire wr id w : Inv w → Quiet wr w → Quiet wr (fire id w).2.
Proof.
  intros HI HQ. unfold fire.
  destruct (timers w !! id) as [t|] eqn:Ht; [|done].
  destruct (t_due t <=? now w); [|done].
  set (w1 := match t_repeat t with None => _ | Some _ => _ end).
  assert (Quiet wr w1) as HQ1.
  { destruct HQ as [HS HN]. subst w1. destruct (t_repeat t); (split; [done|]).
    - eapply no_timer_of_insert; [done| |done]. simpl. by eapply HN.
    - eapply no_timer_of_sub; [|done]. intros id' t'. simpl.
      by intros [_ ?]%lookup_delete_Some. }
  clearbody w1.
  destruct (t_cb t) as [task|task p opts| | |wr' task o opts|] eqn:Hcb; simpl;
    try done.
  - by apply Quiet_call.
  - pose proof (Quiet_call wr task None w1 HQ1) as [HS HN].
    destruct (call task None w1) as [[|e] w2]; simpl in *; [|done].
    split; [done|]. by eapply no_timer_of_insert.
  - destruct (inv_initial _ _ HI _ _ _ _ _ _ Ht Hcb) as (Hown & _).
    assert (wr' ≠ wr) as Hne.
    { intros ->. by eapply (proj2 HQ). }
    pose proof (Quiet_call wr task (Some wr') w1 HQ1) as [HS HN].
    destruct (call task (Some wr') w1) as [[|e] w2]; simpl in *; [|done].
    split; [unfold Shut; simpl; by rewrite list_lookup_alter_ne|].
    eapply no_timer_of_insert; [done| |done]. simpl. congruence.
Qed.

Lemma Quiet_exec wr op w : Inv w → Quiet wr w → Quiet wr (exec op w).
Proof.
  intros HI HQ. destruct op; simpl; [done| |by apply Quiet_exec_action].
  pose proof (Quiet_fire wr id w HI HQ). by destruct (fire id w) as [[|e] w1].
Qed.

Lemma Quiet_run wr ops w : Inv w → Quiet wr w → Quiet wr (run ops w).
Proof.
  revert w. induction ops as [|op ops IH]; intros w HI HQ; [done|].
  apply IH; [by apply Inv_exec|by apply Quiet_exec].
Qed.

(** [shutdown] leaves the worker quiet: every timer it had armed was in its
    lists. *)
Lemma Quiet_after_shutdown wr w :
  Inv w → (wr < length (workers w))%nat → Quiet wr (DefaultWorker_shutdown wr w).
Proof.
  intros HI Hwr. split; [by apply Shut_after_shutdown|].
  destruct (exists_worker _ _ Hwr) as [W HW].
  intros id t Hl Hown.
  rewrite (timers_shutdown _ _ _ HW), !lookup_cancel_all in Hl.
  destruct (decide (id ∈ timeouts W)) as [|Hnt]; [done|].
  destruct (decide (id ∈ intervals W)) as [|Hni]; [done|].
  destruct (inv_tracked _ _ HI _ _ _ Hl Hown) as (W' & HW' & Hm).
  assert (W' = W) as -> by congruence. tauto.
Qed.

Lemma run_snoc_shutdown ops0 wr ops :
  run ops (DefaultWorker_shutdown wr (run ops0 init))
  = run (ops0 ++ Do (WorkerShutdown wr) :: ops) init.
Proof. by rewrite run_app. Qed.
End shut.

(** ** Handles keep their class *)

Section heap.
Implicit Types (h : list Obj) (w : World).

Lemma same_kind_refl a : same_kind a a.
Proof. by destruct a. Qed.

Lemma same_kind_trans a b c : same_kind a b → same_kind b c → same_kind a c.
Proof.
  destruct a, b, c; simpl; try done; try congruence.
  - intros [-> ->] [-> ->]. done.
  - intros [-> ->] [-> ->]. done.
Qed.

Lemma heap_le_refl h : heap_le h h.
Proof. intros i a Hi. exists a. split; [done|apply same_kind_refl]. Qed.

Lemma heap_le_trans h1 h2 h3 : heap_le h1 h2 → heap_le h2 h3 → heap_le h1 h3.
Proof.
  intros H12 H23 i a Hi. destruct (H12 _ _ Hi) as (b & Hb & Hab).
  destruct (H23 _ _ Hb) as (c & Hc & Hbc). exists c.
  split; [done|by eapply same_kind_trans].
Qed.

Lemma heap_le_app h l : heap_le h (h ++ l).
Proof.
  intros i a Hi. exists a. split; [by apply lookup_app_l_Some|apply same_kind_refl].
Qed.

Lemma heap_le_alter (f : Obj → Obj) j h :
  (∀ o, same_kind o (f o)) → heap_le h (alter f j h).
Proof.
  intros Hf i a Hi. destruct (decide (i = j)) as [->|Hne].
  - exists (f a). by rewrite list_lookup_alter_eq, Hi.
  - exists a. rewrite list_lookup_alter_ne by done. split; [done|apply same_kind_refl].
Qed.

Lemma heap_le_alloc_alter (f : Obj → Obj) j h l :
  (∀ o, same_kind o (f o)) → heap_le h (alter f j (h ++ l)).
Proof.
  intros Hf. eapply heap_le_trans; [apply heap_le_app|by apply heap_le_alter].
Qed.

Lemma same_kind_set_id i o : same_kind o (set_id i o).
Proof. by destruct o. Qed.
Lemma same_kind_set_initialId i o : same_kind o (set_initialId i o).
Proof. by destruct o. Qed.
Lemma same_kind_set_periodId i o : same_kind o (set_periodId i o).
Proof. by destruct o. Qed.

Lemma heap_removeTimeout wr id w : heap (DefaultWorker_removeTimeout wr id w) = heap w.
Proof.
  unfold DefaultWorker_removeTimeout.
  destruct (workers w !! wr), id; try done.
  destruct (truthy _); [|done]. by destruct (0 <=? _).
Qed.

Lemma heap_removeInterval wr id w : heap (DefaultWorker_removeInterval wr id w) = heap w.
Proof.
  unfold DefaultWorker_removeInterval.
  destruct (workers w !! wr), id; try done.
  destruct (truthy _); [|done]. by destruct (0 <=? _).
Qed.

Lemma heap_clearTimeout id w : heap (clearTimeout id w) = heap w.
Proof. by destruct id. Qed.

(** Nothing in [dispose] assigns to [#callback], or to any other object. *)
Lemma CallbackDisposable_dispose_heap d w :
  heap (CallbackDisposable_dispose d w).2 = heap w.
Proof.
  unfold CallbackDisposable_dispose. by destruct (callback d) as [[|i|r]|].
Qed.

Lemma heap_Disposable_dispose o w : heap (Disposable_dispose o w).2 = heap w.
Proof.
  unfold Disposable_dispose.
  destruct (heap w !! o) as [[d|p|t|t]|]; simpl; [| | | |done].
  - apply CallbackDisposable_dispose_heap.
  - unfold PeriodicTask_dispose, clearInterval.
    repeat destruct (truthy _); by rewrite ?heap_clearTimeout.
  - unfold WorkerTask_dispose. by rewrite heap_removeTimeout, heap_clearTimeout.
  - unfold WorkerPeriodicTask_dispose, clearInterval.
    destruct (truthy _), (not_null _);
      by rewrite ?heap_removeInterval, ?heap_clearTimeout, ?heap_removeTimeout,
           ?heap_clearTimeout.
Qed.

Lemma heap_le_exec_action a w : heap_le (heap w) (heap (exec_action a w).2).
Proof.
  destruct a; simpl; try apply heap_le_refl.
  - apply heap_le_app.
  - apply heap_le_alloc_alter, same_kind_set_initialId.
  - unfold DefaultWorker_schedule.
    destruct (workers w !! wr) as [W|]; [|apply heap_le_refl].
    destruct (shutdown W); [apply heap_le_refl|]. simpl.
    apply heap_le_alloc_alter, same_kind_set_id.
  - unfold DefaultWorker_schedulePeriodically.
    destruct (workers w !! wr) as [W|]; [|apply heap_le_refl].
    destruct (shutdown W); [apply heap_le_refl|]. simpl. apply heap_le_app.
  - destruct (frame_shutdown wr w) as (_ & -> & _). apply heap_le_refl.
  - rewrite heap_Disposable_dispose. apply heap_le_refl.
  - apply heap_le_app.
Qed.

Lemma heap_le_call r via w : heap_le (heap w) (heap (call r via w).2).
Proof.
  apply (call_preserves (λ w', heap_le (heap w) (heap w'))).
  - done.
  - intros a w' H. eapply heap_le_trans; [done|apply heap_le_exec_action].
  - apply heap_le_refl.
Qed.

Lemma heap_le_fire id w : heap_le (heap w) (heap (fire id w).2).
Proof.
  unfold fire. destruct (timers w !! id) as [t|]; [|apply heap_le_refl].
  destruct (t_due t <=? now w); [|apply heap_le_refl].
  set (w1 := match t_repeat t with None => _ | Some _ => _ end).
  assert (heap w1 = heap w) as <- by (subst w1; by destruct (t_repeat t)).
  clearbody w1.
  destruct (t_cb t) as [task|task p opts| | |wr task o opts|]; simpl;
    try apply heap_le_refl.
  - apply heap_le_call.
  - pose proof (heap_le_call task None w1) as HC.
    destruct (call task None w1) as [[|e] w2]; simpl in *; [|done].
    eapply heap_le_trans; [done|]. apply heap_le_alter, same_kind_set_periodId.
  - pose proof (heap_le_call task (Some wr) w1) as HC.
    destruct (call task (Some wr) w1) as [[|e] w2]; simpl in *; [|done].
    eapply heap_le_trans; [done|]. apply heap_le_alter, same_kind_set_periodId.
Qed.

Lemma heap_le_exec op w : heap_le (heap w) (heap (exec op w)).
Proof.
  destruct op; simpl; [apply heap_le_refl| |apply heap_le_exec_action].
  pose proof (heap_le_fire id w). by destruct (fire id w) as [[|e] w1].
Qed.

Lemma heap_le_run ops w : heap_le (heap w) (heap (run ops w)).
Proof.
  revert w. induction ops as [|op ops IH]; intros w; [apply heap_le_refl|].
  eapply heap_le_trans; [apply heap_le_exec|apply IH].
Qed.

(** The rejected sentinel is the same no-op disposable in every state. *)
Lemma REJECTED_is_noop ops :
  heap (run ops init) !! REJECTED
  = Some (ObjCallback (mkCallbackDisposable (Some ThunkNoop))).
Proof.
  destruct (heap_le_run ops init REJECTED _ eq_refl) as (b & Hb & Hk).
  rewrite Hb. destruct b; simpl in Hk; try done. by subst.
Qed.

Lemma DefaultWorker_schedule_handle wr task delay w :
  handle_of wr (DefaultWorker_schedule wr task delay w).2
    (DefaultWorker_schedule wr task delay w).1.
Proof.
  unfold DefaultWorker_schedule.
  destruct (workers w !! wr) as [W|]; [|by left].
  destruct (shutdown W); [by left|]. right; left. simpl.
  eexists. rewrite list_lookup_alter_eq, lookup_app_r by done.
  rewrite Nat.sub_diag. simpl. done.
Qed.

Lemma DefaultWorker_schedulePeriodically_handle wr task options w :
  handle_of wr (DefaultWorker_schedulePeriodically wr task options w).2
    (DefaultWorker_schedulePeriodically wr task options w).1.
Proof.
  unfold DefaultWorker_schedulePeriodically.
  destruct (workers w !! wr) as [W|]; [|by left].
  destruct (shutdown W); [by left|]. right; right. simpl.
  eexists. rewrite lookup_app_r by done.
  rewrite Nat.sub_diag. simpl. done.
Qed.

(** A handle stays a handle of the same worker. *)
Lemma handle_of_run wr ops w o : handle_of wr w o → handle_of wr (run ops w) o.
Proof.
  intros [->|[(t & Ht & Hp)|(t & Ht & Hp)]]; [by left| |].
  - destruct (heap_le_run ops w _ _ Ht) as (b & Hb & Hk).
    destruct b as [|?|t'|]; simpl in Hk; try done. destruct Hk as [Hk _].
    right; left. exists t'. split; [done|congruence].
  - destruct (heap_le_run ops w _ _ Ht) as (b & Hb & Hk).
    destruct b as [|?| |t']; simpl in Hk; try done. destruct Hk as [Hk _].
    right; right. exists t'. split; [done|congruence].
Qed.
End heap.

(** * The claims *)

(** ** CallbackDisposable.dispose *)

(** Each call of [dispose] on a disposable that holds a closure calls it. *)
Lemma CallbackDisposable_dispose_calls c w :
  let d := mkCallbackDisposable (Some (ThunkPlain c)) in
  calls (p_name c) (log (CallbackDisposable_dispose d w).2)
  = S (calls (p_name c) (log w)).
Proof.
  simpl. unfold calls. rewrite filter_app, length_app.
  rewrite filter_cons_True by done. simpl. lia.
Qed.

(** C1 (the claim fails on the code).  The claim: calling [dispose] N >= 1
    times has the effect of calling it once, because the reference to the
    closure is cleared by the first call.  The code: [dispose] is
    [this.#callback?.()] and never clears the reference, so for a disposable
    built over a closure, created at heap index 1, the object is the same
    after one and after two disposals, the closure has run once after the
    first call and twice after the second. *)
Theorem C1_dispose_calls_closure_again :
  let c := mkPlain 3 0 (λ _, false) in
  let w0 := run [Do (NewCallbackDisposable c)] init in
  let w1 := run [Do (Dispose 1%nat)] w0 in
  let w2 := run [Do (Dispose 1%nat)] w1 in
  heap w0 !! 1%nat = Some (ObjCallback (mkCallbackDisposable (Some (ThunkPlain c)))) ∧
  heap w1 !! 1%nat = heap w0 !! 1%nat ∧
  heap w2 !! 1%nat = heap w0 !! 1%nat ∧
  calls 3 (log w1) = 1%nat ∧
  calls 3 (log w2) = 2%nat.
Proof. vm_compute. done. Qed.

(** ** Methods handed to the host without their receiver *)

(** What the three [run] methods do when the host calls them: none of them
    calls the caller's closure, cancels a timer or touches a worker. *)
Lemma run_methods_from_host w :
  WorkerTask_run HostObject w = (Throw TypeError, w) ∧
  PeriodicTask_run HostObject w = (Throw TypeError, w) ∧
  WorkerPeriodicTask_run HostObject w = (Normal, w).
Proof. done. Qed.

(** The same method called on its own object does what its text says: the
    task runs, and afterwards the identifier leaves the worker's list,
    whether the task returned or raised.  (Stated for a task that makes no
    library call of its own.) *)
Lemma WorkerTask_run_on_instance o t i W w :
  heap w !! o = Some (ObjWorkerTask t) →
  wt_id t = Some i → i ≠ 0 → r_body (wt_task t) = [] →
  workers w !! wt_parent t = Some W → i ∈ timeouts W →
  let r := WorkerTask_run (Instance o) w in
  r.1 = (if r_throws (wt_task t) (calls (r_name (wt_task t)) (log w))
         then Throw (UserError (r_name (wt_task t))) else Normal) ∧
  log r.2 = log w ++ [mkEntry (now w) (r_name (wt_task t)) (Some (wt_parent t))] ∧
  workers r.2 !! wt_parent t
    = Some (mkWorker (shutdown W) (splice1 (indexOf i (timeouts W)) (timeouts W))
              (intervals W)).
Proof.
  intros Ho Hid Hnz Hb HW Hin. simpl. unfold WorkerTask_run. rewrite Ho.
  unfold call. rewrite Hb. simpl. rewrite Ho.
  unfold DefaultWorker_removeTimeout. simpl. rewrite HW, Hid. simpl.
  destruct (Z.eqb_spec i 0); [done|]. simpl.
  pose proof (indexOf_present _ _ Hin) as Hidx.
  destruct (Z.leb_spec 0 (indexOf i (timeouts W))); [|lia]. simpl.
  split; [done|]. split; [done|]. by rewrite list_lookup_alter_eq, HW.
Qed.

(** For every live worker and every task: once [schedule] has armed the
    timer and the delay has passed, the firing ends in a [TypeError]; the
    task has not run, and the identifier is still in [#timeouts] while the
    timer is gone. *)
Lemma fired_worker_task wr W task delay w :
  workers w !! wr = Some W → shutdown W = false →
  let id := next_id w in
  let w1 := run [Tick (default 0 delay)] (DefaultWorker_schedule wr task delay w).2 in
  (fire id w1).1 = Throw TypeError ∧
  log (fire id w1).2 = log w ∧
  timers (fire id w1).2 !! id = None ∧
  workers (fire id w1).2 !! wr = Some (push_timeout id W).
Proof.
  intros HW Hlive. simpl. unfold DefaultWorker_schedule. rewrite HW, Hlive.
  unfold fire. simpl. rewrite lookup_insert_eq. simpl.
  destruct (Z.leb_spec (now w + Z.max 0 (default 0 delay))
              (now w + Z.max 0 (default 0 delay))) as [_|]; [|lia].
  simpl. rewrite lookup_delete_eq, list_lookup_alter_eq, HW. done.
Qed.

(** C8 (the claim fails on the code).  The claim: when the timer of a
    worker's one-shot task fires, [WorkerTask.run] runs the closure and then
    removes the identifier from the worker's list.  The code: line 66 hands
    [workerTask.run] to [setTimeout] without its receiver, so when timer 1
    fires, [this.#task] raises: the closure has not run, a [TypeError]
    reached the host, and identifier 1 is still in the list although the
    timer is gone. *)
Theorem C8_fired_worker_task_neither_runs_nor_deregisters :
  let w := run [Do CreateWorker; Do (WorkerSchedule 0%nat (returns 7) (Some 0));
                Fire 1] init in
  log w = [] ∧
  uncaught w = [TypeError] ∧
  timers w !! 1 = None ∧
  workers w !! 0%nat = Some (mkWorker false [1] []).
Proof. vm_compute. done. Qed.

(** ** Periodic tasks *)

(** The arrow functions of the two [schedulePeriodically] methods call
    [task()] outside any [try]: what the task raises leaves the function,
    which does nothing more. *)
Lemma initial_firing_propagates task p opts wr via e w w1 :
  call task via w = (Throw e, w1) →
  (via = None → run_callback (CbSchedulerInitial task p opts) w = (Throw e, w1)) ∧
  (via = Some wr → run_callback (CbWorkerInitial wr task p opts) w = (Throw e, w1)).
Proof. intros Hc. split; intros ->; simpl; by rewrite Hc. Qed.

(** C3 (the claim fails on the code).  The claim: an error raised by the
    closure of a periodic task in any firing, the initial one included, is
    caught by this layer and swallowed.  The code: a closure that raises at
    the initial firing (timer 1, at time 10) is not caught, for the
    scheduler and for a worker alike; the error reaches the host.  The task
    does stop: no timer is left. *)
Theorem C3_initial_error_reaches_host :
  let opts := mkOptions (Some 10) (Some 50) in
  let ws := run [Do (SchedulePeriodically (raises 7) opts); Tick 10; Fire 1] init in
  let ww := run [Do CreateWorker; Do (WorkerSchedulePeriodically 0%nat (raises 7) opts);
                 Tick 10; Fire 1] init in
  uncaught ws = [UserError 7] ∧ timers ws = ∅ ∧
  uncaught ww = [UserError 7] ∧ timers ww = ∅.
Proof. vm_compute. done. Qed.

(** C4 (the claim fails on the code).  The claim: a worker's two lists hold
    exactly the identifiers of its armed timers, and after a firing of a
    periodic task raises they hold no identifier of that task.  The code:
    nothing removes the identifier of the initial timer of a periodic task
    when that timer fires.  After the initial firing raised ([wt]), and
    after it returned ([wn]), identifier 1 is in [#timeouts] and timer 1 is
    not armed. *)
Theorem C4_tracked_not_exact :
  let opts := mkOptions (Some 0) (Some 10) in
  let wt := run [Do CreateWorker; Do (WorkerSchedulePeriodically 0%nat (raises 7) opts);
                 Fire 1] init in
  let wn := run [Do CreateWorker; Do (WorkerSchedulePeriodically 0%nat (returns 7) opts);
                 Fire 1] init in
  (timers wt !! 1 = None ∧ workers wt !! 0%nat = Some (mkWorker false [1] []) ∧
   uncaught wt = [UserError 7]) ∧
  (timers wn !! 1 = None ∧ workers wn !! 0%nat = Some (mkWorker false [1] [2]) ∧
   is_Some (timers wn !! 2)).
Proof. vm_compute. repeat split; eauto. Qed.

(** C5 (the claim fails on the code).  The claim: the Nth firing of a
    periodic task happens at [d + (N-1)*p] after the schedule time,
    whatever the firings cost.  The code, for [d = 10], [p = 50] and a
    closure that takes 7 units and never raises: the closure runs at 10;
    the recurring timer is armed only after that run, so it is first due at
    67, not 60; and when it fires (at 67, at 117) the host calls
    [periodicTask.run] without its receiver, a [TypeError] reaches the host
    and the closure does not run.  The closure has run once.  With a closure
    that takes no time ([z]) the timer fires at 10, 60 and 110, and the
    closure still runs at 10 only.  Through a worker ([zw]) it is the same,
    but for the error: [workerTask.run] called without its receiver returns
    silently. *)
Theorem C5_only_the_initial_firing_runs :
  let task := mkRunnable 7 7 (λ _, false) [] in
  let opts := mkOptions (Some 10) (Some 50) in
  let w1 := run [Do (SchedulePeriodically task opts); Tick 10; Fire 1] init in
  let w2 := run [Tick 43; Fire 2] w1 in
  let w3 := run [Tick 7; Fire 2; Tick 50; Fire 2] w2 in
  let z := run [Do (SchedulePeriodically (returns 7) opts); Tick 10; Fire 1;
                Tick 50; Fire 2; Tick 50; Fire 2] init in
  let zw := run [Do CreateWorker;
                 Do (WorkerSchedulePeriodically 0%nat (returns 7) opts);
                 Tick 10; Fire 1; Tick 50; Fire 2; Tick 50; Fire 2] init in
  log w1 = [mkEntry 10 7 None] ∧
  t_due <$> timers w1 !! 2 = Some 67 ∧
  (now w2 = 60 ∧ log w2 = log w1 ∧ uncaught w2 = []) ∧
  (now w3 = 117 ∧ log w3 = log w1 ∧ uncaught w3 = [TypeError; TypeError]) ∧
  (now z = 110 ∧ log z = [mkEntry 10 7 None] ∧ uncaught z = [TypeError; TypeError]) ∧
  (now zw = 110 ∧ log zw = [mkEntry 10 7 (Some 0%nat)] ∧ uncaught zw = [] ∧
   t_due <$> timers zw !! 2 = Some 160).
Proof. vm_compute. done. Qed.

(** For every live worker, task and options: on the handle that
    [schedulePeriodically] has just returned, [dispose] does nothing. *)
Lemma pending_worker_handle_dispose wr W task options w :
  workers w !! wr = Some W → shutdown W = false →
  let r := DefaultWorker_schedulePeriodically wr task options w in
  Disposable_dispose r.1 r.2 = (Normal, r.2) ∧ is_Some (timers r.2 !! next_id w).
Proof.
  intros HW Hlive. simpl. unfold DefaultWorker_schedulePeriodically.
  rewrite HW, Hlive. simpl. split.
  - unfold Disposable_dispose. simpl.
    rewrite lookup_app_r by done. by rewrite Nat.sub_diag.
  - rewrite lookup_insert_eq. by eexists.
Qed.

(** C6 (the claim fails on the code).  The claim: the handle returned by
    [schedulePeriodically] cancels the initial timer when it is disposed
    before the first firing.  The code, for a worker: line 80 keeps the
    identifier in a local constant and never stores it in
    [workerTask.initialId], so [dispose] on the handle (heap index 1) finds
    both identifiers absent: timer 1 stays armed and the closure runs at
    time 10.  The other three cases do what the claim says: the scheduler's
    handle cancels its initial timer ([s1]) and its recurring timer ([s2]),
    and the worker's handle cancels the recurring timer ([r2]). *)
Theorem C6_worker_handle_does_not_cancel_pending :
  let opts := mkOptions (Some 10) (Some 50) in
  let w0 := run [Do CreateWorker;
                 Do (WorkerSchedulePeriodically 0%nat (returns 7) opts)] init in
  let w1 := run [Do (Dispose 1%nat)] w0 in
  let w2 := run [Tick 10; Fire 1] w1 in
  let s1 := run [Do (SchedulePeriodically (returns 7) opts); Do (Dispose 1%nat)] init in
  let s2 := run [Do (SchedulePeriodically (returns 7) opts); Tick 10; Fire 1;
                 Do (Dispose 1%nat)] init in
  let r2 := run [Tick 10; Fire 1; Do (Dispose 1%nat)] w0 in
  (DefaultWorker_schedulePeriodically 0%nat (returns 7) opts
     (run [Do CreateWorker] init)).1 = 1%nat ∧
  w1 = w0 ∧ is_Some (timers w1 !! 1) ∧
  log w2 = [mkEntry 10 7 (Some 0%nat)] ∧
  timers s1 = ∅ ∧ timers s2 = ∅ ∧
  (timers r2 = ∅ ∧ workers r2 !! 0%nat = Some (mkWorker false [1] [])).
Proof. vm_compute. repeat split; eauto. Qed.

(** ** Worker shutdown *)

(** Once the flag of a worker is set, by [shutdown()] called between two
    host events or from inside a task, the worker rejects, in every later
    state. *)
Lemma rejected_once_flag_set ops0 wr ops task delay options :
  is_shut wr (run ops0 init) →
  let w := run ops (run ops0 init) in
  DefaultWorker_schedule wr task delay w = (REJECTED, w) ∧
  DefaultWorker_schedulePeriodically wr task options w = (REJECTED, w).
Proof. intros HS w. by apply is_shut_rejects, is_shut_run. Qed.

(** And nothing runs any more on its behalf. *)
Lemma nothing_runs_once_flag_set ops0 wr ops :
  is_shut wr (run ops0 init) →
  via_worker wr (log (run ops (run ops0 init)))
  = via_worker wr (log (run ops0 init)).
Proof. intros HS. apply via_run; [apply Inv_reachable|done]. Qed.

(** C2.  On a worker on which [shutdown()] has been called, whatever
    happened before and whatever happens in between, [schedule] and
    [schedulePeriodically] return the rejected sentinel and leave the whole
    state as it was: no timer is armed, the worker is untouched, and the
    closure is stored nowhere, so that whatever happens later happens as if
    the call had not been made.  The sentinel is the no-op disposable created
    when the module was loaded. *)
Theorem C2_rejected_after_shutdown ops0 wr ops task delay options :
  (wr < length (workers (run ops0 init)))%nat →
  let w := run ops (DefaultWorker_shutdown wr (run ops0 init)) in
  DefaultWorker_schedule wr task delay w = (REJECTED, w) ∧
  DefaultWorker_schedulePeriodically wr task options w = (REJECTED, w) ∧
  (∀ later, run later (DefaultWorker_schedule wr task delay w).2 = run later w) ∧
  (∀ later, run later (DefaultWorker_schedulePeriodically wr task options w).2
            = run later w) ∧
  heap w !! REJECTED = Some (ObjCallback (mkCallbackDisposable (Some ThunkNoop))) ∧
  Disposable_dispose REJECTED w = (Normal, w).
Proof.
  intros Hwr w.
  assert (is_shut wr w) as HS.
  { apply is_shut_run, Shut_is_shut. by apply Shut_after_shutdown. }
  destruct (is_shut_rejects wr task delay options w HS) as [H1 H2].
  assert (heap w !! REJECTED
          = Some (ObjCallback (mkCallbackDisposable (Some ThunkNoop)))) as HR.
  { subst w. rewrite run_snoc_shutdown. apply REJECTED_is_noop. }
  split; [done|]. split; [done|].
  split; [intros later; by rewrite H1|]. split; [intros later; by rewrite H2|].
  split; [done|]. unfold Disposable_dispose. by rewrite HR.
Qed.

Lemma C2_rejected_after_shutdown_witness :
  let ops0 := [Do CreateWorker; Do (WorkerSchedule 0%nat (returns 1) (Some 5))] in
  let ops := [Tick 5; Fire 1] in
  let w := run ops (DefaultWorker_shutdown 0%nat (run ops0 init)) in
  (0 < length (workers (run ops0 init)))%nat ∧
  DefaultWorker_schedule 0%nat (returns 2) (Some 3) w = (REJECTED, w) ∧
  DefaultWorker_schedulePeriodically 0%nat (returns 2) (mkOptions None (Some 4)) w
    = (REJECTED, w) ∧
  (∀ later, run later (DefaultWorker_schedule 0%nat (returns 2) (Some 3) w).2
            = run later w) ∧
  (∀ later, run later (DefaultWorker_schedulePeriodically 0%nat (returns 2)
                         (mkOptions None (Some 4)) w).2
            = run later w) ∧
  heap w !! REJECTED = Some (ObjCallback (mkCallbackDisposable (Some ThunkNoop))) ∧
  Disposable_dispose REJECTED w = (Normal, w).
Proof.
  intros ops0 ops w. split; [vm_compute; lia|].
  apply (C2_rejected_after_shutdown ops0 0%nat ops (returns 2) (Some 3)
           (mkOptions None (Some 4))).
  vm_compute. lia.
Defined.

(** In any state whatsoever, reachable or in the middle of a task:
    [shutdown()] leaves the worker with its flag set and two empty lists,
    cancels exactly the timers of the two lists, and changes nothing when
    called a second time. *)
Lemma shutdown_anywhere wr W w :
  workers w !! wr = Some W →
  let w1 := DefaultWorker_shutdown wr w in
  workers w1 !! wr = Some (mkWorker true [] []) ∧
  (∀ id, timers w1 !! id
         = if decide (id ∈ timeouts W ∨ id ∈ intervals W) then None
           else timers w !! id) ∧
  DefaultWorker_shutdown wr w1 = w1.
Proof.
  intros HW w1.
  assert (Shut wr w1) as HS by (by eapply worker_after_shutdown).
  split; [done|]. split; [|by apply shutdown_again].
  intros id. subst w1. rewrite (timers_shutdown _ _ _ HW), !lookup_cancel_all.
  destruct (decide (id ∈ timeouts W)), (decide (id ∈ intervals W));
    case_decide; tauto.
Qed.

(** [shutdown()] called between two host events, in any state the program
    can reach: it sets the flag, leaves both lists empty, and cancels
    exactly the timers whose identifiers were in the two lists; a second
    [shutdown()], at once or later, changes nothing; and from then on,
    whatever happens, the worker stays so, no timer armed by this worker is
    armed and nothing that was scheduled through it runs. *)
Lemma shutdown_between_host_events ops0 wr W ops :
  let w := run ops0 init in
  workers w !! wr = Some W →
  let w1 := DefaultWorker_shutdown wr w in
  let w2 := run ops w1 in
  workers w1 !! wr = Some (mkWorker true [] []) ∧
  (∀ id, timers w1 !! id
         = if decide (id ∈ timeouts W ∨ id ∈ intervals W) then None
           else timers w !! id) ∧
  DefaultWorker_shutdown wr w1 = w1 ∧
  workers w2 !! wr = Some (mkWorker true [] []) ∧
  DefaultWorker_shutdown wr w2 = w2 ∧
  no_timer_of wr w2 ∧
  via_worker wr (log w2) = via_worker wr (log w).
Proof.
  intros w HW w1 w2.
  assert (wr < length (workers w))%nat as Hwr by (by eapply lookup_lt_Some).
  assert (Inv w1) as HI1 by apply Inv_shutdown, Inv_reachable.
  pose proof (Quiet_after_shutdown wr w (Inv_reachable ops0) Hwr) as HQ1.
  destruct (Quiet_run wr ops w1 HI1 HQ1) as [HS2 HN2].
  destruct (shutdown_anywhere wr W w HW) as (Ha & Hb & Hc).
  split; [done|]. split; [done|]. split; [done|]. split; [done|].
  split; [by apply shutdown_again|]. split; [done|].
  subst w2. rewrite via_run; [|done|by apply Shut_is_shut, HQ1].
  subst w1. by destruct (frame_shutdown wr w) as (_ & _ & -> & _).
Qed.

Lemma shutdown_between_host_events_witness :
  let five := [Do (WorkerSchedule 0%nat (returns 1) (Some 100));
               Do (WorkerSchedulePeriodically 0%nat (returns 2)
                     (mkOptions (Some 0) (Some 10)));
               Fire 2] in
  let w := run (Do CreateWorker :: five) init in
  let w1 := DefaultWorker_shutdown 0%nat w in
  let w2 := run [Tick 100; Fire 1; Fire 3; Do (Dispose 1%nat); Do (Dispose 2%nat)] w1 in
  workers w !! 0%nat = Some (mkWorker false [1; 2] [3]) ∧
  workers w1 !! 0%nat = Some (mkWorker true [] []) ∧
  (∀ id, timers w1 !! id
         = if decide (id ∈ [1; 2] ∨ id ∈ [3]) then None
           else timers w !! id) ∧
  DefaultWorker_shutdown 0%nat w1 = w1 ∧
  workers w2 !! 0%nat = Some (mkWorker true [] []) ∧
  DefaultWorker_shutdown 0%nat w2 = w2 ∧
  no_timer_of 0%nat w2 ∧
  via_worker 0%nat (log w2) = via_worker 0%nat (log w).
Proof.
  intros five w w1 w2.
  assert (workers w !! 0%nat = Some (mkWorker false [1; 2] [3])) as HW
    by (vm_compute; reflexivity).
  split; [exact HW|].
  exact (shutdown_between_host_events (Do CreateWorker :: five) 0%nat (mkWorker false [1; 2] [3])
           [Tick 100; Fire 1; Fire 3; Do (Dispose 1%nat); Do (Dispose 2%nat)] HW).
Defined.

(** C7 (the claim fails on the code).  The claim: [shutdown()] sets the
    flag, cancels every timer of the two lists and clears the lists, and a
    second call is a no-op because the lists are already empty.  The code:
    the arrow function of lines 80-88 arms the recurring timer and pushes
    its identifier without looking at [#shutdown].  A periodic task shuts
    its own worker down at its initial firing (timer 1).  When
    [shutdown()] has returned and the task ends, the worker is as the claim
    says: flag set, both lists empty, no timer armed.  The firing then goes
    on: after it the worker that was shut down has [#intervals] [[2]] and
    timer 2 is armed on its behalf.  The second [shutdown()] is not a
    no-op: it cancels timer 2 and empties [#intervals]. *)
Theorem C7_second_shutdown_changes_worker_shut_down_by_its_task :
  let opts := mkOptions (Some 0) (Some 10) in
  let w0 := run [Do CreateWorker;
                 Do (WorkerSchedulePeriodically 0%nat (shuts_down 7 0%nat) opts)] init in
  let wm := (call (shuts_down 7 0%nat) (Some 0%nat) (with_timers (delete 1) w0)).2 in
  let w1 := run [Fire 1] w0 in
  let w2 := DefaultWorker_shutdown 0%nat w1 in
  workers wm !! 0%nat = Some (mkWorker true [] []) ∧
  timers wm = ∅ ∧
  workers w1 !! 0%nat = Some (mkWorker true [] [2]) ∧
  timers w1 !! 2 = Some (mkTimer 10 (Some 10) CbWorkerPeriodicTask_run (Some 0%nat)) ∧
  w2 ≠ w1 ∧
  workers w2 !! 0%nat = Some (mkWorker true [] []) ∧
  timers w2 = ∅.
Proof.
  intros opts w0 wm w1 w2.
  assert (timers w1 !! 2
          = Some (mkTimer 10 (Some 10) CbWorkerPeriodicTask_run (Some 0%nat))) as H1
    by (vm_compute; reflexivity).
  assert (timers w2 = ∅) as H2 by (vm_compute; reflexivity).
  split; [vm_compute; reflexivity|]. split; [vm_compute; reflexivity|].
  split; [vm_compute; reflexivity|]. split; [exact H1|].
  split; [|split; [vm_compute; reflexivity|exact H2]].
  intros E. rewrite <-E, H2 in H1. by rewrite lookup_empty in H1.
Qed.

(** ** Identifier 0 *)

(** [removeInterval] leaves every worker's [#timeouts] alone. *)
Lemma timeouts_removeInterval wr id wr' w :
  timeouts <$> workers (DefaultWorker_removeInterval wr id w) !! wr'
  = timeouts <$> workers w !! wr'.
Proof.
  unfold DefaultWorker_removeInterval.
  destruct (workers w !! wr) as [W|] eqn:HW; [|done].
  destruct id as [i|]; [|done]. destruct (truthy _); [|done].
  destruct (0 <=? _); [|done]. simpl.
  destruct (decide (wr' = wr)) as [->|Hne].
  - rewrite list_lookup_alter_eq, HW. done.
  - by rewrite list_lookup_alter_ne.
Qed.

(** C9.  A timer identifier 0 is taken for an absent one.  [removeTimeout]
    and [removeInterval] called with 0, or with [undefined], change nothing
    at all, so a 0 that is in the list stays there.  [dispose] on a
    [WorkerPeriodicTask] whose [initialId] is 0 does exactly what it does
    when [initialId] is [undefined]: no worker's [#timeouts] changes, and
    timer 0 is as it was (the recurring timer being another one). *)
Theorem C9_zero_identifier_taken_for_absent wr w task p parent :
  p ≠ Some 0 →
  let t0 := mkWorkerPeriodicTask (mkPeriodicTask task (Some 0) p) parent in
  let tu := mkWorkerPeriodicTask (mkPeriodicTask task None p) parent in
  DefaultWorker_removeTimeout wr (Some 0) w = w ∧
  DefaultWorker_removeTimeout wr None w = w ∧
  DefaultWorker_removeInterval wr (Some 0) w = w ∧
  DefaultWorker_removeInterval wr None w = w ∧
  WorkerPeriodicTask_dispose t0 w = WorkerPeriodicTask_dispose tu w ∧
  (∀ wr', timeouts <$> workers (WorkerPeriodicTask_dispose t0 w) !! wr'
          = timeouts <$> workers w !! wr') ∧
  timers (WorkerPeriodicTask_dispose t0 w) !! 0 = timers w !! 0.
Proof.
  intros Hp t0 tu.
  unfold DefaultWorker_removeTimeout, DefaultWorker_removeInterval.
  repeat split; try (by destruct (workers w !! wr)).
  - intros wr'. unfold WorkerPeriodicTask_dispose. simpl.
    destruct p as [i|]; simpl; [|done].
    by rewrite timeouts_removeInterval.
  - unfold WorkerPeriodicTask_dispose. simpl.
    destruct p as [i|]; simpl; [|done].
    rewrite timers_removeInterval. simpl.
    apply lookup_delete_ne. congruence.
Qed.

Lemma C9_zero_identifier_taken_for_absent_witness :
  let w := mkWorld 0 3 {[0 := mkTimer 5 None CbWorkerTask_run (Some 0%nat)]} []
             [mkWorker false [0] [0; 2]] [] [] in
  let t0 := mkWorkerPeriodicTask (mkPeriodicTask (returns 1) (Some 0) (Some 2)) 0%nat in
  let tu := mkWorkerPeriodicTask (mkPeriodicTask (returns 1) None (Some 2)) 0%nat in
  Some 2 ≠ Some 0 ∧
  DefaultWorker_removeTimeout 0%nat (Some 0) w = w ∧
  DefaultWorker_removeTimeout 0%nat None w = w ∧
  DefaultWorker_removeInterval 0%nat (Some 0) w = w ∧
  DefaultWorker_removeInterval 0%nat None w = w ∧
  WorkerPeriodicTask_dispose t0 w = WorkerPeriodicTask_dispose tu w ∧
  (∀ wr', timeouts <$> workers (WorkerPeriodicTask_dispose t0 w) !! wr'
          = timeouts <$> workers w !! wr') ∧
  timers (WorkerPeriodicTask_dispose t0 w) !! 0 = timers w !! 0.
Proof.
  intros w t0 tu.
  assert (Some 2 ≠ Some 0) as Hp by discriminate.
  split; [exact Hp|].
  exact (C9_zero_identifier_taken_for_absent 0%nat w (returns 1) (Some 2) 0%nat Hp).
Defined.

(** ** Disposing after shutdown *)

(** When [shutdown()] was called between two host events, whatever happened
    before and whatever happens afterwards, [dispose()] on a handle of that
    worker returns without an error and leaves the worker as it was. *)
Lemma dispose_after_shutdown_between_events ops0 wr ops o :
  (wr < length (workers (run ops0 init)))%nat →
  let w := run ops (DefaultWorker_shutdown wr (run ops0 init)) in
  handle_of wr w o →
  (Disposable_dispose o w).1 = Normal ∧
  workers w !! wr = Some (mkWorker true [] []) ∧
  workers (Disposable_dispose o w).2 !! wr = Some (mkWorker true [] []).
Proof.
  intros Hwr w Ho.
  assert (Inv (DefaultWorker_shutdown wr (run ops0 init))) as HI1
    by apply Inv_shutdown, Inv_reachable.
  pose proof (Quiet_after_shutdown wr _ (Inv_reachable ops0) Hwr) as HQ1.
  destruct (Quiet_run wr ops _ HI1 HQ1) as [HS _].
  split; [|split; [done|by apply Shut_Disposable_dispose]].
  unfold Disposable_dispose.
  destruct Ho as [->|[(t & -> & _)|(t & -> & _)]]; [|done..].
  subst w. rewrite run_snoc_shutdown, REJECTED_is_noop. done.
Qed.

(** C10 (the claim fails on the code).  The claim: after [shutdown()] has
    completed, [dispose()] on a handle of the worker leaves the worker's
    state unchanged, both lists staying empty.  The code: the arrow function
    of lines 80-88 arms the recurring timer and pushes its identifier
    without looking at [#shutdown].  A periodic task that shuts its own
    worker down at its initial firing (timer 1) returns into that function:
    after the firing the flag is set, [#intervals] is [[2]] and timer 2 is
    armed.  [dispose()] on the handle (heap index 1) then cancels timer 2
    and empties [#intervals]: the worker's state has changed. *)
Theorem C10_dispose_changes_worker_shut_down_by_its_task :
  let opts := mkOptions (Some 0) (Some 10) in
  let w0 := run [Do CreateWorker;
                 Do (WorkerSchedulePeriodically 0%nat (shuts_down 7 0%nat) opts)] init in
  let w1 := run [Fire 1] w0 in
  let w2 := run [Do (Dispose 1%nat)] w1 in
  handle_of 0%nat w1 1%nat ∧
  log w1 = [mkEntry 0 7 (Some 0%nat)] ∧
  workers w1 !! 0%nat = Some (mkWorker true [] [2]) ∧
  is_Some (timers w1 !! 2) ∧
  workers w2 !! 0%nat = Some (mkWorker true [] []) ∧
  timers w2 !! 2 = None.
Proof.
  vm_compute. split; [|repeat split; eauto].
  right; right. eexists. split; reflexivity.
Qed.

(** * Further properties *)

(** ** Identifiers are used once: the invariant on tables *)

Section fresh_tables.
Implicit Types (T : gmap Z Timer) (Ws : list DefaultWorker) (W : DefaultWorker)
  (h : list Obj) (n : Z).

Lemma fresh_init : fresh 1 ∅ [] [ObjCallback (mkCallbackDisposable (Some ThunkNoop))].
Proof.
  split; try done.
  intros [|o] obj id; simpl; [|done]. by intros [= <-].
Qed.

(** Timers that go away. *)
Lemma fresh_sub_timers n T T' Ws h :
  (∀ id t, T' !! id = Some t → T !! id = Some t) →
  fresh n T Ws h → fresh n T' Ws h.
Proof.
  intros Hsub [H1 H2 H3 H4 H5 H6 H7]. split; try done.
  - intros id t Hl%Hsub. by eapply H2.
  - intros wr W id t HW Hin Hl%Hsub. by eapply H6.
Qed.

(** The host arms a timer under the next identifier. *)
Lemma fresh_arm n T Ws h t :
  fresh n T Ws h → fresh (n + 1) (<[n:=t]> T) Ws h.
Proof.
  intros [H1 H2 H3 H4 H5 H6 H7]. split; try done.
  - lia.
  - intros id t' [[<- _]|[_ Hl]]%lookup_insert_Some; [lia|].
    specialize (H2 _ _ Hl). lia.
  - intros wr W id HW Hin. specialize (H3 _ _ _ HW Hin). lia.
  - intros wr W id t' HW Hin [[<- _]|[_ Hl]]%lookup_insert_Some.
    + specialize (H3 _ _ _ HW Hin). lia.
    + by eapply H6.
  - intros o obj id Ho Hh. specialize (H7 _ _ _ Ho Hh). lia.
Qed.

(** A repeating timer put back after it fired. *)
Lemma fresh_rearm n T Ws h i t t' :
  T !! i = Some t → t_owner t' = t_owner t →
  fresh n T Ws h → fresh n (<[i:=t']> T) Ws h.
Proof.
  intros Hi Ho [H1 H2 H3 H4 H5 H6 H7]. split; try done.
  - intros id t0 [[<- _]|[_ Hl]]%lookup_insert_Some; by eapply H2.
  - intros wr W id t0 HW Hin [[<- <-]|[_ Hl]]%lookup_insert_Some.
    + rewrite Ho. by eapply H6.
    + by eapply H6.
Qed.

(** A worker pushes the identifier of a timer it has just armed. *)
Lemma fresh_push (f : DefaultWorker → DefaultWorker) n T Ws h wr i t :
  (∀ W, tracked (f W) ≡ₚ i :: tracked W) →
  T !! i = Some t → t_owner t = Some wr →
  (∀ wr' W', Ws !! wr' = Some W' → i ∉ tracked W') →
  fresh n T Ws h → fresh n T (alter f wr Ws) h.
Proof.
  intros Hf Hi Ho Hnew [H1 H2 H3 H4 H5 H6 H7].
  assert (∀ wr' W', alter f wr Ws !! wr' = Some W' →
            ∃ W0, Ws !! wr' = Some W0 ∧
                  ((wr' = wr ∧ W' = f W0) ∨ (wr' ≠ wr ∧ W' = W0))) as Hback.
  { intros wr' W'. destruct (decide (wr' = wr)) as [->|Hne].
    - rewrite list_lookup_alter_eq. destruct (Ws !! wr) as [W0|]; [|done].
      intros [= <-]. exists W0. split; [done|by left].
    - rewrite list_lookup_alter_ne by done. intros HW. exists W'.
      split; [done|by right]. }
  assert (∀ wr' W' id, alter f wr Ws !! wr' = Some W' → id ∈ tracked W' →
            (id = i ∧ wr' = wr) ∨
            (∃ W0, Ws !! wr' = Some W0 ∧ id ∈ tracked W0)) as Hmem.
  { intros wr' W' id HW' Hin.
    destruct (Hback _ _ HW') as (W0 & HW0 & [[-> ->]|[Hne ->]]).
    - rewrite Hf in Hin. apply elem_of_cons in Hin as [->|Hin]; [by left|].
      right. by exists W0.
    - right. by exists W0. }
  split; try done.
  - intros wr' W' id HW' Hin.
    destruct (Hmem _ _ _ HW' Hin) as [[-> _]|(W0 & HW0 & Hin0)];
      [by eapply H2|by eapply H3].
  - intros wr' W' HW'.
    destruct (Hback _ _ HW') as (W0 & HW0 & [[-> ->]|[Hne ->]]).
    + rewrite Hf. apply NoDup_cons. split; [by eapply Hnew|by eapply H4].
    + by eapply H4.
  - intros wr1 wr2 W1 W2 id HW1 HW2 Hne Hin1 Hin2.
    destruct (Hmem _ _ _ HW1 Hin1) as [[E1 F1]|(V1 & HV1 & Hi1)];
      destruct (Hmem _ _ _ HW2 Hin2) as [[E2 F2]|(V2 & HV2 & Hi2)].
    + congruence.
    + subst. by eapply Hnew.
    + subst. by eapply Hnew.
    + by eapply (H5 wr1 wr2).
  - intros wr' W' id t' HW' Hin Hl.
    destruct (Hmem _ _ _ HW' Hin) as [[-> ->]|(W0 & HW0 & Hin0)].
    + congruence.
    + by eapply H6.
Qed.

(** A worker drops identifiers from its lists. *)
Lemma fresh_sub_worker (f : DefaultWorker → DefaultWorker) n T Ws h wr :
  (∀ W, tracked (f W) `sublist_of` tracked W) →
  fresh n T Ws h → fresh n T (alter f wr Ws) h.
Proof.
  intros Hf [H1 H2 H3 H4 H5 H6 H7].
  assert (∀ wr' W', alter f wr Ws !! wr' = Some W' →
            ∃ W0, Ws !! wr' = Some W0 ∧ tracked W' `sublist_of` tracked W0)
    as Hback.
  { intros wr' W'. destruct (decide (wr' = wr)) as [->|Hne].
    - rewrite list_lookup_alter_eq. destruct (Ws !! wr) as [W0|]; [|done].
      intros [= <-]. by exists W0.
    - rewrite list_lookup_alter_ne by done. intros HW. by exists W'. }
  split; try done.
  - intros wr' W' id HW' Hin. destruct (Hback _ _ HW') as (W0 & HW0 & Hs).
    eapply H3; [done|]. by eapply elem_of_sublist.
  - intros wr' W' HW'. destruct (Hback _ _ HW') as (W0 & HW0 & Hs).
    eapply sublist_NoDup; [|done]. by eapply H4.
  - intros wr1 wr2 W1 W2 id HW1 HW2 Hne Hin1 Hin2.
    destruct (Hback _ _ HW1) as (V1 & HV1 & Hs1).
    destruct (Hback _ _ HW2) as (V2 & HV2 & Hs2).
    apply (H5 wr1 wr2 V1 V2 id HV1 HV2 Hne);
      [exact (elem_of_sublist _ _ _ Hin1 Hs1)|exact (elem_of_sublist _ _ _ Hin2 Hs2)].
  - intros wr' W' id t HW' Hin Hl. destruct (Hback _ _ HW') as (W0 & HW0 & Hs).
    eapply H6; [done| |done]. by eapply elem_of_sublist.
Qed.

Lemma fresh_new_worker n T Ws h :
  fresh n T Ws h → fresh n T (Ws ++ [mkWorker false [] []]) h.
Proof.
  intros [H1 H2 H3 H4 H5 H6 H7].
  assert (∀ wr W, (Ws ++ [mkWorker false [] []]) !! wr = Some W →
            Ws !! wr = Some W ∨ tracked W = []) as Hback.
  { intros wr W [?|[_ Hl]]%lookup_app_Some; [by left|right].
    destruct (wr - length Ws)%nat; simpl in Hl; [|done]. by injection Hl as <-. }
  split; try done.
  - intros wr W id [HW|HW]%Hback; [by eapply H3|]. rewrite HW.
    by intros ?%elem_of_nil.
  - intros wr W [HW|HW]%Hback; [by eapply H4|]. rewrite HW. constructor.
  - intros wr1 wr2 W1 W2 id [HW1|HW1]%Hback [HW2|HW2]%Hback Hne;
      rewrite ?HW1, ?HW2; try (by intros ?%elem_of_nil);
      try (intros _; by intros ?%elem_of_nil).
    by eapply H5.
  - intros wr W id t [HW|HW]%Hback; [by eapply H6|]. rewrite HW.
    by intros ?%elem_of_nil.
Qed.

(** A new object. *)
Lemma fresh_alloc n T Ws h obj :
  (∀ id, obj_holds obj id → 1 ≤ id < n) →
  fresh n T Ws h → fresh n T Ws (h ++ [obj]).
Proof.
  intros Hobj [H1 H2 H3 H4 H5 H6 H7]. split; try done.
  intros o obj' id [?|[_ Hl]]%lookup_app_Some; [by eapply H7|].
  destruct (o - length h)%nat; simpl in Hl; [|done].
  injection Hl as <-. apply Hobj.
Qed.

(** An assignment to a member of an object. *)
Lemma fresh_alter_heap (f : Obj → Obj) n T Ws h o :
  (∀ obj id, obj_holds (f obj) id → obj_holds obj id ∨ 1 ≤ id < n) →
  fresh n T Ws h → fresh n T Ws (alter f o h).
Proof.
  intros Hf [H1 H2 H3 H4 H5 H6 H7]. split; try done.
  intros o' obj id. destruct (decide (o' = o)) as [->|Hne].
  - rewrite list_lookup_alter_eq. destruct (h !! o) as [obj0|] eqn:Ho; [|done].
    intros [= <-] [Hh|Hh]%Hf; [by eapply H7|done].
  - rewrite list_lookup_alter_ne by done. apply H7.
Qed.

Lemma obj_holds_set_id i obj id :
  obj_holds (set_id i obj) id → obj_holds obj id ∨ id = i.
Proof. destruct obj; simpl; try (by left). intros [= <-]. by right. Qed.

Lemma obj_holds_set_initialId i obj id :
  obj_holds (set_initialId i obj) id → obj_holds obj id ∨ id = i.
Proof.
  destruct obj; simpl; try (by left).
  intros [[= <-]|?]; [by right|left; by right].
Qed.

Lemma obj_holds_set_periodId i obj id :
  obj_holds (set_periodId i obj) id → obj_holds obj id ∨ id = i.
Proof.
  destruct obj; simpl; try (by left);
    (intros [?|[= <-]]; [left; by left|by right]).
Qed.
End fresh_tables.

(** ** Identifiers are used once: every operation keeps it *)

Section fresh_worlds.
Implicit Types (w : World) (wr o : nat).

Lemma tracked_push_timeout i W : tracked (push_timeout i W) ≡ₚ i :: tracked W.
Proof.
  unfold tracked. simpl. rewrite <-(assoc_L (++)).
  by rewrite (Permutation_app_comm [i] (intervals W)), (assoc_L (++)),
       <-Permutation_cons_append.
Qed.

Lemma tracked_push_interval i W : tracked (push_interval i W) ≡ₚ i :: tracked W.
Proof.
  unfold tracked. simpl. by rewrite (assoc_L (++)), <-Permutation_cons_append.
Qed.

Lemma tracked_splice_timeout idx W :
  tracked (splice_timeout idx W) `sublist_of` tracked W.
Proof. apply sublist_app; [apply sublist_delete|done]. Qed.

Lemma tracked_splice_interval idx W :
  tracked (splice_interval idx W) `sublist_of` tracked W.
Proof. apply sublist_app; [done|apply sublist_delete]. Qed.

Lemma Fresh_clearTimeout id w : Fresh w → Fresh (clearTimeout id w).
Proof.
  destruct id as [i|]; [|done]. intros HF.
  eapply fresh_sub_timers; [|exact HF]. intros id t. simpl.
  by intros [_ ?]%lookup_delete_Some.
Qed.

Lemma Fresh_removeTimeout wr id w :
  Fresh w → Fresh (DefaultWorker_removeTimeout wr id w).
Proof.
  intros HF. unfold DefaultWorker_removeTimeout.
  destruct (workers w !! wr) as [W|]; [|done].
  destruct id as [i|]; [|done]. destruct (truthy _); [|done].
  destruct (0 <=? _); [|done].
  apply fresh_sub_worker; [apply tracked_splice_timeout|done].
Qed.

Lemma Fresh_removeInterval wr id w :
  Fresh w → Fresh (DefaultWorker_removeInterval wr id w).
Proof.
  intros HF. unfold DefaultWorker_removeInterval.
  destruct (workers w !! wr) as [W|]; [|done].
  destruct id as [i|]; [|done]. destruct (truthy _); [|done].
  destruct (0 <=? _); [|done].
  apply fresh_sub_worker; [apply tracked_splice_interval|done].
Qed.

Lemma Fresh_Disposable_dispose o w : Fresh w → Fresh (Disposable_dispose o w).2.
Proof.
  intros HF. unfold Disposable_dispose.
  destruct (heap w !! o) as [[d|p|t|t]|]; simpl; [| | | |done].
  - unfold CallbackDisposable_dispose.
    destruct (callback d) as [[|i|r]|]; simpl; [done| |done|done].
    by apply (Fresh_clearTimeout (Some i)).
  - unfold PeriodicTask_dispose, clearInterval.
    repeat destruct (truthy _); repeat apply Fresh_clearTimeout; done.
  - by apply Fresh_removeTimeout, Fresh_clearTimeout.
  - unfold WorkerPeriodicTask_dispose, clearInterval.
    destruct (truthy _), (not_null _);
      repeat first [apply Fresh_removeInterval | apply Fresh_removeTimeout
                   | apply Fresh_clearTimeout]; done.
Qed.

Lemma Fresh_untracked w wr W : Fresh w → workers w !! wr = Some W → next_id w ∉ tracked W.
Proof. intros HF HW Hin. pose proof (fr_tracked _ _ _ _ HF _ _ _ HW Hin). lia. Qed.

Lemma Fresh_DefaultScheduler_schedule task delay w :
  Fresh w → Fresh (DefaultScheduler_schedule task delay w).2.
Proof.
  intros HF. unfold Fresh; simpl.
  apply fresh_alloc; [|by apply fresh_arm].
  simpl. intros id [= <-]. pose proof (fr_next _ _ _ _ HF). lia.
Qed.

Lemma Fresh_DefaultScheduler_schedulePeriodically task options w :
  Fresh w → Fresh (DefaultScheduler_schedulePeriodically task options w).2.
Proof.
  intros HF. unfold Fresh; simpl.
  apply fresh_alter_heap.
  { intros obj id [?| ->]%obj_holds_set_initialId; [by left|right].
    pose proof (fr_next _ _ _ _ HF). lia. }
  apply fresh_alloc; [|by apply fresh_arm].
  simpl. by intros id [?|?].
Qed.

Lemma Fresh_DefaultWorker_schedule wr task delay w :
  Fresh w → Fresh (DefaultWorker_schedule wr task delay w).2.
Proof.
  intros HF. unfold DefaultWorker_schedule.
  destruct (workers w !! wr) as [W|] eqn:HW; [|done].
  destruct (shutdown W); [done|].
  unfold Fresh; simpl.
  apply fresh_alter_heap.
  { intros obj id [?| ->]%obj_holds_set_id; [by left|right].
    pose proof (fr_next _ _ _ _ HF). lia. }
  eapply fresh_push.
  - apply tracked_push_timeout.
  - apply lookup_insert_eq.
  - done.
  - intros wr' W' HW'. by eapply Fresh_untracked.
  - apply fresh_alloc; [done|by apply fresh_arm].
Qed.

Lemma Fresh_DefaultWorker_schedulePeriodically wr task options w :
  Fresh w → Fresh (DefaultWorker_schedulePeriodically wr task options w).2.
Proof.
  intros HF. unfold DefaultWorker_schedulePeriodically.
  destruct (workers w !! wr) as [W|] eqn:HW; [|done].
  destruct (shutdown W); [done|].
  unfold Fresh; simpl.
  eapply fresh_push.
  - apply tracked_push_timeout.
  - apply lookup_insert_eq.
  - done.
  - intros wr' W' HW'. by eapply Fresh_untracked.
  - apply fresh_alloc; [|by apply fresh_arm]. simpl. by intros id [?|?].
Qed.

Lemma next_id_shutdown wr w : next_id (DefaultWorker_shutdown wr w) = next_id w.
Proof.
  unfold DefaultWorker_shutdown.
  destruct (workers w !! wr) as [W|]; [|done]. simpl. unfold clearInterval.
  set (w1 := on_worker _ _ w).
  destruct (frame_foldl_clear (intervals W) w1) as (_&A&_).
  destruct (frame_foldl_clear (timeouts W)
              (foldl (λ w it, clearTimeout (Some it) w) w1 (intervals W)))
    as (_&B&_).
  simpl in *. by rewrite B, A.
Qed.

Lemma Fresh_shutdown wr w : Fresh w → Fresh (DefaultWorker_shutdown wr w).
Proof.
  intros HF. destruct (workers w !! wr) as [W|] eqn:HW;
    [|unfold DefaultWorker_shutdown; by rewrite HW].
  unfold Fresh. rewrite next_id_shutdown, (workers_shutdown _ _ _ HW).
  destruct (frame_shutdown wr w) as (_ & -> & _).
  apply fresh_sub_worker; [intros W'; apply sublist_nil_l|].
  apply fresh_sub_worker; [done|].
  eapply fresh_sub_timers; [|done]. intros id t. apply timers_shutdown_sub.
Qed.

Lemma Fresh_exec_action a w : Fresh w → Fresh (exec_action a w).2.
Proof.
  intros HF. destruct a; simpl.
  - by apply Fresh_DefaultScheduler_schedule.
  - by apply Fresh_DefaultScheduler_schedulePeriodically.
  - by apply fresh_new_worker.
  - by apply Fresh_DefaultWorker_schedule.
  - by apply Fresh_DefaultWorker_schedulePeriodically.
  - by apply Fresh_shutdown.
  - by apply Fresh_Disposable_dispose.
  - by apply fresh_alloc.
Qed.

Lemma Fresh_call r via w : Fresh w → Fresh (call r via w).2.
Proof. intros HF. apply call_preserves; try done. apply Fresh_exec_action. Qed.

Lemma Fresh_fire id w : Fresh w → Fresh (fire id w).2.
Proof.
  intros HF. unfold fire.
  destruct (timers w !! id) as [t|] eqn:Ht; [|done].
  destruct (t_due t <=? now w); [|done].
  set (w1 := match t_repeat t with None => _ | Some _ => _ end).
  assert (Fresh w1) as HF1.
  { subst w1. destruct (t_repeat t).
    - by eapply fresh_rearm.
    - eapply fresh_sub_timers; [|exact HF]. intros id' t'. simpl.
      by intros [_ ?]%lookup_delete_Some. }
  clearbody w1.
  destruct (t_cb t) as [task|task p opts| | |wr task o opts|]; simpl; try done.
  - by apply Fresh_call.
  - pose proof (Fresh_call task None w1 HF1) as HC.
    destruct (call task None w1) as [[|e] w2]; simpl in *; [|done].
    unfold Fresh; simpl. apply fresh_alter_heap; [|by apply fresh_arm].
    intros obj id' [?| ->]%obj_holds_set_periodId; [by left|right].
    pose proof (fr_next _ _ _ _ HC). lia.
  - pose proof (Fresh_call task (Some wr) w1 HF1) as HC.
    destruct (call task (Some wr) w1) as [[|e] w2]; simpl in *; [|done].
    unfold Fresh; simpl. apply fresh_alter_heap.
    { intros obj id' [?| ->]%obj_holds_set_periodId; [by left|right].
      pose proof (fr_next _ _ _ _ HC). lia. }
    eapply fresh_push.
    + apply tracked_push_interval.
    + apply lookup_insert_eq.
    + done.
    + intros wr' W' HW'. by eapply Fresh_untracked.
    + by apply fresh_arm.
Qed.

Lemma Fresh_exec op w : Fresh w → Fresh (exec op w).
Proof.
  intros HF. destruct op; simpl; [done| |by apply Fresh_exec_action].
  pose proof (Fresh_fire id w HF). by destruct (fire id w) as [[|e] w1].
Qed.

Lemma Fresh_run ops w : Fresh w → Fresh (run ops w).
Proof.
  revert w. induction ops as [|op ops IH]; intros w HF; [done|].
  apply IH. by apply Fresh_exec.
Qed.

Lemma Fresh_reachable ops : Fresh (run ops init).
Proof. apply Fresh_run, fresh_init. Qed.
End fresh_worlds.

(** ** De-registration *)

Section deregistration.
Implicit Types (w : World) (wr : nat) (i : Z) (l : list Z).

Lemma world_eq w w' :
  now w = now w' → next_id w = next_id w' → timers w = timers w' →
  heap w = heap w' → workers w = workers w' → log w = log w' →
  uncaught w = uncaught w' → w = w'.
Proof. destruct w, w'; simpl; by intros -> -> -> -> -> -> ->. Qed.

(** [indexOf] finds the first occurrence. *)
Lemma indexOf_split i l :
  i ∈ l → ∃ l1 l2, l = l1 ++ (i :: l2) ∧ (i ∉ l1) ∧ indexOf i l = Z.of_nat (length l1).
Proof.
  induction l as [|y l IH]; [by intros ?%elem_of_nil|].
  intros Hin. simpl. destruct (Z.eqb_spec i y) as [->|Hne].
  - exists [], l. split; [done|]. split; [apply not_elem_of_nil|done].
  - apply elem_of_cons in Hin as [?|Hin]; [done|].
    destruct (IH Hin) as (l1 & l2 & -> & Hl1 & Hidx).
    exists (y :: l1), l2. split; [done|]. split.
    + by intros [?|?]%elem_of_cons.
    + rewrite Hidx. destruct (Z.ltb_spec (Z.of_nat (length l1)) 0); simpl; lia.
Qed.

Lemma splice1_middle l1 i l2 :
  splice1 (Z.of_nat (length l1)) (l1 ++ i :: l2) = l1 ++ l2.
Proof.
  unfold splice1. rewrite Nat2Z.id. induction l1 as [|y l1 IH]; simpl; [done|].
  by rewrite IH.
Qed.

Lemma list_alter_insert (f : DefaultWorker → DefaultWorker) wr W (Ws : list DefaultWorker) :
  Ws !! wr = Some W → alter f wr Ws = <[wr := f W]> Ws.
Proof.
  intros HW. apply list_eq. intros j. destruct (decide (j = wr)) as [->|Hne].
  - rewrite list_lookup_alter_eq, HW. simpl.
    by rewrite list_lookup_insert_eq by (by eapply lookup_lt_Some).
  - by rewrite list_lookup_alter_ne, list_lookup_insert_ne.
Qed.

(** Removing an identifier that the list does not hold changes nothing. *)
Lemma removeTimeout_absent wr i w :
  (∀ W, workers w !! wr = Some W → i ∉ timeouts W) →
  DefaultWorker_removeTimeout wr (Some i) w = w.
Proof.
  intros Habs. unfold DefaultWorker_removeTimeout.
  destruct (workers w !! wr) as [W|]; [|done]. destruct (truthy _); [|done].
  rewrite (indexOf_absent i (timeouts W)) by auto. done.
Qed.

Lemma removeInterval_absent wr i w :
  (∀ W, workers w !! wr = Some W → i ∉ intervals W) →
  DefaultWorker_removeInterval wr (Some i) w = w.
Proof.
  intros Habs. unfold DefaultWorker_removeInterval.
  destruct (workers w !! wr) as [W|]; [|done]. destruct (truthy _); [|done].
  rewrite (indexOf_absent i (intervals W)) by auto. done.
Qed.

(** Removing one that it holds takes out its first occurrence. *)
Lemma removeTimeout_present wr W i w :
  workers w !! wr = Some W → i ∈ timeouts W → i ≠ 0 →
  ∃ l1 l2, timeouts W = l1 ++ (i :: l2) ∧ (i ∉ l1) ∧
    DefaultWorker_removeTimeout wr (Some i) w
    = with_workers (insert wr (mkWorker (shutdown W) (l1 ++ l2) (intervals W))) w.
Proof.
  intros HW Hin Hnz.
  destruct (indexOf_split i (timeouts W) Hin) as (l1 & l2 & Hl & Hl1 & Hidx).
  exists l1, l2. split; [done|]. split; [done|].
  unfold DefaultWorker_removeTimeout. rewrite HW. simpl.
  destruct (Z.eqb_spec i 0); [done|]. simpl.
  rewrite Hidx. destruct (Z.leb_spec 0 (Z.of_nat (length l1))); [|lia].
  unfold on_worker, with_workers. rewrite (list_alter_insert _ _ _ _ HW).
  unfold splice_timeout. by rewrite Hl, splice1_middle.
Qed.

Lemma removeInterval_present wr W i w :
  workers w !! wr = Some W → i ∈ intervals W → i ≠ 0 →
  ∃ l1 l2, intervals W = l1 ++ (i :: l2) ∧ (i ∉ l1) ∧
    DefaultWorker_removeInterval wr (Some i) w
    = with_workers (insert wr (mkWorker (shutdown W) (timeouts W) (l1 ++ l2))) w.
Proof.
  intros HW Hin Hnz.
  destruct (indexOf_split i (intervals W) Hin) as (l1 & l2 & Hl & Hl1 & Hidx).
  exists l1, l2. split; [done|]. split; [done|].
  unfold DefaultWorker_removeInterval. rewrite HW. simpl.
  destruct (Z.eqb_spec i 0); [done|]. simpl.
  rewrite Hidx. destruct (Z.leb_spec 0 (Z.of_nat (length l1))); [|lia].
  unfold on_worker, with_workers. rewrite (list_alter_insert _ _ _ _ HW).
  unfold splice_interval. by rewrite Hl, splice1_middle.
Qed.

End deregistration.

(** X1.  [DefaultWorker.removeTimeout(id)], lines 113-120, for a non-zero
    identifier.  If the worker's [timeouts] list does not hold [id] the
    call changes nothing at all.  If it does, the call takes out the first
    occurrence of [id] and only that: the entries before and after it stay,
    in order, and the flag, the [intervals] list, the other workers, the
    timers, the heap and the log are as before. *)
Theorem removeTimeout_takes_out_first_occurrence wr W i w :
  workers w !! wr = Some W → i ≠ 0 →
  (i ∉ timeouts W → DefaultWorker_removeTimeout wr (Some i) w = w) ∧
  (i ∈ timeouts W →
   ∃ l1 l2, timeouts W = l1 ++ (i :: l2) ∧ (i ∉ l1) ∧
     DefaultWorker_removeTimeout wr (Some i) w
     = with_workers (insert wr (mkWorker (shutdown W) (l1 ++ l2) (intervals W))) w).
Proof.
  intros HW Hnz. split.
  - intros Hnin. apply removeTimeout_absent. intros W' HW'. congruence.
  - intros Hin. by apply removeTimeout_present.
Qed.

Lemma removeTimeout_takes_out_first_occurrence_witness :
  let w := mkWorld 0 10 ∅ [] [mkWorker false [4; 7; 4; 9] [5]] [] [] in
  workers w !! 0%nat = Some (mkWorker false [4; 7; 4; 9] [5]) ∧ 4 ≠ 0 ∧
  (4 ∉ [4; 7; 4; 9] → DefaultWorker_removeTimeout 0%nat (Some 4) w = w) ∧
  (4 ∈ [4; 7; 4; 9] →
   ∃ l1 l2, [4; 7; 4; 9] = l1 ++ (4 :: l2) ∧ (4 ∉ l1) ∧
     DefaultWorker_removeTimeout 0%nat (Some 4) w
     = with_workers (insert 0%nat (mkWorker false (l1 ++ l2) [5])) w).
Proof.
  intros w. split; [reflexivity|]. split; [lia|].
  apply (removeTimeout_takes_out_first_occurrence 0%nat
           (mkWorker false [4; 7; 4; 9] [5]) 4 w); [reflexivity|lia].
Defined.

(** X2.  [DefaultWorker.removeInterval(id)], lines 126-133, for a non-zero
    identifier: nothing changes if the [intervals] list does not hold
    [id]; otherwise its first occurrence leaves the list and nothing else
    changes. *)
Theorem removeInterval_takes_out_first_occurrence wr W i w :
  workers w !! wr = Some W → i ≠ 0 →
  (i ∉ intervals W → DefaultWorker_removeInterval wr (Some i) w = w) ∧
  (i ∈ intervals W →
   ∃ l1 l2, intervals W = l1 ++ (i :: l2) ∧ (i ∉ l1) ∧
     DefaultWorker_removeInterval wr (Some i) w
     = with_workers (insert wr (mkWorker (shutdown W) (timeouts W) (l1 ++ l2))) w).
Proof.
  intros HW Hnz. split.
  - intros Hnin. apply removeInterval_absent. intros W' HW'. congruence.
  - intros Hin. by apply removeInterval_present.
Qed.

Lemma removeInterval_takes_out_first_occurrence_witness :
  let w := mkWorld 0 10 ∅ [] [mkWorker true [4] [5; 6; 8]] [] [] in
  workers w !! 0%nat = Some (mkWorker true [4] [5; 6; 8]) ∧ 6 ≠ 0 ∧
  (6 ∉ [5; 6; 8] → DefaultWorker_removeInterval 0%nat (Some 6) w = w) ∧
  (6 ∈ [5; 6; 8] →
   ∃ l1 l2, [5; 6; 8] = l1 ++ (6 :: l2) ∧ (6 ∉ l1) ∧
     DefaultWorker_removeInterval 0%nat (Some 6) w
     = with_workers (insert 0%nat (mkWorker true [4] (l1 ++ l2))) w).
Proof.
  intros w. split; [reflexivity|]. split; [lia|].
  apply (removeInterval_takes_out_first_occurrence 0%nat
           (mkWorker true [4] [5; 6; 8]) 6 w); [reflexivity|lia].
Defined.

(** ** The tracking lists in reachable states *)

(** X3.  Timer identifiers are handed out once.  In every state the
    program can reach, the two lists of a worker together hold no
    identifier twice; every identifier they hold was handed out by the host
    (it is at least 1 and below the next one to be handed out); a timer
    armed under such an identifier was armed by this worker; and no other
    worker's lists hold it. *)
Theorem tracked_identifiers_are_distinct ops wr W :
  workers (run ops init) !! wr = Some W →
  NoDup (timeouts W ++ intervals W) ∧
  (∀ id, id ∈ timeouts W ++ intervals W →
     1 ≤ id < next_id (run ops init) ∧
     (∀ t, timers (run ops init) !! id = Some t → t_owner t = Some wr) ∧
     (∀ wr' W', wr' ≠ wr → workers (run ops init) !! wr' = Some W' →
        id ∉ timeouts W' ++ intervals W')).
Proof.
  intros HW. destruct (Fresh_reachable ops) as [Hn HT Htr Hnd Hdis Hown Hh].
  split; [by eapply Hnd|]. intros id Hin. split; [by eapply Htr|]. split.
  - intros t Ht. by eapply Hown.
  - intros wr' W' Hne HW'. by eapply (Hdis wr wr').
Qed.

Lemma tracked_identifiers_are_distinct_witness :
  let ops := [Do CreateWorker; Do CreateWorker;
              Do (WorkerSchedule 0%nat (returns 1) (Some 5));
              Do (WorkerSchedulePeriodically 1%nat (returns 2) (mkOptions None (Some 4)));
              Do (WorkerSchedulePeriodically 0%nat (returns 3) (mkOptions None (Some 4)));
              Fire 3] in
  workers (run ops init) !! 0%nat = Some (mkWorker false [1; 3] [4]) ∧
  NoDup ([1; 3] ++ [4]) ∧
  (∀ id, id ∈ [1; 3] ++ [4] →
     1 ≤ id < next_id (run ops init) ∧
     (∀ t, timers (run ops init) !! id = Some t → t_owner t = Some 0%nat) ∧
     (∀ wr' W', wr' ≠ 0%nat → workers (run ops init) !! wr' = Some W' →
        id ∉ timeouts W' ++ intervals W')).
Proof.
  intros ops.
  assert (workers (run ops init) !! 0%nat = Some (mkWorker false [1; 3] [4])) as HW
    by (vm_compute; reflexivity).
  split; [exact HW|].
  exact (tracked_identifiers_are_distinct ops 0%nat (mkWorker false [1; 3] [4]) HW).
Defined.

(** X4.  An armed timer of a worker is tracked.  In every state the program
    can reach, a timer that is armed and was armed by a worker's [schedule]
    or [schedulePeriodically] has its identifier in that worker's
    [timeouts] or [intervals]; and while the initial timer of a worker's
    periodic task is armed, the worker has not been shut down. *)
Theorem armed_worker_timers_are_tracked ops id t :
  timers (run ops init) !! id = Some t →
  (∀ wr, t_owner t = Some wr →
     ∃ W, workers (run ops init) !! wr = Some W ∧
          (id ∈ timeouts W ∨ id ∈ intervals W)) ∧
  (∀ wr task o opts, t_cb t = CbWorkerInitial wr task o opts →
     ∃ W, workers (run ops init) !! wr = Some W ∧ shutdown W = false ∧
          (id ∈ timeouts W ∨ id ∈ intervals W)).
Proof.
  intros Ht. destruct (Inv_reachable ops) as [Htr Hini]. split.
  - intros wr Ho. by eapply Htr.
  - intros wr task o opts Hcb.
    destruct (Hini _ _ _ _ _ _ Ht Hcb) as (Ho & W & HW & Hlive).
    destruct (Htr _ _ _ Ht Ho) as (W' & HW' & Hin).
    exists W. split; [done|]. split; [done|]. congruence.
Qed.

Lemma armed_worker_timers_are_tracked_witness :
  let ops := [Do CreateWorker;
              Do (WorkerSchedule 0%nat (returns 1) (Some 5));
              Do (WorkerSchedulePeriodically 0%nat (returns 2) (mkOptions (Some 7) (Some 4)))] in
  let t := mkTimer 7 None (CbWorkerInitial 0%nat (returns 2) 2%nat (mkOptions (Some 7) (Some 4)))
             (Some 0%nat) in
  timers (run ops init) !! 2 = Some t ∧
  (∀ wr, t_owner t = Some wr →
     ∃ W, workers (run ops init) !! wr = Some W ∧
          (2 ∈ timeouts W ∨ 2 ∈ intervals W)) ∧
  (∀ wr task o opts, t_cb t = CbWorkerInitial wr task o opts →
     ∃ W, workers (run ops init) !! wr = Some W ∧ shutdown W = false ∧
          (2 ∈ timeouts W ∨ 2 ∈ intervals W)).
Proof.
  intros ops t.
  assert (timers (run ops init) !! 2 = Some t) as Ht by (vm_compute; reflexivity).
  split; [exact Ht|].
  exact (armed_worker_timers_are_tracked ops 2 t Ht).
Defined.

(** X5.  [DefaultWorker.shutdown], lines 95-107, cancels the worker's own
    timers only.  In every state the program can reach, a timer armed by
    the scheduler or by another worker is still armed, unchanged, after
    [shutdown]; the other workers keep their flag and their lists; the
    clock, the heap and the log are as before. *)
Theorem shutdown_spares_the_timers_of_others ops wr id t :
  timers (run ops init) !! id = Some t → t_owner t ≠ Some wr →
  timers (DefaultWorker_shutdown wr (run ops init)) !! id = Some t ∧
  (∀ wr', wr' ≠ wr →
     workers (DefaultWorker_shutdown wr (run ops init)) !! wr'
     = workers (run ops init) !! wr') ∧
  now (DefaultWorker_shutdown wr (run ops init)) = now (run ops init) ∧
  heap (DefaultWorker_shutdown wr (run ops init)) = heap (run ops init) ∧
  log (DefaultWorker_shutdown wr (run ops init)) = log (run ops init).
Proof.
  intros Ht Ho. set (w := run ops init) in *.
  destruct (frame_shutdown wr w) as (Hnow & Hheap & Hlog & _).
  split; [|split; [intros wr' Hne; by apply other_worker_after_shutdown|done]].
  destruct (workers w !! wr) as [W|] eqn:HW.
  - rewrite (timers_shutdown _ _ _ HW), !lookup_cancel_all.
    destruct (Fresh_reachable ops) as [_ _ _ _ _ Hown _].
    assert (id ∉ tracked W) as Hnin.
    { intros Hin. apply Ho. by eapply Hown. }
    unfold tracked in Hnin. rewrite elem_of_app in Hnin.
    rewrite !decide_False by tauto. done.
  - unfold DefaultWorker_shutdown. by rewrite HW.
Qed.

Lemma shutdown_spares_the_timers_of_others_witness :
  let ops := [Do CreateWorker; Do CreateWorker;
              Do (WorkerSchedule 0%nat (returns 1) (Some 5));
              Do (WorkerSchedule 1%nat (returns 2) (Some 6));
              Do (Schedule (returns 3) (Some 7))] in
  let t := mkTimer 6 None CbWorkerTask_run (Some 1%nat) in
  timers (run ops init) !! 2 = Some t ∧ t_owner t ≠ Some 0%nat ∧
  timers (DefaultWorker_shutdown 0%nat (run ops init)) !! 2 = Some t ∧
  (∀ wr', wr' ≠ 0%nat →
     workers (DefaultWorker_shutdown 0%nat (run ops init)) !! wr'
     = workers (run ops init) !! wr') ∧
  now (DefaultWorker_shutdown 0%nat (run ops init)) = now (run ops init) ∧
  heap (DefaultWorker_shutdown 0%nat (run ops init)) = heap (run ops init) ∧
  log (DefaultWorker_shutdown 0%nat (run ops init)) = log (run ops init).
Proof.
  intros ops t.
  assert (timers (run ops init) !! 2 = Some t) as Ht by (vm_compute; reflexivity).
  assert (t_owner t ≠ Some 0%nat) as Ho by (simpl; congruence).
  split; [exact Ht|]. split; [exact Ho|].
  exact (shutdown_spares_the_timers_of_others ops 0%nat 2 t Ht Ho).
Defined.

(** ** Identifiers are not handed out twice *)

Section growth.
Implicit Types (w : World) (wr o : nat) (id : Z).

Lemma grows_refl w : grows w w.
Proof. split; [lia|]. intros id ?. by left. Qed.

Lemma grows_trans w1 w2 w3 : grows w1 w2 → grows w2 w3 → grows w1 w3.
Proof.
  intros [Hn12 H12] [Hn23 H23]. split; [lia|].
  intros id H3. destruct (H23 _ H3) as [H2|H2]; [|right; lia]. by apply H12.
Qed.

Lemma grows_sub w w' : next_id w' = next_id w → timers_sub w' w → grows w w'.
Proof.
  intros Hn Hsub. split; [lia|]. intros id [t Ht]. left. exists t. by apply Hsub.
Qed.

Lemma grows_arm w w' t :
  next_id w' = next_id w + 1 → timers w' = <[next_id w := t]> (timers w) → grows w w'.
Proof.
  intros Hn HT. split; [lia|]. intros id. rewrite HT.
  intros [t' [[<- _]|[_ Hl]]%lookup_insert_Some]; [right; lia|left; by exists t'].
Qed.

Lemma next_id_clearTimeout i w : next_id (clearTimeout i w) = next_id w.
Proof. by destruct i. Qed.

Lemma next_id_removeTimeout wr i w :
  next_id (DefaultWorker_removeTimeout wr i w) = next_id w.
Proof.
  unfold DefaultWorker_removeTimeout.
  destruct (workers w !! wr), i; try done.
  destruct (truthy _); [|done]. by destruct (0 <=? _).
Qed.

Lemma next_id_removeInterval wr i w :
  next_id (DefaultWorker_removeInterval wr i w) = next_id w.
Proof.
  unfold DefaultWorker_removeInterval.
  destruct (workers w !! wr), i; try done.
  destruct (truthy _); [|done]. by destruct (0 <=? _).
Qed.

Lemma next_id_Disposable_dispose o w : next_id (Disposable_dispose o w).2 = next_id w.
Proof.
  unfold Disposable_dispose.
  destruct (heap w !! o) as [[d|p|t|t]|]; simpl; [| | | |done].
  - unfold CallbackDisposable_dispose. by destruct (callback d) as [[|i|r]|].
  - unfold PeriodicTask_dispose, clearInterval.
    destruct (truthy (initialId p)), (truthy (periodId p));
      by rewrite ?next_id_clearTimeout.
  - unfold WorkerTask_dispose. by rewrite next_id_removeTimeout, next_id_clearTimeout.
  - unfold WorkerPeriodicTask_dispose, clearInterval.
    destruct (truthy _), (not_null _);
      by rewrite ?next_id_removeInterval, ?next_id_clearTimeout,
                 ?next_id_removeTimeout, ?next_id_clearTimeout.
Qed.

Lemma grows_exec_action a w : grows w (exec_action a w).2.
Proof.
  destruct a; simpl.
  - by eapply grows_arm.
  - by eapply grows_arm.
  - by apply grows_sub; [|intros ??].
  - unfold DefaultWorker_schedule.
    destruct (workers w !! wr) as [W|]; [|apply grows_refl].
    destruct (shutdown W); [apply grows_refl|]. by eapply grows_arm.
  - unfold DefaultWorker_schedulePeriodically.
    destruct (workers w !! wr) as [W|]; [|apply grows_refl].
    destruct (shutdown W); [apply grows_refl|]. by eapply grows_arm.
  - apply grows_sub; [apply next_id_shutdown|]. intros id t. apply timers_shutdown_sub.
  - apply grows_sub; [apply next_id_Disposable_dispose|apply timers_Disposable_dispose].
  - by apply grows_sub; [|intros ??].
Qed.

Lemma grows_call r via w : grows w (call r via w).2.
Proof.
  apply (call_preserves (grows w)).
  - done.
  - intros a w' H. eapply grows_trans; [done|apply grows_exec_action].
  - by apply grows_sub; [|intros ??].
Qed.

Lemma grows_fire id w : grows w (fire id w).2.
Proof.
  unfold fire. destruct (timers w !! id) as [t|] eqn:Ht; [|apply grows_refl].
  destruct (t_due t <=? now w); [|apply grows_refl].
  set (w1 := match t_repeat t with None => _ | Some _ => _ end).
  assert (grows w w1) as H1.
  { subst w1. destruct (t_repeat t).
    - split; [simpl; lia|]. intros id'. simpl.
      intros [t' [[<- _]|[_ Hl]]%lookup_insert_Some]; left; [by exists t|by exists t'].
    - apply grows_sub; [done|]. intros id' t'. simpl.
      by intros [_ ?]%lookup_delete_Some. }
  clearbody w1. eapply grows_trans; [exact H1|].
  destruct (t_cb t) as [task|task p opts| | |wr task o opts|]; simpl;
    try apply grows_refl.
  - apply grows_call.
  - pose proof (grows_call task None w1) as HC.
    destruct (call task None w1) as [[|e] w2]; simpl in *; [|done].
    eapply grows_trans; [exact HC|]. by eapply grows_arm.
  - pose proof (grows_call task (Some wr) w1) as HC.
    destruct (call task (Some wr) w1) as [[|e] w2]; simpl in *; [|done].
    eapply grows_trans; [exact HC|]. by eapply grows_arm.
Qed.

Lemma grows_exec op w : grows w (exec op w).
Proof.
  destruct op; simpl; [by apply grows_sub; [|intros ??]| |apply grows_exec_action].
  pose proof (grows_fire id w). by destruct (fire id w) as [[|e] w1].
Qed.

Lemma grows_run ops w : grows w (run ops w).
Proof.
  revert w. induction ops as [|op ops IH]; intros w; [apply grows_refl|].
  eapply grows_trans; [apply grows_exec|apply IH].
Qed.

Lemma grows_spent w w' id :
  grows w w' → id < next_id w → timers w !! id = None → timers w' !! id = None.
Proof.
  intros [_ H] Hlt Hnone. destruct (timers w' !! id) as [t|] eqn:Ht; [|done].
  destruct (H id) as [[t' Ht']|?]; [by exists t|congruence|lia].
Qed.
End growth.

(** ** What the handles know *)

Section handles.
Implicit Types (w : World) (wr o : nat) (id : Z).

Lemma alter_alloc (f : Obj → Obj) (h : list Obj) x :
  alter f (length h) (h ++ [x]) = h ++ [f x].
Proof. by rewrite <-(Nat.add_0_r (length h)), alter_app_r. Qed.

Lemma obj_ok_set_periodId i x : obj_ok x → obj_ok (set_periodId i x).
Proof. by destruct x. Qed.

Lemma ok_exec_action a w :
  Forall obj_ok (heap w) → Forall obj_ok (heap (exec_action a w).2).
Proof.
  intros H. destruct a; simpl.
  - apply Forall_app. split; [done|]. by constructor.
  - rewrite alter_alloc. apply Forall_app. split; [done|].
    constructor; [|done]. simpl. by eexists.
  - done.
  - unfold DefaultWorker_schedule.
    destruct (workers w !! wr) as [W|]; [|done]. destruct (shutdown W); [done|].
    simpl. rewrite alter_alloc. apply Forall_app. split; [done|].
    constructor; [|done]. simpl. by eexists.
  - unfold DefaultWorker_schedulePeriodically.
    destruct (workers w !! wr) as [W|]; [|done]. destruct (shutdown W); [done|].
    simpl. apply Forall_app. split; [done|]. by constructor.
  - by destruct (frame_shutdown wr w) as (_ & -> & _).
  - by rewrite heap_Disposable_dispose.
  - apply Forall_app. split; [done|]. by constructor.
Qed.

Lemma ok_call r via w : Forall obj_ok (heap w) → Forall obj_ok (heap (call r via w).2).
Proof.
  intros H. apply (call_preserves (λ w, Forall obj_ok (heap w))); try done.
  apply ok_exec_action.
Qed.

Lemma ok_fire id w : Forall obj_ok (heap w) → Forall obj_ok (heap (fire id w).2).
Proof.
  intros H. unfold fire. destruct (timers w !! id) as [t|]; [|done].
  destruct (t_due t <=? now w); [|done].
  set (w1 := match t_repeat t with None => _ | Some _ => _ end).
  assert (Forall obj_ok (heap w1)) as H1 by (subst w1; by destruct (t_repeat t)).
  clearbody w1.
  destruct (t_cb t) as [task|task p opts| | |wr task o opts|]; simpl; try done.
  - by apply ok_call.
  - pose proof (ok_call task None w1 H1) as HC.
    destruct (call task None w1) as [[|e] w2]; simpl in *; [|done].
    apply Forall_alter; [done|]. intros x _. apply obj_ok_set_periodId.
  - pose proof (ok_call task (Some wr) w1 H1) as HC.
    destruct (call task (Some wr) w1) as [[|e] w2]; simpl in *; [|done].
    apply Forall_alter; [done|]. intros x _. apply obj_ok_set_periodId.
Qed.

Lemma ok_exec op w : Forall obj_ok (heap w) → Forall obj_ok (heap (exec op w)).
Proof.
  intros H. destruct op; simpl; [done| |by apply ok_exec_action].
  pose proof (ok_fire id w H). by destruct (fire id w) as [[|e] w1].
Qed.

Lemma ok_run ops w : Forall obj_ok (heap w) → Forall obj_ok (heap (run ops w)).
Proof.
  revert w. induction ops as [|op ops IH]; intros w H; [done|].
  apply IH. by apply ok_exec.
Qed.

Lemma ok_reachable ops o x : heap (run ops init) !! o = Some x → obj_ok x.
Proof.
  intros Hx. eapply Forall_lookup_1; [|exact Hx]. apply ok_run.
  by repeat constructor.
Qed.
End handles.

(** ** Disposing of a handle *)

Section disposing.
Implicit Types (w : World) (wr o : nat) (i : Z) (l : list Z).

Lemma filter_ne_absent i l : i ∉ l → filter (λ j, j ≠ i) l = l.
Proof.
  induction l as [|y l IH]; [done|]. intros Hnin.
  rewrite filter_cons_True.
  - rewrite IH; [done|]. intros ?. apply Hnin. by right.
  - intros ->. apply Hnin. by left.
Qed.

Lemma filter_ne_middle l1 i l2 :
  NoDup (l1 ++ i :: l2) → filter (λ j, j ≠ i) (l1 ++ i :: l2) = l1 ++ l2.
Proof.
  intros (_ & Hd & [Hi2 _]%NoDup_cons)%NoDup_app.
  rewrite filter_app, filter_cons_False by (by intros ?).
  rewrite !filter_ne_absent; [done|done|]. intros Hin. apply (Hd _ Hin). by left.
Qed.

Lemma on_worker_insert wr W (f : DefaultWorker → DefaultWorker) w :
  workers w !! wr = Some W → on_worker wr f w = with_workers (insert wr (f W)) w.
Proof.
  intros HW. unfold on_worker, with_workers. by rewrite (list_alter_insert _ _ _ _ HW).
Qed.

Lemma on_worker_none wr (f : DefaultWorker → DefaultWorker) w :
  workers w !! wr = None → on_worker wr f w = w.
Proof.
  intros HW. destruct w as [n k T h Ws lg u]. unfold on_worker, with_workers.
  simpl in *. f_equal. apply list_eq. intros j.
  destruct (decide (j = wr)) as [->|Hne].
  - by rewrite list_lookup_alter_eq, HW.
  - by rewrite list_lookup_alter_ne.
Qed.

Lemma with_workers_insert_id wr W w :
  workers w !! wr = Some W → with_workers (insert wr W) w = w.
Proof.
  intros HW. destruct w as [n k T h Ws lg u]. unfold with_workers. simpl in *.
  by rewrite list_insert_id.
Qed.

(** With no identifier twice in the list, [removeTimeout] leaves none of
    the occurrences of [i]. *)
Lemma removeTimeout_NoDup wr i w :
  i ≠ 0 → (∀ W, workers w !! wr = Some W → NoDup (timeouts W)) →
  DefaultWorker_removeTimeout wr (Some i) w = on_worker wr (without_timeout i) w.
Proof.
  intros Hnz Hnd. destruct (workers w !! wr) as [W|] eqn:HW.
  - rewrite (on_worker_insert _ _ _ _ HW). unfold without_timeout.
    destruct (decide (i ∈ timeouts W)) as [Hin|Hnin].
    + destruct (removeTimeout_present _ _ _ _ HW Hin Hnz) as (l1 & l2 & Hl & _ & ->).
      pose proof (Hnd _ eq_refl) as HN. rewrite Hl in HN |- *.
      by rewrite filter_ne_middle.
    + rewrite removeTimeout_absent by (intros W'; congruence).
      rewrite filter_ne_absent by done. symmetry.
      destruct W. by apply with_workers_insert_id.
  - rewrite (on_worker_none _ _ _ HW). unfold DefaultWorker_removeTimeout.
    by rewrite HW.
Qed.

Lemma removeInterval_NoDup wr i w :
  i ≠ 0 → (∀ W, workers w !! wr = Some W → NoDup (intervals W)) →
  DefaultWorker_removeInterval wr (Some i) w = on_worker wr (without_interval i) w.
Proof.
  intros Hnz Hnd. destruct (workers w !! wr) as [W|] eqn:HW.
  - rewrite (on_worker_insert _ _ _ _ HW). unfold without_interval.
    destruct (decide (i ∈ intervals W)) as [Hin|Hnin].
    + destruct (removeInterval_present _ _ _ _ HW Hin Hnz) as (l1 & l2 & Hl & _ & ->).
      pose proof (Hnd _ eq_refl) as HN. rewrite Hl in HN |- *.
      by rewrite filter_ne_middle.
    + rewrite removeInterval_absent by (intros W'; congruence).
      rewrite filter_ne_absent by done. symmetry.
      destruct W. by apply with_workers_insert_id.
  - rewrite (on_worker_none _ _ _ HW). unfold DefaultWorker_removeInterval.
    by rewrite HW.
Qed.

Lemma Fresh_NoDup_timeouts w wr W :
  Fresh w → workers w !! wr = Some W → NoDup (timeouts W).
Proof.
  intros HF HW. pose proof (fr_nodup _ _ _ _ HF _ _ HW) as HN.
  by apply NoDup_app in HN as (? & _ & _).
Qed.

Lemma Fresh_NoDup_intervals w wr W :
  Fresh w → workers w !! wr = Some W → NoDup (intervals W).
Proof.
  intros HF HW. pose proof (fr_nodup _ _ _ _ HF _ _ HW) as HN.
  by apply NoDup_app in HN as (_ & _ & ?).
Qed.

(** What [WorkerTask.dispose] does in a state with distinct identifiers. *)
Lemma WorkerTask_dispose_Fresh w o t i :
  Fresh w → heap w !! o = Some (ObjWorkerTask t) → wt_id t = Some i →
  Disposable_dispose o w
  = (Normal, on_worker (wt_parent t) (without_timeout i) (with_timers (delete i) w)).
Proof.
  intros HF Ho Hi. unfold Disposable_dispose. rewrite Ho. simpl.
  unfold WorkerTask_dispose. rewrite Hi. simpl. f_equal.
  apply removeTimeout_NoDup.
  - assert (1 ≤ i < next_id w); [|lia]. by eapply (fr_heap _ _ _ _ HF o).
  - intros W HW. by eapply Fresh_NoDup_timeouts.
Qed.

Lemma WorkerPeriodicTask_dispose_Fresh w o t :
  Fresh w → heap w !! o = Some (ObjWorkerPeriodic t) → initialId (wp_super t) = None →
  Disposable_dispose o w
  = (Normal,
     match periodId (wp_super t) with
     | Some p => on_worker (wp_parent t) (without_interval p) (with_timers (delete p) w)
     | None => w
     end).
Proof.
  intros HF Ho Hi. unfold Disposable_dispose. rewrite Ho. simpl.
  unfold WorkerPeriodicTask_dispose. rewrite Hi. simpl.
  destruct (periodId (wp_super t)) as [p|] eqn:Hp; simpl; [|done]. f_equal.
  apply removeInterval_NoDup.
  - assert (1 ≤ p < next_id w); [|lia]. eapply (fr_heap _ _ _ _ HF o); [done|].
    simpl. by right.
  - intros W HW. by eapply Fresh_NoDup_intervals.
Qed.
End disposing.

Section disposing_twice.
Implicit Types (w : World) (wr o : nat) (i : Z).

Lemma filter_ne_idemp i (l : list Z) :
  filter (λ j, j ≠ i) (filter (λ j, j ≠ i) l) = filter (λ j, j ≠ i) l.
Proof. apply filter_ne_absent. by intros [? _]%list_elem_of_filter. Qed.

Lemma cancel_deregister_timeout_twice wr i w :
  on_worker wr (without_timeout i)
    (with_timers (delete i) (on_worker wr (without_timeout i) (with_timers (delete i) w)))
  = on_worker wr (without_timeout i) (with_timers (delete i) w).
Proof.
  destruct w as [n k T h Ws lg u]. unfold on_worker, with_workers, with_timers. simpl.
  rewrite delete_delete_eq, list_alter_alter_eq. f_equal.
  apply list_alter_ext; [|done]. intros W _. unfold without_timeout; simpl.
  by rewrite filter_ne_idemp.
Qed.

Lemma cancel_deregister_interval_twice wr i w :
  on_worker wr (without_interval i)
    (with_timers (delete i) (on_worker wr (without_interval i) (with_timers (delete i) w)))
  = on_worker wr (without_interval i) (with_timers (delete i) w).
Proof.
  destruct w as [n k T h Ws lg u]. unfold on_worker, with_workers, with_timers. simpl.
  rewrite delete_delete_eq, list_alter_alter_eq. f_equal.
  apply list_alter_ext; [|done]. intros W _. unfold without_interval; simpl.
  by rewrite filter_ne_idemp.
Qed.

Lemma clearTimeout_twice a b w :
  clearTimeout b (clearTimeout a (clearTimeout b (clearTimeout a w)))
  = clearTimeout b (clearTimeout a w).
Proof.
  destruct w as [n k T h Ws lg u]. destruct a as [a|], b as [b|];
    unfold clearTimeout, with_timers; simpl; f_equal; try done.
  - apply map_eq. intros j. rewrite !lookup_delete. by repeat case_decide.
  - apply delete_delete_eq.
  - apply delete_delete_eq.
Qed.

Lemma PeriodicTask_dispose_twice p w :
  PeriodicTask_dispose p (PeriodicTask_dispose p w) = PeriodicTask_dispose p w.
Proof.
  unfold PeriodicTask_dispose, clearInterval.
  destruct (truthy (initialId p)), (truthy (periodId p)).
  - apply clearTimeout_twice.
  - apply (clearTimeout_twice (initialId p) None).
  - apply (clearTimeout_twice None (periodId p)).
  - done.
Qed.
End disposing_twice.

(** X7.  [WorkerTask.dispose], lines 182-186, in every state the program
    can reach.  The handle knows its timer; [dispose] returns normally,
    cancels that timer and leaves no occurrence of its identifier in the
    [timeouts] of the worker.  Nothing else changes: not the worker's flag
    or its [intervals], not the rest of [timeouts] or its order, not the
    other workers, the other timers, the heap, the log or the clock.  And
    the timer stays cancelled whatever happens later. *)
Theorem WorkerTask_dispose_cancels_and_deregisters ops o t :
  heap (run ops init) !! o = Some (ObjWorkerTask t) →
  ∃ i, wt_id t = Some i ∧
    Disposable_dispose o (run ops init)
    = (Normal,
       on_worker (wt_parent t) (without_timeout i)
         (with_timers (delete i) (run ops init))) ∧
    ∀ later, timers (run later (Disposable_dispose o (run ops init)).2) !! i = None.
Proof.
  intros Ho. pose proof (Fresh_reachable ops) as HF.
  destruct (ok_reachable _ _ _ Ho) as [i Hi]. exists i. split; [done|].
  rewrite (WorkerTask_dispose_Fresh _ _ _ _ HF Ho Hi). split; [done|].
  intros later. eapply grows_spent; [apply grows_run| |].
  - simpl. assert (1 ≤ i < next_id (run ops init)); [|lia].
    by eapply (fr_heap _ _ _ _ HF o).
  - simpl. apply lookup_delete_eq.
Qed.

Lemma WorkerTask_dispose_cancels_and_deregisters_witness :
  let ops := [Do CreateWorker;
              Do (WorkerSchedule 0%nat (returns 1) (Some 5));
              Do (WorkerSchedule 0%nat (returns 2) (Some 6))] in
  let t := mkWorkerTask (Some 1) 0%nat (returns 1) in
  heap (run ops init) !! 1%nat = Some (ObjWorkerTask t) ∧
  ∃ i, wt_id t = Some i ∧
    Disposable_dispose 1%nat (run ops init)
    = (Normal,
       on_worker (wt_parent t) (without_timeout i)
         (with_timers (delete i) (run ops init))) ∧
    ∀ later, timers (run later (Disposable_dispose 1%nat (run ops init)).2) !! i = None.
Proof.
  intros ops t.
  assert (heap (run ops init) !! 1%nat = Some (ObjWorkerTask t)) as Ho
    by (vm_compute; reflexivity).
  split; [exact Ho|].
  exact (WorkerTask_dispose_cancels_and_deregisters ops 1%nat t Ho).
Defined.

(** X8.  [WorkerPeriodicTask.dispose], lines 208-219, in every state the
    program can reach.  The handle never knows its initial timer: nothing
    assigns [initialId] of a worker's periodic task.  So before the first
    run, when [periodId] is not set either, [dispose] changes nothing.
    Once [periodId] is set, [dispose] cancels the recurring timer and
    leaves no occurrence of its identifier in the worker's [intervals];
    nothing else changes, and the timer stays cancelled whatever happens
    later.  [dispose] returns normally in both cases. *)
Theorem WorkerPeriodicTask_dispose_by_phase ops o t :
  heap (run ops init) !! o = Some (ObjWorkerPeriodic t) →
  initialId (wp_super t) = None ∧
  Disposable_dispose o (run ops init)
  = (Normal,
     match periodId (wp_super t) with
     | Some p =>
         on_worker (wp_parent t) (without_interval p)
           (with_timers (delete p) (run ops init))
     | None => run ops init
     end) ∧
  ∀ p later, periodId (wp_super t) = Some p →
    timers (run later (Disposable_dispose o (run ops init)).2) !! p = None.
Proof.
  intros Ho. pose proof (Fresh_reachable ops) as HF.
  pose proof (ok_reachable _ _ _ Ho) as Hi. simpl in Hi. split; [done|].
  rewrite (WorkerPeriodicTask_dispose_Fresh _ _ _ HF Ho Hi). split; [done|].
  intros p later Hp. rewrite Hp. eapply grows_spent; [apply grows_run| |].
  - simpl. assert (1 ≤ p < next_id (run ops init)); [|lia].
    eapply (fr_heap _ _ _ _ HF o); [done|]. simpl. by right.
  - simpl. apply lookup_delete_eq.
Qed.

Lemma WorkerPeriodicTask_dispose_by_phase_witness :
  let ops := [Do CreateWorker;
              Do (WorkerSchedulePeriodically 0%nat (returns 1) (mkOptions (Some 2) (Some 4)));
              Tick 2; Fire 1] in
  let t := mkWorkerPeriodicTask (mkPeriodicTask (returns 1) None (Some 2)) 0%nat in
  heap (run ops init) !! 1%nat = Some (ObjWorkerPeriodic t) ∧
  initialId (wp_super t) = None ∧
  Disposable_dispose 1%nat (run ops init)
  = (Normal,
     match periodId (wp_super t) with
     | Some p =>
         on_worker (wp_parent t) (without_interval p)
           (with_timers (delete p) (run ops init))
     | None => run ops init
     end) ∧
  ∀ p later, periodId (wp_super t) = Some p →
    timers (run later (Disposable_dispose 1%nat (run ops init)).2) !! p = None.
Proof.
  intros ops t.
  assert (heap (run ops init) !! 1%nat = Some (ObjWorkerPeriodic t)) as Ho
    by (vm_compute; reflexivity).
  split; [exact Ho|].
  exact (WorkerPeriodicTask_dispose_by_phase ops 1%nat t Ho).
Defined.

(** X9.  [PeriodicTask.dispose], lines 153-161, on a handle of the
    scheduler's [schedulePeriodically], in every state the program can
    reach.  The handle knows its initial timer; [dispose] returns normally
    and cancels the initial timer and, if [periodId] is set, the recurring
    one.  The other timers, the workers, the heap, the log and the clock
    are as before, and the handle's timers stay cancelled whatever happens
    later. *)
Theorem PeriodicTask_dispose_cancels_its_timers ops o p :
  heap (run ops init) !! o = Some (ObjPeriodic p) →
  ∃ i, initialId p = Some i ∧
    Disposable_dispose o (run ops init)
    = (Normal,
       match periodId p with
       | Some q => with_timers (delete q) (with_timers (delete i) (run ops init))
       | None => with_timers (delete i) (run ops init)
       end) ∧
    ∀ j later, j = i ∨ periodId p = Some j →
      timers (run later (Disposable_dispose o (run ops init)).2) !! j = None.
Proof.
  intros Ho. pose proof (Fresh_reachable ops) as HF.
  destruct (ok_reachable _ _ _ Ho) as [i Hi]. exists i. split; [done|].
  assert (1 ≤ i < next_id (run ops init)) as Hri.
  { eapply (fr_heap _ _ _ _ HF o); [done|]. simpl. by left. }
  assert (∀ q, periodId p = Some q → 1 ≤ q < next_id (run ops init)) as Hrq.
  { intros q Hq. eapply (fr_heap _ _ _ _ HF o); [done|]. simpl. by right. }
  assert (Disposable_dispose o (run ops init)
          = (Normal,
             match periodId p with
             | Some q => with_timers (delete q) (with_timers (delete i) (run ops init))
             | None => with_timers (delete i) (run ops init)
             end)) as E.
  { unfold Disposable_dispose. rewrite Ho. simpl. unfold PeriodicTask_dispose.
    rewrite Hi. simpl. destruct (Z.eqb_spec i 0); [lia|]. simpl.
    destruct (periodId p) as [q|]; simpl; [|done].
    destruct (Z.eqb_spec q 0); [|done]. specialize (Hrq q eq_refl). lia. }
  rewrite E. split; [done|].
  intros j later Hj. eapply grows_spent; [apply grows_run| |].
  - assert (1 ≤ j < next_id (run ops init)) as Hrj by (destruct Hj as [->|Hj]; auto).
    destruct (periodId p); simpl; lia.
  - destruct Hj as [->|Hj].
    + destruct (periodId p) as [q|]; simpl; rewrite ?lookup_delete; by repeat case_decide.
    + rewrite Hj. simpl. apply lookup_delete_eq.
Qed.

Lemma PeriodicTask_dispose_cancels_its_timers_witness :
  let ops := [Do (SchedulePeriodically (returns 1) (mkOptions (Some 2) (Some 4)));
              Tick 2; Fire 1] in
  let p := mkPeriodicTask (returns 1) (Some 1) (Some 2) in
  heap (run ops init) !! 1%nat = Some (ObjPeriodic p) ∧
  ∃ i, initialId p = Some i ∧
    Disposable_dispose 1%nat (run ops init)
    = (Normal,
       match periodId p with
       | Some q => with_timers (delete q) (with_timers (delete i) (run ops init))
       | None => with_timers (delete i) (run ops init)
       end) ∧
    ∀ j later, j = i ∨ periodId p = Some j →
      timers (run later (Disposable_dispose 1%nat (run ops init)).2) !! j = None.
Proof.
  intros ops p.
  assert (heap (run ops init) !! 1%nat = Some (ObjPeriodic p)) as Ho
    by (vm_compute; reflexivity).
  split; [exact Ho|].
  exact (PeriodicTask_dispose_cancels_its_timers ops 1%nat p Ho).
Defined.

(** X10.  Disposing of one of the library's own handles twice is the same
    as disposing of it once, in every state the program can reach: the
    second [dispose] returns normally and changes nothing.  This holds for
    the handles of [schedule] and [schedulePeriodically] of the scheduler
    and of a worker, and for the rejected sentinel; not for a
    [CallbackDisposable] around a function of the caller, which is called
    again. *)
Theorem library_handles_dispose_idempotent ops o x :
  heap (run ops init) !! o = Some x → library_handle x →
  Disposable_dispose o (Disposable_dispose o (run ops init)).2
  = Disposable_dispose o (run ops init).
Proof.
  intros Ho Hlib. pose proof (Fresh_reachable ops) as HF.
  pose proof (Fresh_Disposable_dispose o _ HF) as HF'.
  pose proof (heap_Disposable_dispose o (run ops init)) as Hh.
  assert (heap (Disposable_dispose o (run ops init)).2 !! o = Some x) as Ho'
    by (by rewrite Hh).
  destruct x as [d|p|t|t].
  - revert Ho' HF'. unfold Disposable_dispose at 2 3 4. rewrite Ho. simpl.
    unfold CallbackDisposable_dispose.
    destruct (callback d) as [[|i|c]|] eqn:Hc; simpl; intros Ho' _.
    + unfold Disposable_dispose. rewrite Ho. simpl.
      unfold CallbackDisposable_dispose. by rewrite Hc.
    + unfold Disposable_dispose. simpl. rewrite Ho. simpl.
      unfold CallbackDisposable_dispose. rewrite Hc. simpl. f_equal.
      apply (clearTimeout_twice None (Some i)).
    + by destruct (Hlib c).
    + unfold Disposable_dispose. rewrite Ho. simpl.
      unfold CallbackDisposable_dispose. by rewrite Hc.
  - revert Ho'. unfold Disposable_dispose at 1 3 4. rewrite Ho. simpl. intros Ho'.
    unfold Disposable_dispose. rewrite Ho'. simpl. f_equal.
    apply PeriodicTask_dispose_twice.
  - destruct (ok_reachable _ _ _ Ho) as [i Hi].
    rewrite (WorkerTask_dispose_Fresh _ _ _ _ HF' Ho' Hi).
    rewrite (WorkerTask_dispose_Fresh _ _ _ _ HF Ho Hi). simpl. f_equal.
    apply cancel_deregister_timeout_twice.
  - pose proof (ok_reachable _ _ _ Ho) as Hi. simpl in Hi.
    rewrite (WorkerPeriodicTask_dispose_Fresh _ _ _ HF' Ho' Hi).
    rewrite (WorkerPeriodicTask_dispose_Fresh _ _ _ HF Ho Hi). simpl.
    destruct (periodId (wp_super t)) as [q|]; [|done]. f_equal.
    apply cancel_deregister_interval_twice.
Qed.

Lemma library_handles_dispose_idempotent_witness :
  let ops := [Do CreateWorker;
              Do (WorkerSchedule 0%nat (returns 1) (Some 5));
              Do (WorkerSchedule 0%nat (returns 2) (Some 6))] in
  let x := ObjWorkerTask (mkWorkerTask (Some 1) 0%nat (returns 1)) in
  heap (run ops init) !! 1%nat = Some x ∧ library_handle x ∧
  Disposable_dispose 1%nat (Disposable_dispose 1%nat (run ops init)).2
  = Disposable_dispose 1%nat (run ops init).
Proof.
  intros ops x.
  assert (heap (run ops init) !! 1%nat = Some x) as Ho by (vm_compute; reflexivity).
  assert (library_handle x) as Hlib by exact I.
  split; [exact Ho|]. split; [exact Hlib|].
  exact (library_handles_dispose_idempotent ops 1%nat x Ho Hlib).
Defined.

(** ** Scheduling and disposing *)

Section round_trips.
Implicit Types (w : World) (wr o : nat) (i : Z).

Lemma with_timers_delete_id i w :
  timers w !! i = None → with_timers (delete i) w = w.
Proof.
  intros Hn. destruct w as [n k T h Ws lg u]. unfold with_timers. simpl in *.
  by rewrite delete_id.
Qed.

Lemma Fresh_next_unarmed w : Fresh w → timers w !! next_id w = None.
Proof.
  intros HF. destruct (timers w !! next_id w) as [t|] eqn:Ht; [|done].
  pose proof (fr_timers _ _ _ _ HF _ _ Ht). lia.
Qed.

Lemma dispose_ClearTimeout o i w :
  heap w !! o = Some (ObjCallback (mkCallbackDisposable (Some (ThunkClearTimeout i)))) →
  Disposable_dispose o w = (Normal, with_timers (delete i) w).
Proof. intros H. unfold Disposable_dispose. by rewrite H. Qed.

Lemma heap_nonempty ops : (0 < length (heap (run ops init)))%nat.
Proof. eapply lookup_lt_Some. apply REJECTED_is_noop. Qed.

Lemma without_push_timeout i W :
  i ∉ timeouts W → without_timeout i (push_timeout i W) = W.
Proof.
  intros Hnin. destruct W as [s ts ivs]. unfold without_timeout, push_timeout. simpl in *.
  rewrite filter_app, filter_ne_absent by done.
  rewrite filter_cons_False by (by intros ?). by rewrite filter_nil, app_nil_r.
Qed.
End round_trips.

(** X11.  [DefaultScheduler.schedule], lines 16-19, followed by [dispose]
    of the handle it returned, in every state the program can reach.
    [schedule] arms one timer, under an identifier that names no other
    timer: a one-shot timer whose function is the task itself, on behalf of
    no worker.  [dispose] of the handle then returns normally and takes
    exactly that timer away again: the timers, the workers, the log and the
    clock are as before [schedule], and the timer is never armed again. *)
Theorem schedule_then_dispose_restores_timers ops task delay :
  (∃ t, timers (DefaultScheduler_schedule task delay (run ops init)).2
        = <[next_id (run ops init) := t]> (timers (run ops init)) ∧
        t_cb t = CbRunnable task ∧ t_repeat t = None ∧ t_owner t = None) ∧
  ∃ w', Disposable_dispose (DefaultScheduler_schedule task delay (run ops init)).1
          (DefaultScheduler_schedule task delay (run ops init)).2 = (Normal, w') ∧
    timers w' = timers (run ops init) ∧ workers w' = workers (run ops init) ∧
    log w' = log (run ops init) ∧ now w' = now (run ops init) ∧
    ∀ later, timers (run later w') !! next_id (run ops init) = None.
Proof.
  set (w := run ops init). pose proof (Fresh_reachable ops) as HF. fold w in HF.
  split; [by eexists|].
  eexists. split.
  { unfold Disposable_dispose. simpl. rewrite lookup_app_r by done.
    rewrite Nat.sub_diag. simpl. reflexivity. }
  simpl. split; [apply delete_insert_id; by apply Fresh_next_unarmed|].
  do 3 (split; [done|]).
  intros later. eapply grows_spent; [apply grows_run| |]; simpl; [lia|].
  apply lookup_delete_eq.
Qed.

(** X12.  [DefaultScheduler.schedulePeriodically], lines 21-36, followed by
    [dispose] of the handle before the initial timer fires, in every state
    the program can reach.  [schedulePeriodically] returns a new
    [PeriodicTask] that knows its initial timer and arms that timer and no
    other: a one-shot timer, on behalf of no worker, whose function is the
    arrow function of lines 27-33 for this task and this handle.  [dispose]
    then returns normally and takes exactly that timer away again: the
    timers, the workers, the log and the clock are as before, and the timer
    is never armed again. *)
Theorem schedulePeriodically_then_dispose_restores_timers ops task options :
  heap (DefaultScheduler_schedulePeriodically task options (run ops init)).2
    !! (DefaultScheduler_schedulePeriodically task options (run ops init)).1
  = Some (ObjPeriodic (mkPeriodicTask task (Some (next_id (run ops init))) None)) ∧
  (∃ t, timers (DefaultScheduler_schedulePeriodically task options (run ops init)).2
        = <[next_id (run ops init) := t]> (timers (run ops init)) ∧
        t_cb t = CbSchedulerInitial task
                   (DefaultScheduler_schedulePeriodically task options (run ops init)).1
                   options ∧
        t_repeat t = None ∧ t_owner t = None) ∧
  ∃ w', Disposable_dispose
          (DefaultScheduler_schedulePeriodically task options (run ops init)).1
          (DefaultScheduler_schedulePeriodically task options (run ops init)).2
        = (Normal, w') ∧
    timers w' = timers (run ops init) ∧ workers w' = workers (run ops init) ∧
    log w' = log (run ops init) ∧ now w' = now (run ops init) ∧
    ∀ later, timers (run later w') !! next_id (run ops init) = None.
Proof.
  set (w := run ops init). pose proof (Fresh_reachable ops) as HF. fold w in HF.
  pose proof (fr_next _ _ _ _ HF) as Hn1.
  destruct (DefaultScheduler_schedulePeriodically task options w) as [o w2] eqn:E.
  unfold DefaultScheduler_schedulePeriodically in E. simpl in E.
  injection E as <- <-. cbn [fst snd].
  match goal with |- heap ?x !! _ = _ ∧ _ => set (w2 := x) end.
  assert (heap w2 !! length (heap w)
          = Some (ObjPeriodic (mkPeriodicTask task (Some (next_id w)) None))) as Ho.
  { subst w2. simpl. rewrite alter_alloc, lookup_app_r by done.
    by rewrite Nat.sub_diag. }
  split; [exact Ho|]. split; [subst w2; simpl; by eexists|].
  exists (with_timers (delete (next_id w)) w2). split.
  { unfold Disposable_dispose. rewrite Ho. simpl. unfold PeriodicTask_dispose. simpl.
    by destruct (Z.eqb_spec (next_id w) 0); [lia|]. }
  subst w2. simpl. split; [apply delete_insert_id; by apply Fresh_next_unarmed|].
  do 3 (split; [done|]).
  intros later. eapply grows_spent; [apply grows_run| |]; simpl; [lia|].
  apply lookup_delete_eq.
Qed.

(** X13.  Disposing of the handle of [DefaultScheduler.schedule] once its
    timer is no longer armed, because it has fired or was cancelled, changes
    nothing and returns normally, whatever else has happened since
    [schedule]. *)
Theorem dispose_of_spent_schedule_handle_changes_nothing ops task delay mid :
  timers (run mid (DefaultScheduler_schedule task delay (run ops init)).2)
    !! next_id (run ops init) = None →
  Disposable_dispose (DefaultScheduler_schedule task delay (run ops init)).1
    (run mid (DefaultScheduler_schedule task delay (run ops init)).2)
  = (Normal, run mid (DefaultScheduler_schedule task delay (run ops init)).2).
Proof.
  set (w := run ops init). intros Hn.
  set (r := DefaultScheduler_schedule task delay w) in *.
  assert (heap r.2 !! r.1
          = Some (ObjCallback (mkCallbackDisposable (Some (ThunkClearTimeout (next_id w))))))
    as Ho.
  { subst r. simpl. rewrite lookup_app_r by done. by rewrite Nat.sub_diag. }
  destruct (heap_le_run mid r.2 _ _ Ho) as (b & Hb & Hk).
  destruct b as [d| | |]; simpl in Hk; try done. subst d.
  rewrite (dispose_ClearTimeout _ _ _ Hb). f_equal.
  by apply with_timers_delete_id.
Qed.

Lemma dispose_of_spent_schedule_handle_changes_nothing_witness :
  let ops := [Do (Schedule (returns 1) None)] in
  let mid := [Do (Schedule (returns 3) (Some 9)); Tick 5; Fire 2] in
  timers (run mid (DefaultScheduler_schedule (returns 2) (Some 5) (run ops init)).2)
    !! next_id (run ops init) = None ∧
  Disposable_dispose (DefaultScheduler_schedule (returns 2) (Some 5) (run ops init)).1
    (run mid (DefaultScheduler_schedule (returns 2) (Some 5) (run ops init)).2)
  = (Normal, run mid (DefaultScheduler_schedule (returns 2) (Some 5) (run ops init)).2).
Proof.
  intros ops mid.
  assert (timers (run mid (DefaultScheduler_schedule (returns 2) (Some 5) (run ops init)).2)
            !! next_id (run ops init) = None) as Hn by (vm_compute; reflexivity).
  split; [exact Hn|].
  exact (dispose_of_spent_schedule_handle_changes_nothing ops (returns 2) (Some 5) mid Hn).
Defined.

(** X14.  [DefaultWorker.schedule], lines 59-71, on a worker that is not
    shut down, followed by [dispose] of the handle, in every state the
    program can reach.  [schedule] returns a new [WorkerTask] that knows its
    timer, arms one timer under a new identifier, a one-shot timer on
    behalf of the worker whose function is [workerTask.run], and appends
    the identifier to [timeouts].  [dispose] of the handle undoes exactly
    that: the timers and all workers, with their lists in their order, are
    as before [schedule], as are the log and the clock. *)
Theorem worker_schedule_then_dispose_round_trip ops wr W task delay :
  workers (run ops init) !! wr = Some W → shutdown W = false →
  heap (DefaultWorker_schedule wr task delay (run ops init)).2
    !! (DefaultWorker_schedule wr task delay (run ops init)).1
  = Some (ObjWorkerTask (mkWorkerTask (Some (next_id (run ops init))) wr task)) ∧
  (DefaultWorker_schedule wr task delay (run ops init)).1 ≠ REJECTED ∧
  (∃ t, timers (DefaultWorker_schedule wr task delay (run ops init)).2
        = <[next_id (run ops init) := t]> (timers (run ops init)) ∧
        t_cb t = CbWorkerTask_run ∧ t_repeat t = None ∧ t_owner t = Some wr) ∧
  workers (DefaultWorker_schedule wr task delay (run ops init)).2 !! wr
  = Some (mkWorker false (timeouts W ++ [next_id (run ops init)]) (intervals W)) ∧
  ∃ w', Disposable_dispose (DefaultWorker_schedule wr task delay (run ops init)).1
          (DefaultWorker_schedule wr task delay (run ops init)).2 = (Normal, w') ∧
    timers w' = timers (run ops init) ∧ workers w' = workers (run ops init) ∧
    log w' = log (run ops init) ∧ now w' = now (run ops init).
Proof.
  set (w := run ops init). intros HW Hlive.
  pose proof (Fresh_reachable ops) as HF. fold w in HF.
  pose proof (heap_nonempty ops) as Hne. fold w in Hne.
  pose proof (Fresh_DefaultWorker_schedule wr task delay w HF) as HF'.
  destruct (DefaultWorker_schedule wr task delay w) as [o w2] eqn:E.
  unfold DefaultWorker_schedule in E. rewrite HW, Hlive in E. simpl in E.
  injection E as <- <-. cbn [fst snd] in *.
  match type of HF' with Fresh ?x => set (w2 := x) in * end.
  assert (heap w2 !! length (heap w)
          = Some (ObjWorkerTask (mkWorkerTask (Some (next_id w)) wr task))) as Ho.
  { subst w2. simpl. rewrite alter_alloc, lookup_app_r by done.
    by rewrite Nat.sub_diag. }
  split; [exact Ho|]. split; [unfold REJECTED; lia|].
  split; [subst w2; simpl; by eexists|].
  split; [subst w2; simpl; by rewrite list_lookup_alter_eq, HW, <-Hlive|].
  rewrite (WorkerTask_dispose_Fresh _ _ _ (next_id w) HF' Ho eq_refl).
  eexists. split; [reflexivity|]. subst w2. simpl.
  split; [apply delete_insert_id; by apply Fresh_next_unarmed|].
  split; [|done].
  rewrite list_alter_alter_eq. apply list_eq. intros j.
  destruct (decide (j = wr)) as [->|Hj].
  - rewrite list_lookup_alter_eq, HW. simpl. f_equal.
    apply without_push_timeout. intros Hin.
    apply (Fresh_untracked w wr W HF HW). unfold tracked. apply elem_of_app. by left.
  - by rewrite list_lookup_alter_ne.
Qed.

Lemma worker_schedule_then_dispose_round_trip_witness :
  let ops := [Do CreateWorker; Do (WorkerSchedule 0%nat (returns 1) (Some 5))] in
  let W := mkWorker false [1] [] in
  workers (run ops init) !! 0%nat = Some W ∧ shutdown W = false ∧
  heap (DefaultWorker_schedule 0%nat (returns 2) None (run ops init)).2
    !! (DefaultWorker_schedule 0%nat (returns 2) None (run ops init)).1
  = Some (ObjWorkerTask (mkWorkerTask (Some (next_id (run ops init))) 0%nat (returns 2))) ∧
  (DefaultWorker_schedule 0%nat (returns 2) None (run ops init)).1 ≠ REJECTED ∧
  (∃ t, timers (DefaultWorker_schedule 0%nat (returns 2) None (run ops init)).2
        = <[next_id (run ops init) := t]> (timers (run ops init)) ∧
        t_cb t = CbWorkerTask_run ∧ t_repeat t = None ∧ t_owner t = Some 0%nat) ∧
  workers (DefaultWorker_schedule 0%nat (returns 2) None (run ops init)).2 !! 0%nat
  = Some (mkWorker false (timeouts W ++ [next_id (run ops init)]) (intervals W)) ∧
  ∃ w', Disposable_dispose (DefaultWorker_schedule 0%nat (returns 2) None (run ops init)).1
          (DefaultWorker_schedule 0%nat (returns 2) None (run ops init)).2 = (Normal, w') ∧
    timers w' = timers (run ops init) ∧ workers w' = workers (run ops init) ∧
    log w' = log (run ops init) ∧ now w' = now (run ops init).
Proof.
  intros ops W.
  assert (workers (run ops init) !! 0%nat = Some W) as HW by (vm_compute; reflexivity).
  assert (shutdown W = false) as Hl by reflexivity.
  split; [exact HW|]. split; [exact Hl|].
  exact (worker_schedule_then_dispose_round_trip ops 0%nat W (returns 2) None HW Hl).
Defined.

(** X15.  A worker rejects exactly when it has been shut down.  In every
    state the program can reach, [schedule] and [schedulePeriodically] of a
    worker return the rejected sentinel if the worker's flag is set, and a
    handle different from it if the flag is not set. *)
Theorem worker_rejects_exactly_when_shut_down ops wr W task delay options :
  workers (run ops init) !! wr = Some W →
  ((DefaultWorker_schedule wr task delay (run ops init)).1 = REJECTED
   ↔ shutdown W = true) ∧
  ((DefaultWorker_schedulePeriodically wr task options (run ops init)).1 = REJECTED
   ↔ shutdown W = true).
Proof.
  intros HW. pose proof (heap_nonempty ops) as Hne.
  unfold DefaultWorker_schedule, DefaultWorker_schedulePeriodically. rewrite HW.
  destruct (shutdown W); simpl; [done|]. unfold REJECTED.
  split; split; intros ?; (done || lia).
Qed.

Lemma worker_rejects_exactly_when_shut_down_witness :
  let ops := [Do CreateWorker; Do (WorkerSchedule 0%nat (returns 1) (Some 5))] in
  let W := mkWorker false [1] [] in
  workers (run ops init) !! 0%nat = Some W ∧
  ((DefaultWorker_schedule 0%nat (returns 2) None (run ops init)).1 = REJECTED
   ↔ shutdown W = true) ∧
  ((DefaultWorker_schedulePeriodically 0%nat (returns 2) (mkOptions None None)
      (run ops init)).1 = REJECTED
   ↔ shutdown W = true).
Proof.
  intros ops W.
  assert (workers (run ops init) !! 0%nat = Some W) as HW by (vm_compute; reflexivity).
  split; [exact HW|].
  exact (worker_rejects_exactly_when_shut_down ops 0%nat W (returns 2) None
           (mkOptions None None) HW).
Defined.

(** X16.  [DefaultScheduler.createWorker], lines 42-44 with the constructor
    of lines 55-57, in every state the program can reach.  The worker it
    returns is a new one, not shut down, with both lists empty and no timer
    of its own; the workers there were are unchanged, as are the timers and
    the heap; and its [schedule] and [schedulePeriodically] accept. *)
Theorem createWorker_gives_a_new_idle_worker ops :
  workers (DefaultScheduler_createWorker (run ops init)).2
    !! (DefaultScheduler_createWorker (run ops init)).1 = Some (mkWorker false [] []) ∧
  workers (run ops init) !! (DefaultScheduler_createWorker (run ops init)).1 = None ∧
  (∀ wr W, workers (run ops init) !! wr = Some W →
     workers (DefaultScheduler_createWorker (run ops init)).2 !! wr = Some W) ∧
  no_timer_of (DefaultScheduler_createWorker (run ops init)).1
    (DefaultScheduler_createWorker (run ops init)).2 ∧
  timers (DefaultScheduler_createWorker (run ops init)).2 = timers (run ops init) ∧
  heap (DefaultScheduler_createWorker (run ops init)).2 = heap (run ops init) ∧
  (∀ task delay options,
     (DefaultWorker_schedule (DefaultScheduler_createWorker (run ops init)).1 task delay
        (DefaultScheduler_createWorker (run ops init)).2).1 ≠ REJECTED ∧
     (DefaultWorker_schedulePeriodically (DefaultScheduler_createWorker (run ops init)).1
        task options (DefaultScheduler_createWorker (run ops init)).2).1 ≠ REJECTED).
Proof.
  set (w := run ops init). pose proof (heap_nonempty ops) as Hne. fold w in Hne.
  assert (workers (DefaultScheduler_createWorker w).2 !! (DefaultScheduler_createWorker w).1
          = Some (mkWorker false [] [])) as Hnew.
  { simpl. rewrite lookup_app_r by done. by rewrite Nat.sub_diag. }
  split; [exact Hnew|]. split; [by apply lookup_ge_None_2|].
  split; [intros wr W HW; simpl; by apply lookup_app_l_Some|].
  split.
  { intros id t Ht Ho. simpl in Ht, Ho.
    destruct (Inv_reachable ops) as [Htr _]. fold w in Htr.
    destruct (Htr _ _ _ Ht Ho) as (W & HW%lookup_lt_Some & _). lia. }
  split; [done|]. split; [done|].
  intros task delay options.
  unfold DefaultWorker_schedule, DefaultWorker_schedulePeriodically.
  rewrite Hnew. simpl. unfold REJECTED. lia.
Qed.

(** ** The run methods on their own object *)

Section own_object.
Implicit Types (w : World) (wr o : nat) (i : Z).

(** A task's library calls add objects to the heap and change none. *)
Lemma heap_prefix_exec_action a w : heap w `prefix_of` heap (exec_action a w).2.
Proof.
  destruct a; simpl; try done.
  - by apply prefix_app_r.
  - rewrite alter_alloc. by apply prefix_app_r.
  - unfold DefaultWorker_schedule.
    destruct (workers w !! wr) as [W|]; [|done]. destruct (shutdown W); [done|].
    simpl. rewrite alter_alloc. by apply prefix_app_r.
  - unfold DefaultWorker_schedulePeriodically.
    destruct (workers w !! wr) as [W|]; [|done]. destruct (shutdown W); [done|].
    simpl. by apply prefix_app_r.
  - by destruct (frame_shutdown wr w) as (_ & -> & _).
  - by rewrite heap_Disposable_dispose.
  - by apply prefix_app_r.
Qed.

Lemma heap_prefix_call r via w : heap w `prefix_of` heap (call r via w).2.
Proof.
  apply (call_preserves (λ w', heap w `prefix_of` heap w')).
  - done.
  - intros a w' H. etrans; [done|apply heap_prefix_exec_action].
  - done.
Qed.

(** [PeriodicTask.dispose] leaves neither of the handle's timers armed. *)
Lemma PeriodicTask_dispose_unarms p w j :
  initialId p = Some j ∨ periodId p = Some j → j ≠ 0 →
  timers (PeriodicTask_dispose p w) !! j = None.
Proof.
  intros Hj Hnz. unfold PeriodicTask_dispose, clearInterval.
  assert (truthy (Some j) = true) as Ht.
  { simpl. by destruct (Z.eqb_spec j 0). }
  destruct Hj as [Hj|Hj]; rewrite Hj, Ht.
  - destruct (truthy (periodId p)); [|simpl; apply lookup_delete_eq].
    destruct (periodId p) as [q|]; simpl; [|apply lookup_delete_eq].
    rewrite !lookup_delete. by repeat case_decide.
  - simpl. apply lookup_delete_eq.
Qed.

Lemma heap_call_lookup r via w o x :
  heap w !! o = Some x → heap (call r via w).2 !! o = Some x.
Proof. intros H. eapply prefix_lookup_Some; [done|apply heap_prefix_call]. Qed.
End own_object.

(** X17.  [WorkerTask.run], lines 174-180, called on its own object (not
    as the host calls it), in every state the program can reach.  The task
    is called on behalf of the worker; whether it returns or raises, that
    is the outcome of [run], and in both cases no occurrence of the
    handle's identifier is left in the worker's [timeouts] afterwards.
    This holds whatever library calls the task makes itself. *)
Theorem WorkerTask_run_on_its_own_object ops o t :
  heap (run ops init) !! o = Some (ObjWorkerTask t) →
  ∃ i, wt_id t = Some i ∧
    WorkerTask_run (Instance o) (run ops init)
    = ((call (wt_task t) (Some (wt_parent t)) (run ops init)).1,
       on_worker (wt_parent t) (without_timeout i)
         (call (wt_task t) (Some (wt_parent t)) (run ops init)).2).
Proof.
  intros Ho. pose proof (Fresh_reachable ops) as HF.
  destruct (ok_reachable _ _ _ Ho) as [i Hi]. exists i. split; [done|].
  pose proof (Fresh_call (wt_task t) (Some (wt_parent t)) _ HF) as HF1.
  pose proof (heap_call_lookup (wt_task t) (Some (wt_parent t)) _ _ _ Ho) as Ho1.
  unfold WorkerTask_run. rewrite Ho.
  destruct (call (wt_task t) (Some (wt_parent t)) (run ops init)) as [out w1].
  simpl in *. rewrite Ho1, Hi. f_equal. apply removeTimeout_NoDup.
  - assert (1 ≤ i < next_id (run ops init)); [|lia]. by eapply (fr_heap _ _ _ _ HF o).
  - intros W HW. by eapply Fresh_NoDup_timeouts.
Qed.

Lemma WorkerTask_run_on_its_own_object_witness :
  let ops := [Do CreateWorker;
              Do (WorkerSchedule 0%nat (mkRunnable 1 2 (λ _, true)
                    [WorkerSchedule 0%nat (returns 2) None]) (Some 5))] in
  let t := mkWorkerTask (Some 1) 0%nat
             (mkRunnable 1 2 (λ _, true) [WorkerSchedule 0%nat (returns 2) None]) in
  heap (run ops init) !! 1%nat = Some (ObjWorkerTask t) ∧
  ∃ i, wt_id t = Some i ∧
    WorkerTask_run (Instance 1%nat) (run ops init)
    = ((call (wt_task t) (Some (wt_parent t)) (run ops init)).1,
       on_worker (wt_parent t) (without_timeout i)
         (call (wt_task t) (Some (wt_parent t)) (run ops init)).2).
Proof.
  intros ops t.
  assert (heap (run ops init) !! 1%nat = Some (ObjWorkerTask t)) as Ho
    by (vm_compute; reflexivity).
  split; [exact Ho|].
  exact (WorkerTask_run_on_its_own_object ops 1%nat t Ho).
Defined.

(** X18.  [PeriodicTask.run], lines 145-151, called on its own object, a
    handle of the scheduler's [schedulePeriodically], in every state the
    program can reach.  [run] never raises.  If the task returns, [run]
    has done nothing but call it.  If the task raises, the error is
    swallowed and the handle is disposed of: its timers are cancelled and
    stay cancelled whatever happens later. *)
Theorem PeriodicTask_run_on_its_own_object ops o p :
  heap (run ops init) !! o = Some (ObjPeriodic p) →
  (PeriodicTask_run (Instance o) (run ops init)).1 = Normal ∧
  ((call (_task p) None (run ops init)).1 = Normal →
     (PeriodicTask_run (Instance o) (run ops init)).2
     = (call (_task p) None (run ops init)).2) ∧
  ((call (_task p) None (run ops init)).1 ≠ Normal →
     ∀ j later, initialId p = Some j ∨ periodId p = Some j →
       timers (run later (PeriodicTask_run (Instance o) (run ops init)).2) !! j = None).
Proof.
  intros Ho. pose proof (Fresh_reachable ops) as HF.
  pose proof (grows_call (_task p) None (run ops init)) as [Hn _].
  pose proof (heap_call_lookup (_task p) None _ _ _ Ho) as Ho1.
  unfold PeriodicTask_run. rewrite Ho.
  destruct (call (_task p) None (run ops init)) as [[|e] w1]; simpl in *.
  - done.
  - unfold Disposable_dispose. rewrite Ho1. simpl.
    split; [done|]. split; [done|]. intros _ j later Hj.
    assert (1 ≤ j < next_id (run ops init)) as Hr.
    { eapply (fr_heap _ _ _ _ HF o); [done|]. exact Hj. }
    eapply grows_spent; [apply grows_run| |].
    + pose proof (next_id_Disposable_dispose o w1) as E.
      unfold Disposable_dispose in E. rewrite Ho1 in E. simpl in E. lia.
    + apply PeriodicTask_dispose_unarms; [done|lia].
Qed.

Lemma PeriodicTask_run_on_its_own_object_witness :
  let ops := [Do (SchedulePeriodically (raises 1) (mkOptions (Some 2) (Some 4)))] in
  let p := mkPeriodicTask (raises 1) (Some 1) None in
  heap (run ops init) !! 1%nat = Some (ObjPeriodic p) ∧
  (PeriodicTask_run (Instance 1%nat) (run ops init)).1 = Normal ∧
  ((call (_task p) None (run ops init)).1 = Normal →
     (PeriodicTask_run (Instance 1%nat) (run ops init)).2
     = (call (_task p) None (run ops init)).2) ∧
  ((call (_task p) None (run ops init)).1 ≠ Normal →
     ∀ j later, initialId p = Some j ∨ periodId p = Some j →
       timers (run later (PeriodicTask_run (Instance 1%nat) (run ops init)).2) !! j = None).
Proof.
  intros ops p.
  assert (heap (run ops init) !! 1%nat = Some (ObjPeriodic p)) as Ho
    by (vm_compute; reflexivity).
  split; [exact Ho|].
  exact (PeriodicTask_run_on_its_own_object ops 1%nat p Ho).
Defined.

(** X19.  [WorkerPeriodicTask.run], lines 196-206, called on its own
    object, in every state the program can reach.  [run] never raises.  If
    the task returns, [run] has done nothing but call it on behalf of the
    worker.  If the task raises, the error is swallowed; when [periodId] is
    set the recurring timer is cancelled and no occurrence of its
    identifier is left in the worker's [intervals], and nothing else
    changes. *)
Theorem WorkerPeriodicTask_run_on_its_own_object ops o t :
  heap (run ops init) !! o = Some (ObjWorkerPeriodic t) →
  WorkerPeriodicTask_run (Instance o) (run ops init)
  = (Normal,
     match (call (_task (wp_super t)) (Some (wp_parent t)) (run ops init)).1,
           periodId (wp_super t) with
     | Throw _, Some q =>
         on_worker (wp_parent t) (without_interval q)
           (with_timers (delete q)
              (call (_task (wp_super t)) (Some (wp_parent t)) (run ops init)).2)
     | _, _ => (call (_task (wp_super t)) (Some (wp_parent t)) (run ops init)).2
     end).
Proof.
  intros Ho. pose proof (Fresh_reachable ops) as HF.
  pose proof (Fresh_call (_task (wp_super t)) (Some (wp_parent t)) _ HF) as HF1.
  pose proof (heap_call_lookup (_task (wp_super t)) (Some (wp_parent t)) _ _ _ Ho) as Ho1.
  unfold WorkerPeriodicTask_run. rewrite Ho.
  destruct (call (_task (wp_super t)) (Some (wp_parent t)) (run ops init))
    as [[|e] w1]; simpl in *.
  - by destruct (periodId (wp_super t)).
  - rewrite Ho1. destruct (periodId (wp_super t)) as [q|] eqn:Hq; simpl; [|done].
    assert (1 ≤ q < next_id (run ops init)) as Hr.
    { eapply (fr_heap _ _ _ _ HF o); [done|]. simpl. by right. }
    destruct (Z.eqb_spec q 0); [lia|]. simpl. f_equal.
    apply removeInterval_NoDup; [done|].
    intros W HW. by eapply Fresh_NoDup_intervals.
Qed.

Lemma WorkerPeriodicTask_run_on_its_own_object_witness :
  let ops := [Do CreateWorker;
              Do (WorkerSchedulePeriodically 0%nat (mkRunnable 1 0 (λ k, (0 <? k)%nat) [])
                    (mkOptions (Some 2) (Some 4)));
              Tick 2; Fire 1] in
  let t := mkWorkerPeriodicTask
             (mkPeriodicTask (mkRunnable 1 0 (λ k, (0 <? k)%nat) []) None (Some 2)) 0%nat in
  heap (run ops init) !! 1%nat = Some (ObjWorkerPeriodic t) ∧
  WorkerPeriodicTask_run (Instance 1%nat) (run ops init)
  = (Normal,
     match (call (_task (wp_super t)) (Some (wp_parent t)) (run ops init)).1,
           periodId (wp_super t) with
     | Throw _, Some q =>
         on_worker (wp_parent t) (without_interval q)
           (with_timers (delete q)
              (call (_task (wp_super t)) (Some (wp_parent t)) (run ops init)).2)
     | _, _ => (call (_task (wp_super t)) (Some (wp_parent t)) (run ops init)).2
     end).
Proof.
  intros ops t.
  assert (heap (run ops init) !! 1%nat = Some (ObjWorkerPeriodic t)) as Ho
    by (vm_compute; reflexivity).
  split; [exact Ho|].
  exact (WorkerPeriodicTask_run_on_its_own_object ops 1%nat t Ho).
Defined.

(** ** A one-shot task of the scheduler *)

(** X20.  A task given to [DefaultScheduler.schedule], lines 16-19, is run
    by the host at most once, in every state the program can reach.  Once
    the delay has passed, the firing of the timer is a call of the task
    itself, on behalf of no worker, so that its outcome, an error included,
    is the outcome of the firing; the timer has left the table before the
    task starts and is never armed again. *)
Theorem scheduled_task_fires_once ops task delay dt :
  Z.max 0 (default 0 delay) ≤ Z.max 0 dt →
  fire (next_id (run ops init))
    (run [Tick dt] (DefaultScheduler_schedule task delay (run ops init)).2)
  = call task None
      (with_timers (delete (next_id (run ops init)))
         (run [Tick dt] (DefaultScheduler_schedule task delay (run ops init)).2)) ∧
  ∀ later,
    timers (run (Tick dt :: Fire (next_id (run ops init)) :: later)
              (DefaultScheduler_schedule task delay (run ops init)).2)
      !! next_id (run ops init) = None.
Proof.
  set (w := run ops init). intros Hdue.
  assert (fire (next_id w) (run [Tick dt] (DefaultScheduler_schedule task delay w).2)
          = call task None
              (with_timers (delete (next_id w))
                 (run [Tick dt] (DefaultScheduler_schedule task delay w).2))) as E.
  { unfold fire. simpl. rewrite lookup_insert_eq. simpl.
    destruct (Z.leb_spec (now w + 0 `max` default 0 delay) (now w + 0 `max` dt));
      [done|lia]. }
  split; [exact E|]. intros later.
  change (run (Tick dt :: Fire (next_id w) :: later) (DefaultScheduler_schedule task delay w).2)
    with (run later (exec (Fire (next_id w))
                       (run [Tick dt] (DefaultScheduler_schedule task delay w).2))).
  set (w1 := run [Tick dt] (DefaultScheduler_schedule task delay w).2) in *.
  assert (next_id w < next_id w1) as Hlt by (subst w1; simpl; lia).
  pose proof (grows_call task None (with_timers (delete (next_id w)) w1)) as HG.
  eapply grows_spent; [apply grows_run| |].
  - unfold exec. rewrite E.
    destruct (call task None _) as [[|e] w2]; destruct HG as [Hn _]; simpl in *; lia.
  - unfold exec. rewrite E.
    assert (timers (call task None (with_timers (delete (next_id w)) w1)).2
              !! next_id w = None) as Hnone.
    { eapply grows_spent; [exact HG|simpl; lia|simpl; apply lookup_delete_eq]. }
    by destruct (call task None _) as [[|e] w2].
Qed.

Lemma scheduled_task_fires_once_witness :
  let ops := [Do (Schedule (returns 1) None)] in
  Z.max 0 (default 0 (Some 5)) ≤ Z.max 0 7 ∧
  fire (next_id (run ops init))
    (run [Tick 7] (DefaultScheduler_schedule (raises 2) (Some 5) (run ops init)).2)
  = call (raises 2) None
      (with_timers (delete (next_id (run ops init)))
         (run [Tick 7] (DefaultScheduler_schedule (raises 2) (Some 5) (run ops init)).2)) ∧
  ∀ later,
    timers (run (Tick 7 :: Fire (next_id (run ops init)) :: later)
              (DefaultScheduler_schedule (raises 2) (Some 5) (run ops init)).2)
      !! next_id (run ops init) = None.
Proof.
  intros ops.
  assert (Z.max 0 (default 0 (Some 5)) ≤ Z.max 0 7) as Hd by (simpl; lia).
  split; [exact Hd|].
  exact (scheduled_task_fires_once ops (raises 2) (Some 5) 7 Hd).
Defined.

(** ** What is fixed at construction *)

(** X21.  The members set by the constructors are never assigned again,
    and no handle is dropped: whatever is scheduled, fired, disposed of or
    shut down, an object stays an object of its class, a
    [CallbackDisposable] keeps its function, a [PeriodicTask] its task, a
    [WorkerTask] and a [WorkerPeriodicTask] their task and their worker.
    Only the timer identifiers of a handle change. *)
Theorem handles_keep_task_and_worker later w o a :
  heap w !! o = Some a →
  ∃ b, heap (run later w) !! o = Some b ∧ same_kind a b.
Proof. intros Ho. exact (heap_le_run later w o a Ho). Qed.

Lemma handles_keep_task_and_worker_witness :
  let w := run [Do CreateWorker;
                Do (WorkerSchedulePeriodically 0%nat (returns 1)
                      (mkOptions (Some 2) (Some 4)))] init in
  let a := ObjWorkerPeriodic
             (mkWorkerPeriodicTask (mkPeriodicTask (returns 1) None None) 0%nat) in
  heap w !! 1%nat = Some a ∧
  ∃ b, heap (run [Tick 2; Fire 1; Do (Dispose 1%nat); Do (WorkerShutdown 0%nat)] w)
         !! 1%nat = Some b ∧ same_kind a b.
Proof.
  intros w a.
  assert (heap w !! 1%nat = Some a) as Ho by (vm_compute; reflexivity).
  split; [exact Ho|].
  exact (handles_keep_task_and_worker
           [Tick 2; Fire 1; Do (Dispose 1%nat); Do (WorkerShutdown 0%nat)] w 1%nat a Ho).
Defined.
